(** * Skeleton: the articulated-body coordinator of dart/dynamics/Skeleton.cpp

    The development embeds [dart::dynamics::Skeleton] as state-passing
    functions over a record of its members.  The classes the skeleton
    coordinates (BodyNode, Joint, PointMass) live in other translation
    units; their member functions are taken as parameters (a
    [BodyNodeContract]) and every call the skeleton makes on them is both
    applied to the object store and appended to a call log, so that
    "which per-body updates run, and in which order" is a property of the
    model. *)

From Stdlib Require Import ZArith QArith Qcanon Ring Lia.
From stdpp Require Import base list numbers functions sorting strings.

(** ** Scalars and dense vectors

    [double] is kept abstract: the skeleton only copies scalars around,
    compares them and (in the soft-body spring force) adds and multiplies
    them.  [Sof_nat] is the implicit int-to-double conversion. *)

Class ScalarOps (Scalar : Type) := {
  Szero : Scalar;
  Sone : Scalar;
  Sadd : Scalar -> Scalar -> Scalar;
  Ssub : Scalar -> Scalar -> Scalar;
  Smul : Scalar -> Scalar -> Scalar;
  Sopp : Scalar -> Scalar;
  Sof_nat : nat -> Scalar;
  Sltb : Scalar -> Scalar -> bool;
  Sdec :: EqDecision Scalar
}.

Section Linear.
Context {Scalar : Type} `{ScalarOps Scalar}.

(** Eigen::VectorXd and Eigen::Vector6d. *)
Definition VectorXd := list Scalar.
Definition VectorXd_Zero (n : nat) : VectorXd := replicate n Szero.
Definition Vector6d := list Scalar.
Definition Vector6d_Zero : Vector6d := replicate 6 Szero.

(** Eigen::Vector3d. *)
Record Vector3d := mkV3 { v0 : Scalar; v1 : Scalar; v2 : Scalar }.

Definition v3scale (k : Scalar) (v : Vector3d) : Vector3d :=
  mkV3 (Smul k (v0 v)) (Smul k (v1 v)) (Smul k (v2 v)).
Definition v3add (a b : Vector3d) : Vector3d :=
  mkV3 (Sadd (v0 a) (v0 b)) (Sadd (v1 a) (v1 b)) (Sadd (v2 a) (v2 b)).
Definition v3sub (a b : Vector3d) : Vector3d :=
  mkV3 (Ssub (v0 a) (v0 b)) (Ssub (v1 a) (v1 b)) (Ssub (v2 a) (v2 b)).
Definition v3zero : Vector3d := mkV3 Szero Szero Szero.

(** [v.segment<3>(i) = f]: three consecutive coefficients are assigned.
    Eigen asserts that the block lies inside the vector; outside it the
    list update leaves the vector as it is. *)
Definition setSegment3 (v : VectorXd) (i : nat) (f : Vector3d) : VectorXd :=
  <[S (S i) := v2 f]> (<[S i := v1 f]> (<[i := v0 f]> v)).
Definition segment3 (v : VectorXd) (i : nat) : option Vector3d :=
  match v !! i, v !! S i, v !! S (S i) with
  | Some a, Some b, Some c => Some (mkV3 a b c)
  | _, _, _ => None
  end.

(** Eigen::MatrixXd: its dimensions and its coefficients. *)
Record MatrixXd := mkMat {
  rows : nat;
  cols : nat;
  coeff : nat -> nat -> Scalar
}.

Definition MatrixXd_Zero (r c : nat) : MatrixXd := mkMat r c (fun _ _ => Szero).
Definition setZero (m : MatrixXd) : MatrixXd :=
  mkMat (rows m) (cols m) (fun _ _ => Szero).

(** [m(i, j) = x], in place. *)
Definition setCoeff (m : MatrixXd) (i j : nat) (x : Scalar) : MatrixXd :=
  mkMat (rows m) (cols m)
    (fun i' j' => if decide (i' = i /\ j' = j) then x else coeff m i' j').

(** [m.triangularView<Eigen::StrictlyUpper>() = m.transpose()].  Eigen
    evaluates the assignment coefficient by coefficient into [m] itself,
    column after column: the source operand aliases the destination, so
    every read is from the matrix as updated so far. *)
Definition assignStrictlyUpperFromTranspose (m : MatrixXd) : MatrixXd :=
  foldl (fun m j =>
           foldl (fun m i => setCoeff m i j (coeff m j i)) m
                 (seq 0 (Nat.min j (rows m))))
        m (seq 0 (cols m)).

(** [m.triangularView<Eigen::StrictlyLower>() = m.transpose()]. *)
Definition assignStrictlyLowerFromTranspose (m : MatrixXd) : MatrixXd :=
  foldl (fun m j =>
           foldl (fun m i => setCoeff m i j (coeff m j i)) m
                 (seq (S j) (rows m - S j)))
        m (seq 0 (cols m)).
End Linear.

Arguments VectorXd : clear implicits.
Arguments Vector6d : clear implicits.
Arguments Vector3d : clear implicits.
Arguments MatrixXd : clear implicits.

(** ** The objects a skeleton points to *)

(** BodyNode*, PointMass*: object identities. *)
Definition BodyId := nat.
Definition PointMassId := nat.

Section Objects.
Context {Scalar : Type} `{ScalarOps Scalar}.

(** GenCoord: one scalar degree of freedom. *)
Record GenCoord := mkGenCoord {
  q : Scalar;      (* position *)
  dq : Scalar;     (* velocity *)
  ddq : Scalar;    (* acceleration *)
  tau : Scalar     (* generalized force *)
}.

Definition set_q (x : Scalar) (g : GenCoord) := mkGenCoord x (dq g) (ddq g) (tau g).
Definition set_dq (x : Scalar) (g : GenCoord) := mkGenCoord (q g) x (ddq g) (tau g).
Definition set_ddq (x : Scalar) (g : GenCoord) := mkGenCoord (q g) (dq g) x (tau g).
Definition set_tau (x : Scalar) (g : GenCoord) := mkGenCoord (q g) (dq g) (ddq g) x.

(** What Skeleton.cpp reads from its bodies, joints and point masses
    through const getters.  None of it is written by Skeleton.cpp: the
    links are set when the tree is assembled, the coordinate indices by
    BodyNode::init. *)
Record Structure := mkStructure {
  getParentBodyNode : BodyId -> option BodyId;
  getChildBodyNodes : BodyId -> list BodyId;
      (* getNumChildBodyNodes(), getChildBodyNode(i) *)
  jointDof : BodyId -> nat;
      (* mParentJoint->getDof() *)
  jointIndexInSkeleton : BodyId -> nat;
      (* mParentJoint->getIndexInSkeleton(0) *)
  getMass : BodyId -> Scalar;
  getVertexSpringStiffness : BodyId -> Scalar;
  getEdgeSpringStiffness : BodyId -> Scalar;
  getPointMasses : BodyId -> list PointMassId;
      (* getNumPointMasses(), getPointMass(i) *)
  getConnectedPointMasses : PointMassId -> list PointMassId;
      (* getNumConnectedPointMasses(), getConnectedPointMass(j) *)
  pmGenCoordIndex : PointMassId -> nat -> nat
      (* getGenCoord(k)->getIndexInSkeleton() *)
}.

(** The mutable objects: the generalized coordinates (shared by pointer
    between the skeleton, its joints and its point masses), the members
    of BodyNode and PointMass that Skeleton.cpp touches directly, and the
    rest of their state, which it never inspects. *)
Record World {Internals : Type} := mkWorld {
  mGenCoords : list GenCoord;
  mConstraintImpulse : BodyId -> Vector6d Scalar;
  mConstraintImpulses : PointMassId -> Vector3d Scalar;
  mIsBodyJacobianDirty : BodyId -> bool;
  mIsBodyJacobianTimeDerivDirty : BodyId -> bool;
  internals : Internals
}.
Arguments World : clear implicits.

Definition set_mGenCoords {I} (x : list GenCoord) (w : World I) : World I :=
  mkWorld I x (mConstraintImpulse w) (mConstraintImpulses w)
    (mIsBodyJacobianDirty w) (mIsBodyJacobianTimeDerivDirty w) (internals w).
Definition set_mConstraintImpulse {I} (x : BodyId -> Vector6d Scalar) (w : World I) : World I :=
  mkWorld I (mGenCoords w) x (mConstraintImpulses w)
    (mIsBodyJacobianDirty w) (mIsBodyJacobianTimeDerivDirty w) (internals w).
Definition set_mConstraintImpulses {I} (x : PointMassId -> Vector3d Scalar) (w : World I) : World I :=
  mkWorld I (mGenCoords w) (mConstraintImpulse w) x
    (mIsBodyJacobianDirty w) (mIsBodyJacobianTimeDerivDirty w) (internals w).
Definition set_mIsBodyJacobianDirty {I} (x : BodyId -> bool) (w : World I) : World I :=
  mkWorld I (mGenCoords w) (mConstraintImpulse w) (mConstraintImpulses w)
    x (mIsBodyJacobianTimeDerivDirty w) (internals w).
Definition set_mIsBodyJacobianTimeDerivDirty {I} (x : BodyId -> bool) (w : World I) : World I :=
  mkWorld I (mGenCoords w) (mConstraintImpulse w) (mConstraintImpulses w)
    (mIsBodyJacobianDirty w) x (internals w).

(** *** GenCoordSystem *)

(** Modelled from the spec: GenCoordSystem (GenCoord.h/.cpp are not part
    of this translation unit) is the "flat vector of scalar DoFs
    (position, velocity, acceleration, force)": its getters collect one
    field of every coordinate, its setters store the i-th coefficient in
    the i-th coordinate. *)
Definition getDof {I} (w : World I) : nat := length (mGenCoords w).

Definition getConfigs {I} (w : World I) : VectorXd Scalar := q <$> mGenCoords w.
Definition getGenVels {I} (w : World I) : VectorXd Scalar := dq <$> mGenCoords w.
Definition getGenAccs {I} (w : World I) : VectorXd Scalar := ddq <$> mGenCoords w.
Definition getGenForces {I} (w : World I) : VectorXd Scalar := tau <$> mGenCoords w.

Definition storeField (set : Scalar -> GenCoord -> GenCoord)
    (v : VectorXd Scalar) (gs : list GenCoord) : list GenCoord :=
  imap (fun i g => match v !! i with Some x => set x g | None => g end) gs.

Definition GenCoordSystem_setPositions {I} (v : VectorXd Scalar) (w : World I) :=
  set_mGenCoords (storeField set_q v (mGenCoords w)) w.
Definition GenCoordSystem_setVelocities {I} (v : VectorXd Scalar) (w : World I) :=
  set_mGenCoords (storeField set_dq v (mGenCoords w)) w.
Definition GenCoordSystem_setAccelerations {I} (v : VectorXd Scalar) (w : World I) :=
  set_mGenCoords (storeField set_ddq v (mGenCoords w)) w.
Definition setGenForces {I} (v : VectorXd Scalar) (w : World I) :=
  set_mGenCoords (storeField set_tau v (mGenCoords w)) w.

(** Modelled from the spec: PointMass::getConfigs and getGenVels
    (PointMass.cpp is not part of this translation unit).  A point mass has
    a "3D position/velocity/acceleration (backed by 3 generalized
    coordinates, whose skeleton indices are known)": its coordinates are
    the skeleton's own coordinate objects at [pmGenCoordIndex p 0..2]. *)
Definition coordAt {I} (w : World I) (i : nat) : GenCoord :=
  default (mkGenCoord Szero Szero Szero Szero) (mGenCoords w !! i).
Definition pm_getConfigs {I} (st : Structure) (w : World I) (p : PointMassId) :=
  mkV3 (q (coordAt w (pmGenCoordIndex st p 0)))
       (q (coordAt w (pmGenCoordIndex st p 1)))
       (q (coordAt w (pmGenCoordIndex st p 2))).
Definition pm_getGenVels {I} (st : Structure) (w : World I) (p : PointMassId) :=
  mkV3 (dq (coordAt w (pmGenCoordIndex st p 0)))
       (dq (coordAt w (pmGenCoordIndex st p 1)))
       (dq (coordAt w (pmGenCoordIndex st p 2))).
End Objects.

Arguments GenCoord : clear implicits.
Arguments Structure : clear implicits.
Arguments World : clear implicits.

(** ** Calls into the classes defined elsewhere

    One constructor per member function that Skeleton.cpp calls, with the
    arguments it passes. *)

Module BodyNode.
(** Member functions of BodyNode without an output argument. *)
Inductive Call {Scalar : Type} :=
| init (skelIndex : nat)
| updateTransform
| updateVelocity
| updatePartialAcceleration
| updateAcceleration
| updateArtInertia (timeStep : Scalar)
| updateBiasForce (gravity : Vector3d Scalar) (timeStep : Scalar)
| updateJointAndBodyAcceleration
| updateTransmittedForce
| updateBodyForce (gravity : Vector3d Scalar) (withExternalForces : bool)
| updateGeneralizedForce (withDampingForces : bool)
| updateMassMatrix
| updateInvMassMatrix
| updateInvAugMassMatrix
| updateCombinedVector
| updateBiasImpulse
| updateJointVelocityChange
| updateBodyImpForceFwdDyn
| updateConstrainedJointAndBodyAcceleration (timeStep : Scalar)
| updateConstrainedTransmittedForce (timeStep : Scalar)
| clearExternalForces
| clearConstraintImpulse.
Arguments Call : clear implicits.

(** Member functions that write into a matrix of the skeleton. *)
Inductive MatCall {Scalar : Type} :=
| aggregateMassMatrix (col : nat)
| aggregateAugMassMatrix (col : nat) (timeStep : Scalar)
| aggregateInvMassMatrix (col : nat)
| aggregateInvAugMassMatrix (col : nat) (timeStep : Scalar).
Arguments MatCall : clear implicits.

(** Member functions that write into a vector of the skeleton. *)
Inductive VecCall {Scalar : Type} :=
| aggregateCoriolisForceVector
| aggregateGravityForceVector (gravity : Vector3d Scalar)
| aggregateCombinedVector (gravity : Vector3d Scalar)
| aggregateExternalForces.
Arguments VecCall : clear implicits.
End BodyNode.

Module Joint.
Inductive Call {Scalar : Type} :=
| integratePositions (dt : Scalar)
| integrateVelocities (dt : Scalar).
Arguments Call : clear implicits.
End Joint.

Module PointMass.
Inductive Call {Scalar : Type} :=
| integrateConfigs (dt : Scalar)
| integrateGenVels (dt : Scalar).
Arguments Call : clear implicits.
End PointMass.

(** A call as it appears in the log: the receiver and the member function.
    [OnJoint b] is a call on [mBodyNodes[i]->getParentJoint()] for the
    body [b]. *)
Inductive Event {Scalar : Type} :=
| OnBody (b : BodyId) (c : BodyNode.Call Scalar)
| OnBodyMat (b : BodyId) (c : BodyNode.MatCall Scalar)
| OnBodyVec (b : BodyId) (c : BodyNode.VecCall Scalar)
| OnJoint (b : BodyId) (c : Joint.Call Scalar)
| OnPointMass (p : PointMassId) (c : PointMass.Call Scalar).
Arguments Event : clear implicits.

(** What the called member functions do to the objects.  They see the
    object store (and the matrix or vector handed to them by pointer), not
    the private members of the skeleton. *)
Record BodyNodeContract {Scalar Internals : Type} := mkContract {
  onBody : BodyId -> BodyNode.Call Scalar ->
           World Scalar Internals -> World Scalar Internals;
  onBodyMat : BodyId -> BodyNode.MatCall Scalar ->
              World Scalar Internals -> MatrixXd Scalar ->
              World Scalar Internals * MatrixXd Scalar;
  onBodyVec : BodyId -> BodyNode.VecCall Scalar ->
              World Scalar Internals -> VectorXd Scalar ->
              World Scalar Internals * VectorXd Scalar;
  onJoint : BodyId -> Joint.Call Scalar ->
            World Scalar Internals -> World Scalar Internals;
  onPointMass : PointMassId -> PointMass.Call Scalar ->
                World Scalar Internals -> World Scalar Internals
}.
Arguments BodyNodeContract : clear implicits.

(** ** The members of Skeleton *)

(** The family of dirty bits. *)
Inductive DirtyFlag :=
| mIsArticulatedInertiaDirty
| mIsMassMatrixDirty
| mIsAugMassMatrixDirty
| mIsInvMassMatrixDirty
| mIsInvAugMassMatrixDirty
| mIsCoriolisVectorDirty
| mIsGravityForceVectorDirty
| mIsCombinedVectorDirty
| mIsExternalForceVectorDirty
| mIsDampingForceVectorDirty.

#[export] Instance DirtyFlag_eq_dec : EqDecision DirtyFlag.
Proof. solve_decision. Defined.

(** The dof x dof matrices and the dof-length vectors. *)
Inductive MatrixMember := mM | mAugM | mInvM | mInvAugM.
Inductive VectorMember := mCvec | mG | mCg | mFext | mFc | mFd.

#[export] Instance MatrixMember_eq_dec : EqDecision MatrixMember.
Proof. solve_decision. Defined.
#[export] Instance VectorMember_eq_dec : EqDecision VectorMember.
Proof. solve_decision. Defined.

(** The skeleton: its own members, the objects it points to, and the log
    of the calls made on them so far.  (mName, the self-collision switches
    and the union-find members are left out: no function below reads or
    writes them.) *)
Record Skeleton {Scalar Internals : Type} := mkSkeleton {
  mTimeStep : Scalar;
  mGravity : Vector3d Scalar;
  mTotalMass : Scalar;
  mIsMobile : bool;
  mIsImpulseApplied : bool;
  mBodyNodes : list BodyId;
  mSoftBodyNodes : list BodyId;
  dirty : DirtyFlag -> bool;
  matrix : MatrixMember -> MatrixXd Scalar;
  vector : VectorMember -> VectorXd Scalar;
  objects : World Scalar Internals;
  calls : list (Event Scalar)
}.
Arguments Skeleton : clear implicits.
Arguments mkSkeleton {Scalar Internals}.

(** Why a run stops without a result. *)
Inductive Failure :=
| AssertionFailed     (* an assert of the source does not hold *)
| OutOfRange          (* mBodyNodes[0] of an empty vector *)
| OutOfFuel.          (* a while loop was cut off by the model *)

Inductive Outcome {St A : Type} :=
| Ok (a : A) (s : St)
| Fail (f : Failure).
Arguments Outcome : clear implicits.

(** ** Member functions as state transformers *)

Section Methods.
Context {Scalar : Type} `{ScalarOps Scalar} {Internals : Type}.
Context (st : Structure Scalar) (ct : BodyNodeContract Scalar Internals).

Abbreviation Skel := (Skeleton Scalar Internals).
Abbreviation Wrld := (World Scalar Internals).

Definition Op (A : Type) : Type := Skel -> Outcome Skel A.

#[export] Instance Op_ret : MRet Op := fun A a s => Ok a s.
#[export] Instance Op_bind : MBind Op := fun A B k m s =>
  match m s with
  | Ok a s' => k a s'
  | Fail f => Fail f
  end.

Definition fail {A} (f : Failure) : Op A := fun _ => Fail f.
Definition get : Op Skel := fun s => Ok s s.
Definition modify (f : Skel -> Skel) : Op unit := fun s => Ok tt (f s).
Definition assert (b : bool) : Op unit :=
  if b then mret tt else fail AssertionFailed.

(** Stores into one member. *)
Definition with_mTimeStep (x : Scalar) (s : Skel) : Skel :=
  mkSkeleton x (mGravity s) (mTotalMass s) (mIsMobile s) (mIsImpulseApplied s)
    (mBodyNodes s) (mSoftBodyNodes s) (dirty s) (matrix s) (vector s)
    (objects s) (calls s).
Definition with_mGravity (x : Vector3d Scalar) (s : Skel) : Skel :=
  mkSkeleton (mTimeStep s) x (mTotalMass s) (mIsMobile s) (mIsImpulseApplied s)
    (mBodyNodes s) (mSoftBodyNodes s) (dirty s) (matrix s) (vector s)
    (objects s) (calls s).
Definition with_mTotalMass (x : Scalar) (s : Skel) : Skel :=
  mkSkeleton (mTimeStep s) (mGravity s) x (mIsMobile s) (mIsImpulseApplied s)
    (mBodyNodes s) (mSoftBodyNodes s) (dirty s) (matrix s) (vector s)
    (objects s) (calls s).
Definition with_mIsMobile (x : bool) (s : Skel) : Skel :=
  mkSkeleton (mTimeStep s) (mGravity s) (mTotalMass s) x (mIsImpulseApplied s)
    (mBodyNodes s) (mSoftBodyNodes s) (dirty s) (matrix s) (vector s)
    (objects s) (calls s).
Definition with_mIsImpulseApplied (x : bool) (s : Skel) : Skel :=
  mkSkeleton (mTimeStep s) (mGravity s) (mTotalMass s) (mIsMobile s) x
    (mBodyNodes s) (mSoftBodyNodes s) (dirty s) (matrix s) (vector s)
    (objects s) (calls s).
Definition with_mBodyNodes (x : list BodyId) (s : Skel) : Skel :=
  mkSkeleton (mTimeStep s) (mGravity s) (mTotalMass s) (mIsMobile s)
    (mIsImpulseApplied s) x (mSoftBodyNodes s) (dirty s) (matrix s) (vector s)
    (objects s) (calls s).
Definition with_mSoftBodyNodes (x : list BodyId) (s : Skel) : Skel :=
  mkSkeleton (mTimeStep s) (mGravity s) (mTotalMass s) (mIsMobile s)
    (mIsImpulseApplied s) (mBodyNodes s) x (dirty s) (matrix s) (vector s)
    (objects s) (calls s).
Definition with_dirty (x : DirtyFlag -> bool) (s : Skel) : Skel :=
  mkSkeleton (mTimeStep s) (mGravity s) (mTotalMass s) (mIsMobile s)
    (mIsImpulseApplied s) (mBodyNodes s) (mSoftBodyNodes s) x (matrix s)
    (vector s) (objects s) (calls s).
Definition with_matrix (x : MatrixMember -> MatrixXd Scalar) (s : Skel) : Skel :=
  mkSkeleton (mTimeStep s) (mGravity s) (mTotalMass s) (mIsMobile s)
    (mIsImpulseApplied s) (mBodyNodes s) (mSoftBodyNodes s) (dirty s) x
    (vector s) (objects s) (calls s).
Definition with_vector (x : VectorMember -> VectorXd Scalar) (s : Skel) : Skel :=
  mkSkeleton (mTimeStep s) (mGravity s) (mTotalMass s) (mIsMobile s)
    (mIsImpulseApplied s) (mBodyNodes s) (mSoftBodyNodes s) (dirty s)
    (matrix s) x (objects s) (calls s).
Definition with_objects (x : Wrld) (s : Skel) : Skel :=
  mkSkeleton (mTimeStep s) (mGravity s) (mTotalMass s) (mIsMobile s)
    (mIsImpulseApplied s) (mBodyNodes s) (mSoftBodyNodes s) (dirty s)
    (matrix s) (vector s) x (calls s).
Definition with_calls (x : list (Event Scalar)) (s : Skel) : Skel :=
  mkSkeleton (mTimeStep s) (mGravity s) (mTotalMass s) (mIsMobile s)
    (mIsImpulseApplied s) (mBodyNodes s) (mSoftBodyNodes s) (dirty s)
    (matrix s) (vector s) (objects s) x.

(** [flag = b], [matrix = m], [vector = v] on one member of a family. *)
Definition setDirty (f : DirtyFlag) (b : bool) : Op unit :=
  modify (fun s => with_dirty (<[f := b]> (dirty s)) s).
Definition setMatrix (k : MatrixMember) (m : MatrixXd Scalar) : Op unit :=
  modify (fun s => with_matrix (<[k := m]> (matrix s)) s).
Definition setVector (k : VectorMember) (v : VectorXd Scalar) : Op unit :=
  modify (fun s => with_vector (<[k := v]> (vector s)) s).
Definition onObjects (f : Wrld -> Wrld) : Op unit :=
  modify (fun s => with_objects (f (objects s)) s).

(** A call on an object: its effect on the store, and its entry in the log. *)
Definition callBody (b : BodyId) (c : BodyNode.Call Scalar) : Op unit :=
  modify (fun s => with_calls (calls s ++ [OnBody b c])
                     (with_objects (onBody ct b c (objects s)) s)).
Definition callJoint (b : BodyId) (c : Joint.Call Scalar) : Op unit :=
  modify (fun s => with_calls (calls s ++ [OnJoint b c])
                     (with_objects (onJoint ct b c (objects s)) s)).
Definition callPointMass (p : PointMassId) (c : PointMass.Call Scalar) : Op unit :=
  modify (fun s => with_calls (calls s ++ [OnPointMass p c])
                     (with_objects (onPointMass ct p c (objects s)) s)).
Definition callBodyMat (k : MatrixMember) (b : BodyId)
    (c : BodyNode.MatCall Scalar) : Op unit :=
  modify (fun s =>
    let r := onBodyMat ct b c (objects s) (matrix s k) in
    with_calls (calls s ++ [OnBodyMat b c])
      (with_matrix (<[k := r.2]> (matrix s)) (with_objects r.1 s))).
Definition callBodyVec (k : VectorMember) (b : BodyId)
    (c : BodyNode.VecCall Scalar) : Op unit :=
  modify (fun s =>
    let r := onBodyVec ct b c (objects s) (vector s k) in
    with_calls (calls s ++ [OnBodyVec b c])
      (with_vector (<[k := r.2]> (vector s)) (with_objects r.1 s))).

(** Loops.  [forEach] is a for loop over a container, [forEachUntil] one
    whose body may [break] (it returns [true] to do so), [forEachWith] one
    that carries a local variable from one iteration to the next. *)
Fixpoint forEach {X} (l : list X) (body : X -> Op unit) : Op unit :=
  match l with
  | [] => mret tt
  | x :: l' => body x;; forEach l' body
  end.

Fixpoint forEachUntil {X} (l : list X) (body : X -> Op bool) : Op unit :=
  match l with
  | [] => mret tt
  | x :: l' => stop ← body x; if stop : bool then mret tt else forEachUntil l' body
  end.

Fixpoint forEachWith {X L} (l : list X) (local : L) (body : L -> X -> Op L) : Op L :=
  match l with
  | [] => mret local
  | x :: l' => local' ← body local x; forEachWith l' local' body
  end.

(** *** Plain accessors *)

Definition setTimeStep (_timeStep : Scalar) : Op unit :=
  assert (Sltb Szero _timeStep);;
  modify (with_mTimeStep _timeStep).

Definition setGravity (_gravity : Vector3d Scalar) : Op unit :=
  modify (with_mGravity _gravity).

Definition setMobile (_isMobile : bool) : Op unit :=
  modify (with_mIsMobile _isMobile).

Definition isMobile (s : Skel) : bool := mIsMobile s.

Definition setImpulseApplied (_val : bool) : Op unit :=
  modify (with_mIsImpulseApplied _val).

(** *** Forward kinematics and the state setters *)

Definition computeForwardKinematics
    (_updateTransforms _updateVels _updateAccs : bool) : Op unit :=
  s ← get;
  (if _updateTransforms
   then forEach (mBodyNodes s) (fun it => callBody it BodyNode.updateTransform)
   else mret tt);;
  (if _updateVels
   then forEach (mBodyNodes s) (fun it =>
          callBody it BodyNode.updateVelocity;;
          callBody it BodyNode.updatePartialAcceleration)
   else mret tt);;
  (if _updateAccs
   then forEach (mBodyNodes s) (fun it => callBody it BodyNode.updateAcceleration)
   else mret tt);;
  setDirty mIsArticulatedInertiaDirty true;;
  setDirty mIsMassMatrixDirty true;;
  setDirty mIsAugMassMatrixDirty true;;
  setDirty mIsInvMassMatrixDirty true;;
  setDirty mIsInvAugMassMatrixDirty true;;
  setDirty mIsCoriolisVectorDirty true;;
  setDirty mIsGravityForceVectorDirty true;;
  setDirty mIsCombinedVectorDirty true;;
  setDirty mIsExternalForceVectorDirty true;;
  forEach (mBodyNodes s) (fun it =>
    onObjects (fun w =>
      set_mIsBodyJacobianDirty (<[it := true]> (mIsBodyJacobianDirty w)) w);;
    onObjects (fun w =>
      set_mIsBodyJacobianTimeDerivDirty
        (<[it := true]> (mIsBodyJacobianTimeDerivDirty w)) w)).

Definition getConfigSegs (_id : list nat) (s : Skel) : VectorXd Scalar :=
  (fun i => q (coordAt (objects s) i)) <$> _id.

Definition setConfigSegs (_id : list nat) (_configs : VectorXd Scalar)
    (_updateTransforms _updateVels _updateAccs : bool) : Op unit :=
  forEach (zip _id _configs) (fun ic =>
    onObjects (fun w =>
      set_mGenCoords (alter (set_q ic.2) ic.1 (mGenCoords w)) w));;
  computeForwardKinematics _updateTransforms _updateVels _updateAccs.

Definition setPositions (_configs : VectorXd Scalar)
    (_updateTransforms _updateVels _updateAccs : bool) : Op unit :=
  onObjects (GenCoordSystem_setPositions _configs);;
  computeForwardKinematics _updateTransforms _updateVels _updateAccs.

Definition setVelocities (_genVels : VectorXd Scalar)
    (_updateVels _updateAccs : bool) : Op unit :=
  onObjects (GenCoordSystem_setVelocities _genVels);;
  computeForwardKinematics false _updateVels _updateAccs.

Definition setAccelerations (_genAccs : VectorXd Scalar)
    (_updateAccs : bool) : Op unit :=
  onObjects (GenCoordSystem_setAccelerations _genAccs);;
  computeForwardKinematics false false _updateAccs.

Definition setState (_state : VectorXd Scalar)
    (_updateTransforms _updateVels _updateAccs : bool) : Op unit :=
  assert (bool_decide (length _state `mod` 2 = 0));;
  onObjects (GenCoordSystem_setPositions (take (length _state / 2) _state));;
  onObjects (GenCoordSystem_setVelocities
               (drop (length _state - length _state / 2) _state));;
  computeForwardKinematics _updateTransforms _updateVels _updateAccs.

Definition getState (s : Skel) : VectorXd Scalar :=
  getConfigs (objects s) ++ getGenVels (objects s).

Definition integrateConfigs (_dt : Scalar) : Op unit :=
  s ← get;
  forEach (mBodyNodes s) (fun b => callJoint b (Joint.integratePositions _dt));;
  forEach (mSoftBodyNodes s) (fun sb =>
    forEach (getPointMasses st sb) (fun pm =>
      callPointMass pm (PointMass.integrateConfigs _dt))).

Definition integrateGenVels (_dt : Scalar) : Op unit :=
  s ← get;
  forEach (mBodyNodes s) (fun b => callJoint b (Joint.integrateVelocities _dt));;
  forEach (mSoftBodyNodes s) (fun sb =>
    forEach (getPointMasses st sb) (fun pm =>
      callPointMass pm (PointMass.integrateGenVels _dt))).

(** *** Cached quantities: the updaters *)

(** The test made after each aggregation of the backward loop of the mass
    matrices: [true] is the [break]. *)
Definition leftOfColumn (b : BodyId) (j : nat) : bool :=
  let localDof := jointDof st b in
  if 0 <? localDof
  then let iStart := jointIndexInSkeleton st b in iStart + localDof <? j
  else false.

(** The test made after each aggregation of the forward loop of the
    inverse mass matrices. *)
Definition reachesColumn (b : BodyId) (j : nat) : bool :=
  let localDof := jointDof st b in
  if 0 <? localDof
  then let iStart := jointIndexInSkeleton st b in j <? iStart + localDof
  else false.

(** The backward loop of updateMassMatrix and updateAugMassMatrix,
    [for (int i = mBodyNodes.size() - 1; i > -1; --i)]: aggregate, then
    test for the [break]. *)
Definition aggregateBackward (k : MatrixMember)
    (c : BodyNode.MatCall Scalar) (bodies : list BodyId) (j : nat) : Op unit :=
  forEachUntil (reverse bodies) (fun b =>
    callBodyMat k b c;;
    mret (leftOfColumn b j)).

(** The forward loop of updateInvMassMatrix and updateInvAugMassMatrix,
    [for (int i = 0; i < mBodyNodes.size(); ++i)]. *)
Definition aggregateForward (k : MatrixMember)
    (c : BodyNode.MatCall Scalar) (bodies : list BodyId) (j : nat) : Op unit :=
  forEachUntil bodies (fun b =>
    callBodyMat k b c;;
    mret (reachesColumn b j)).

Definition updateMassMatrix : Op unit :=
  s ← get;
  assert (bool_decide (cols (matrix s mM) = getDof (objects s)
                       /\ rows (matrix s mM) = getDof (objects s)));;
  assert (0 <? getDof (objects s));;
  setMatrix mM (setZero (matrix s mM));;
  (* Backup the original generalized accelerations *)
  let originalGenAcceleration := getGenAccs (objects s) in
  let dof := getDof (objects s) in
  forEachWith (seq 0 dof) (VectorXd_Zero dof) (fun e j =>
    let e := <[j := Sone]> e in
    onObjects (GenCoordSystem_setAccelerations e);;
    (* Prepare cache data *)
    forEach (mBodyNodes s) (fun it => callBody it BodyNode.updateMassMatrix);;
    (* Mass matrix *)
    aggregateBackward mM (BodyNode.aggregateMassMatrix j) (mBodyNodes s) j;;
    mret (<[j := Szero]> e));;
  s ← get;
  setMatrix mM (assignStrictlyUpperFromTranspose (matrix s mM));;
  (* Restore the original generalized accelerations *)
  setAccelerations originalGenAcceleration false;;
  setDirty mIsMassMatrixDirty false.

Definition updateAugMassMatrix : Op unit :=
  s ← get;
  assert (bool_decide (cols (matrix s mAugM) = getDof (objects s)
                       /\ rows (matrix s mAugM) = getDof (objects s)));;
  assert (0 <? getDof (objects s));;
  setMatrix mAugM (setZero (matrix s mAugM));;
  let originalGenAcceleration := getGenAccs (objects s) in
  let dof := getDof (objects s) in
  forEachWith (seq 0 dof) (VectorXd_Zero dof) (fun e j =>
    let e := <[j := Sone]> e in
    onObjects (GenCoordSystem_setAccelerations e);;
    forEach (mBodyNodes s) (fun it => callBody it BodyNode.updateMassMatrix);;
    aggregateBackward mAugM (BodyNode.aggregateAugMassMatrix j (mTimeStep s))
      (mBodyNodes s) j;;
    mret (<[j := Szero]> e));;
  s ← get;
  setMatrix mAugM (assignStrictlyUpperFromTranspose (matrix s mAugM));;
  onObjects (GenCoordSystem_setAccelerations originalGenAcceleration);;
  setDirty mIsAugMassMatrixDirty false.

Definition updateInvMassMatrix : Op unit :=
  s ← get;
  assert (bool_decide (cols (matrix s mInvM) = getDof (objects s)
                       /\ rows (matrix s mInvM) = getDof (objects s)));;
  assert (0 <? getDof (objects s));;
  (* Backup the original internal force *)
  let originalInternalForce := getGenForces (objects s) in
  (if dirty s mIsArticulatedInertiaDirty
   then forEach (reverse (mBodyNodes s)) (fun it =>
          callBody it (BodyNode.updateArtInertia (mTimeStep s)));;
        setDirty mIsArticulatedInertiaDirty false
   else mret tt);;
  let dof := getDof (objects s) in
  forEachWith (seq 0 dof) (VectorXd_Zero dof) (fun e j =>
    let e := <[j := Sone]> e in
    onObjects (setGenForces e);;
    (* Prepare cache data *)
    forEach (reverse (mBodyNodes s)) (fun it =>
      callBody it BodyNode.updateInvMassMatrix);;
    (* Inverse of mass matrix *)
    aggregateForward mInvM (BodyNode.aggregateInvMassMatrix j) (mBodyNodes s) j;;
    mret (<[j := Szero]> e));;
  s ← get;
  setMatrix mInvM (assignStrictlyLowerFromTranspose (matrix s mInvM));;
  (* Restore the original internal force *)
  onObjects (setGenForces originalInternalForce);;
  setDirty mIsInvMassMatrixDirty false.

Definition updateInvAugMassMatrix : Op unit :=
  s ← get;
  assert (bool_decide (cols (matrix s mInvAugM) = getDof (objects s)
                       /\ rows (matrix s mInvAugM) = getDof (objects s)));;
  assert (0 <? getDof (objects s));;
  let originalInternalForce := getGenForces (objects s) in
  let dof := getDof (objects s) in
  forEachWith (seq 0 dof) (VectorXd_Zero dof) (fun e j =>
    let e := <[j := Sone]> e in
    onObjects (setGenForces e);;
    forEach (reverse (mBodyNodes s)) (fun it =>
      callBody it BodyNode.updateInvAugMassMatrix);;
    aggregateForward mInvAugM (BodyNode.aggregateInvAugMassMatrix j (mTimeStep s))
      (mBodyNodes s) j;;
    mret (<[j := Szero]> e));;
  s ← get;
  setMatrix mInvAugM (assignStrictlyLowerFromTranspose (matrix s mInvAugM));;
  onObjects (setGenForces originalInternalForce);;
  setDirty mIsInvAugMassMatrixDirty false.

Definition VectorXd_setZero (v : VectorXd Scalar) : VectorXd Scalar :=
  VectorXd_Zero (length v).

Definition updateCoriolisForceVector : Op unit :=
  s ← get;
  assert (bool_decide (length (vector s mCvec) = getDof (objects s)));;
  assert (0 <? getDof (objects s));;
  setVector mCvec (VectorXd_setZero (vector s mCvec));;
  forEach (mBodyNodes s) (fun it => callBody it BodyNode.updateCombinedVector);;
  forEach (reverse (mBodyNodes s)) (fun it =>
    callBodyVec mCvec it BodyNode.aggregateCoriolisForceVector);;
  setDirty mIsCoriolisVectorDirty false.

Definition updateGravityForceVector : Op unit :=
  s ← get;
  assert (bool_decide (length (vector s mG) = getDof (objects s)));;
  assert (0 <? getDof (objects s));;
  setVector mG (VectorXd_setZero (vector s mG));;
  forEach (reverse (mBodyNodes s)) (fun it =>
    callBodyVec mG it (BodyNode.aggregateGravityForceVector (mGravity s)));;
  setDirty mIsGravityForceVectorDirty false.

Definition updateCombinedVector : Op unit :=
  s ← get;
  assert (bool_decide (length (vector s mCg) = getDof (objects s)));;
  assert (0 <? getDof (objects s));;
  setVector mCg (VectorXd_setZero (vector s mCg));;
  forEach (mBodyNodes s) (fun it => callBody it BodyNode.updateCombinedVector);;
  forEach (reverse (mBodyNodes s)) (fun it =>
    callBodyVec mCg it (BodyNode.aggregateCombinedVector (mGravity s)));;
  setDirty mIsCombinedVectorDirty false.

(** The restoring force of the vertex and edge springs of one point mass,
    as the inner loop body of updateExternalForceVector computes it. *)
Definition pointMassSpringForce (w : Wrld) (mTimeStep : Scalar)
    (kv ke : Scalar) (pm : PointMassId) : Vector3d Scalar :=
  let nN := length (getConnectedPointMasses st pm) in
  (* Vertex restoring force *)
  let Fext :=
    v3sub (v3scale (Sopp (Sadd kv (Smul (Sof_nat nN) ke))) (pm_getConfigs st w pm))
          (v3scale (Smul mTimeStep (Sadd kv (Smul (Sof_nat nN) ke)))
                   (pm_getGenVels st w pm)) in
  (* Edge restoring force *)
  foldl (fun Fext pj =>
           v3add Fext
             (v3scale ke (v3add (pm_getConfigs st w pj)
                                (v3scale mTimeStep (pm_getGenVels st w pj)))))
        Fext (getConnectedPointMasses st pm).

Definition updateExternalForceVector : Op unit :=
  s ← get;
  assert (bool_decide (length (vector s mFext) = getDof (objects s)));;
  assert (0 <? getDof (objects s));;
  (* Clear external force. *)
  setVector mFext (VectorXd_setZero (vector s mFext));;
  forEach (reverse (mBodyNodes s)) (fun itr =>
    callBodyVec mFext itr BodyNode.aggregateExternalForces);;
  forEach (mSoftBodyNodes s) (fun it =>
    let kv := getVertexSpringStiffness st it in
    let ke := getEdgeSpringStiffness st it in
    forEach (getPointMasses st it) (fun pm =>
      s ← get;
      let Fext := pointMassSpringForce (objects s) (mTimeStep s) kv ke pm in
      (* Assign *)
      let iStart := pmGenCoordIndex st pm 0 in
      setVector mFext (setSegment3 (vector s mFext) iStart Fext)));;
  setDirty mIsExternalForceVectorDirty false.

(** *** Cached quantities: the accessors *)

Definition getMassMatrix : Op (MatrixXd Scalar) :=
  s ← get;
  (if dirty s mIsMassMatrixDirty then updateMassMatrix else mret tt);;
  s ← get; mret (matrix s mM).

Definition getAugMassMatrix : Op (MatrixXd Scalar) :=
  s ← get;
  (if dirty s mIsAugMassMatrixDirty then updateAugMassMatrix else mret tt);;
  s ← get; mret (matrix s mAugM).

Definition getInvMassMatrix : Op (MatrixXd Scalar) :=
  s ← get;
  (if dirty s mIsInvMassMatrixDirty then updateInvMassMatrix else mret tt);;
  s ← get; mret (matrix s mInvM).

Definition getInvAugMassMatrix : Op (MatrixXd Scalar) :=
  s ← get;
  (if dirty s mIsInvAugMassMatrixDirty then updateInvAugMassMatrix else mret tt);;
  s ← get; mret (matrix s mInvAugM).

Definition getCoriolisForceVector : Op (VectorXd Scalar) :=
  s ← get;
  (if dirty s mIsCoriolisVectorDirty then updateCoriolisForceVector else mret tt);;
  s ← get; mret (vector s mCvec).

Definition getGravityForceVector : Op (VectorXd Scalar) :=
  s ← get;
  (if dirty s mIsGravityForceVectorDirty then updateGravityForceVector else mret tt);;
  s ← get; mret (vector s mG).

Definition getCombinedVector : Op (VectorXd Scalar) :=
  s ← get;
  (if dirty s mIsCombinedVectorDirty then updateCombinedVector else mret tt);;
  s ← get; mret (vector s mCg).

Definition getExternalForceVector : Op (VectorXd Scalar) :=
  s ← get;
  (if dirty s mIsExternalForceVectorDirty then updateExternalForceVector else mret tt);;
  s ← get; mret (vector s mFext).

(** *** Dynamics drivers *)

Definition computeForwardDynamicsRecursionPartA : Op unit :=
  s ← get;
  forEach (mBodyNodes s) (fun it =>
    callBody it BodyNode.updateTransform;;
    callBody it BodyNode.updateVelocity;;
    callBody it BodyNode.updatePartialAcceleration);;
  setDirty mIsArticulatedInertiaDirty true;;
  setDirty mIsMassMatrixDirty true;;
  setDirty mIsAugMassMatrixDirty true;;
  setDirty mIsInvMassMatrixDirty true;;
  setDirty mIsInvAugMassMatrixDirty true;;
  setDirty mIsCoriolisVectorDirty true;;
  setDirty mIsGravityForceVectorDirty true;;
  setDirty mIsCombinedVectorDirty true;;
  setDirty mIsExternalForceVectorDirty true;;
  forEach (mBodyNodes s) (fun it =>
    onObjects (fun w =>
      set_mIsBodyJacobianDirty (<[it := true]> (mIsBodyJacobianDirty w)) w);;
    onObjects (fun w =>
      set_mIsBodyJacobianTimeDerivDirty
        (<[it := true]> (mIsBodyJacobianTimeDerivDirty w)) w)).

Definition computeForwardDynamicsRecursionPartB : Op unit :=
  s ← get;
  (* Backward recursion *)
  forEach (reverse (mBodyNodes s)) (fun it =>
    callBody it (BodyNode.updateArtInertia (mTimeStep s));;
    callBody it (BodyNode.updateBiasForce (mGravity s) (mTimeStep s)));;
  setDirty mIsArticulatedInertiaDirty false;;
  (* Forward recursion *)
  forEach (mBodyNodes s) (fun it =>
    callBody it BodyNode.updateJointAndBodyAcceleration;;
    callBody it BodyNode.updateTransmittedForce).

Definition computeForwardDynamics : Op unit :=
  computeForwardDynamicsRecursionPartA;;
  computeForwardDynamicsRecursionPartB.

Definition computeInverseDynamicsRecursionA : Op unit :=
  s ← get;
  forEach (mBodyNodes s) (fun it =>
    callBody it BodyNode.updateTransform;;
    callBody it BodyNode.updateVelocity;;
    callBody it BodyNode.updatePartialAcceleration;;
    callBody it BodyNode.updateAcceleration);;
  setDirty mIsArticulatedInertiaDirty true;;
  setDirty mIsMassMatrixDirty true;;
  setDirty mIsAugMassMatrixDirty true;;
  setDirty mIsInvMassMatrixDirty true;;
  setDirty mIsInvAugMassMatrixDirty true;;
  setDirty mIsCoriolisVectorDirty true;;
  setDirty mIsGravityForceVectorDirty true;;
  setDirty mIsCombinedVectorDirty true;;
  setDirty mIsExternalForceVectorDirty true;;
  forEach (mBodyNodes s) (fun it =>
    onObjects (fun w =>
      set_mIsBodyJacobianDirty (<[it := true]> (mIsBodyJacobianDirty w)) w);;
    onObjects (fun w =>
      set_mIsBodyJacobianTimeDerivDirty
        (<[it := true]> (mIsBodyJacobianTimeDerivDirty w)) w)).

Definition computeInverseDynamicsRecursionB
    (_withExternalForces _withDampingForces : bool) : Op unit :=
  s ← get;
  (* Skip immobile or 0-dof skeleton *)
  if getDof (objects s) =? 0 then mret tt else
  (* Backward recursion *)
  forEach (reverse (mBodyNodes s)) (fun it =>
    callBody it (BodyNode.updateBodyForce (mGravity s) _withExternalForces);;
    callBody it (BodyNode.updateGeneralizedForce _withDampingForces)).

Definition computeInverseDynamics
    (_withExternalForces _withDampingForces : bool) : Op unit :=
  computeInverseDynamicsRecursionA;;
  computeInverseDynamicsRecursionB _withExternalForces _withDampingForces.

Definition clearExternalForces : Op unit :=
  s ← get;
  forEach (mBodyNodes s) (fun it => callBody it BodyNode.clearExternalForces).

Definition clearConstraintImpulses : Op unit :=
  s ← get;
  forEach (mBodyNodes s) (fun it => callBody it BodyNode.clearConstraintImpulse).

Definition clearInternalForces : Op unit :=
  s ← get;
  onObjects (setGenForces (VectorXd_Zero (getDof (objects s)))).

Definition setInternalForceVector (_forces : VectorXd Scalar) : Op unit :=
  onObjects (setGenForces _forces).

Definition setConstraintForceVector (_Fc : VectorXd Scalar) : Op unit :=
  setVector mFc _Fc.

(** *** Impulse-based dynamics *)

(** [while (it != NULL) { it->updateBiasImpulse(); it = it->getParentBodyNode(); }]
    The loop follows parent pointers; [fuel] bounds the number of
    iterations the model is willing to run. *)
Fixpoint walkToRoot (fuel : nat) (it : option BodyId) : Op unit :=
  match it with
  | None => mret tt
  | Some b =>
      match fuel with
      | 0 => fail OutOfFuel
      | S fuel' =>
          callBody b BodyNode.updateBiasImpulse;;
          walkToRoot fuel' (getParentBodyNode st b)
      end
  end.

(** The assertions shared by the three overloads (the last one is compiled
    under [#ifndef NDEBUG], like [assert] itself). *)
Definition allConstraintImpulsesZero (s : Skel) : bool :=
  bool_decide (Forall (fun b => mConstraintImpulse (objects s) b = Vector6d_Zero)
                      (mBodyNodes s)).

Definition updateBiasImpulse (fuel : nat) (_bodyNode : BodyId) : Op unit :=
  s ← get;
  assert (0 <? getDof (objects s));;
  assert (bool_decide (_bodyNode ∈ mBodyNodes s));;
  assert (allConstraintImpulsesZero s);;
  (* Prepare cache data *)
  walkToRoot fuel (Some _bodyNode).

Definition updateBiasImpulse_body (fuel : nat) (_bodyNode : BodyId)
    (_imp : Vector6d Scalar) : Op unit :=
  s ← get;
  assert (0 <? getDof (objects s));;
  assert (bool_decide (_bodyNode ∈ mBodyNodes s));;
  assert (allConstraintImpulsesZero s);;
  (* Set impulse to _bodyNode *)
  onObjects (fun w =>
    set_mConstraintImpulse (<[_bodyNode := _imp]> (mConstraintImpulse w)) w);;
  (* Prepare cache data *)
  walkToRoot fuel (Some _bodyNode);;
  onObjects (fun w =>
    set_mConstraintImpulse
      (<[_bodyNode := Vector6d_Zero]> (mConstraintImpulse w)) w).

(** Modelled from the spec: PointMass::getConstraintImpulses,
    setConstraintImpulses and setConstraintImpulse (PointMass.cpp is not
    part of this translation unit) read and write the point mass's 3D
    constraint impulse, "pm.constraintImpulses"; the second argument [true]
    of setConstraintImpulse says that the impulse is given in the local
    frame, so that it is stored as it is. *)
Definition pm_getConstraintImpulses (w : Wrld) (p : PointMassId) : Vector3d Scalar :=
  mConstraintImpulses w p.
Definition pm_setConstraintImpulses (p : PointMassId) (imp : Vector3d Scalar)
    (w : Wrld) : Wrld :=
  set_mConstraintImpulses (<[p := imp]> (mConstraintImpulses w)) w.
Definition pm_setConstraintImpulse (p : PointMassId) (imp : Vector3d Scalar)
    (isLocal : bool) (w : Wrld) : Wrld :=
  pm_setConstraintImpulses p imp w.

Definition updateBiasImpulse_pointMass (fuel : nat) (_softBodyNode : BodyId)
    (_pointMass : PointMassId) (_imp : Vector3d Scalar) : Op unit :=
  s ← get;
  assert (0 <? getDof (objects s));;
  assert (bool_decide (_softBodyNode ∈ mSoftBodyNodes s));;
  assert (allConstraintImpulsesZero s);;
  (* Set impulse to _bodyNode *)
  let oldConstraintImpulse := pm_getConstraintImpulses (objects s) _pointMass in
  onObjects (pm_setConstraintImpulse _pointMass _imp true);;
  (* Prepare cache data *)
  walkToRoot fuel (Some _softBodyNode);;
  onObjects (pm_setConstraintImpulses _pointMass oldConstraintImpulse).

Definition updateVelocityChange : Op unit :=
  s ← get;
  forEach (mBodyNodes s) (fun it =>
    callBody it BodyNode.updateJointVelocityChange).

Definition computeImpulseForwardDynamics : Op unit :=
  s ← get;
  (* Skip immobile or 0-dof skeleton *)
  if negb (isMobile s) || (getDof (objects s) =? 0) then mret tt else
  (* Backward recursion *)
  (if dirty s mIsArticulatedInertiaDirty
   then forEach (reverse (mBodyNodes s)) (fun it =>
          callBody it (BodyNode.updateArtInertia (mTimeStep s));;
          callBody it BodyNode.updateBiasImpulse);;
        setDirty mIsArticulatedInertiaDirty false
   else forEach (reverse (mBodyNodes s)) (fun it =>
          callBody it BodyNode.updateBiasImpulse));;
  (* Forward recursion *)
  forEach (mBodyNodes s) (fun it =>
    callBody it BodyNode.updateJointVelocityChange;;
    callBody it BodyNode.updateBodyImpForceFwdDyn);;
  forEach (mBodyNodes s) (fun it =>
    callBody it (BodyNode.updateConstrainedJointAndBodyAcceleration (mTimeStep s));;
    callBody it (BodyNode.updateConstrainedTransmittedForce (mTimeStep s))).

(** *** Initialization *)

(** The breadth-first loop of [init]:
    [while (!queue.empty()) { pop the front; push it on mBodyNodes; push
    its children on the queue }].  [fuel] bounds the iterations. *)
Fixpoint bfsLoop (fuel : nat) (queue : list BodyId) : Op unit :=
  match queue with
  | [] => mret tt
  | itBodyNode :: queue' =>
      match fuel with
      | 0 => fail OutOfFuel
      | S fuel' =>
          modify (fun s => with_mBodyNodes (mBodyNodes s ++ [itBodyNode]) s);;
          bfsLoop fuel' (queue' ++ getChildBodyNodes st itBodyNode)
      end
  end.

Definition init (fuel : nat) (_timeStep : Scalar)
    (_gravity : Vector3d Scalar) : Op unit :=
  (* Set timestep and gravity *)
  setTimeStep _timeStep;;
  setGravity _gravity;;
  (* Rearrange the list of body nodes with BFS *)
  s ← get;
  match mBodyNodes s with
  | [] => fail OutOfRange
  | root :: _ =>
      modify (with_mBodyNodes []);;
      bfsLoop fuel [root]
  end;;
  (* Initialize body nodes and generalized coordinates *)
  onObjects (set_mGenCoords []);;
  s ← get;
  forEach (imap pair (mBodyNodes s)) (fun ib =>
    callBody ib.2 (BodyNode.init ib.1));;
  (* Compute transformations, velocities, and partial accelerations *)
  computeForwardDynamicsRecursionPartA;;
  (* Set dimension of dynamics quantities *)
  s ← get;
  let dof := getDof (objects s) in
  setMatrix mM (MatrixXd_Zero dof dof);;
  setMatrix mAugM (MatrixXd_Zero dof dof);;
  setMatrix mInvM (MatrixXd_Zero dof dof);;
  setMatrix mInvAugM (MatrixXd_Zero dof dof);;
  setVector mCvec (VectorXd_Zero dof);;
  setVector mG (VectorXd_Zero dof);;
  setVector mCg (VectorXd_Zero dof);;
  setVector mFext (VectorXd_Zero dof);;
  setVector mFc (VectorXd_Zero dof);;
  setVector mFd (VectorXd_Zero dof);;
  (* Clear external/internal force *)
  clearExternalForces;;
  clearInternalForces;;
  (* Calculate mass *)
  modify (with_mTotalMass Szero);;
  s ← get;
  forEach (mBodyNodes s) (fun b =>
    modify (fun s => with_mTotalMass (Sadd (mTotalMass s) (getMass st b)) s)).

Definition addBodyNode (_body : BodyId) (isSoft : bool) : Op unit :=
  modify (fun s => with_mBodyNodes (mBodyNodes s ++ [_body]) s);;
  if isSoft
  then modify (fun s => with_mSoftBodyNodes (mSoftBodyNodes s ++ [_body]) s)
  else mret tt.

(** ** Vocabulary of the specifications *)

(** Total correctness: from every state satisfying [P], the run ends
    normally in a state satisfying [Q]. *)
Definition hoare {A} (P : Skel -> Prop) (m : Op A)
    (Q : A -> Skel -> Prop) : Prop :=
  forall s, P s -> exists a s', m s = Ok a s' /\ Q a s'.

(** The weakest precondition of [m] for [Q]: the form in which runs are
    stepped through. *)
Definition wp {A} (m : Op A) (Q : A -> Skel -> Prop) (s : Skel) : Prop :=
  match m s with
  | Ok a s' => Q a s'
  | Fail _ => False
  end.

(** *** Matrices *)

Definition transpose (m : MatrixXd Scalar) : MatrixXd Scalar :=
  mkMat (cols m) (rows m) (fun i j => coeff m j i).

(** Equality of dense matrices: same shape, same coefficients. *)
Definition matEq (a b : MatrixXd Scalar) : Prop :=
  rows a = rows b /\ cols a = cols b /\
  forall i j, i < rows a -> j < cols a -> coeff a i j = coeff b i j.

(** The member functions that fill a matrix write coefficients of the
    matrix they are handed; they do not resize it. *)
Definition keepsDimensions : Prop :=
  forall b c w m,
    rows (onBodyMat ct b c w m).2 = rows m /\
    cols (onBodyMat ct b c w m).2 = cols m.

(** *** The loops of the mass matrices without their early exit *)

Definition aggregateBackward_allBodies (k : MatrixMember)
    (c : BodyNode.MatCall Scalar) (bodies : list BodyId) : Op unit :=
  forEach (reverse bodies) (fun b => callBodyMat k b c).

Definition aggregateForward_allBodies (k : MatrixMember)
    (c : BodyNode.MatCall Scalar) (bodies : list BodyId) : Op unit :=
  forEach bodies (fun b => callBodyMat k b c).

(** [c], called on body [b], writes column [col] only, and there only the
    rows that [rowsOf] gives to [b]. *)
Definition writesOnlyRowsOf (rowsOf : BodyId -> nat -> Prop)
    (c : BodyNode.MatCall Scalar) (col : nat) : Prop :=
  forall b w m i j,
    (j <> col \/ ~ rowsOf b i) ->
    coeff (onBodyMat ct b c w m).2 i j = coeff m i j.

(** The rows of the coordinates of the parent joint of [b]. *)
Definition jointRows (b : BodyId) (i : nat) : Prop :=
  jointIndexInSkeleton st b <= i < jointIndexInSkeleton st b + jointDof st b.

(** Index ranges are monotone along the body list: a body earlier in the
    list owns smaller rows than a body later in the list. *)
Definition rowsBefore (rowsOf : BodyId -> nat -> Prop) (b b' : BodyId) : Prop :=
  forall i i', rowsOf b i -> rowsOf b' i' -> i < i'.
Definition rowsMonotone (rowsOf : BodyId -> nat -> Prop)
    (bodies : list BodyId) : Prop :=
  StronglySorted (rowsBefore rowsOf) bodies.

(** *** Body trees *)

(** A finite tree of bodies, as a term. *)
Inductive BodyTree := TreeNode (b : BodyId) (subtrees : list BodyTree).

Definition treeRoot (t : BodyTree) : BodyId :=
  match t with TreeNode b _ => b end.

Fixpoint treeNodes (t : BodyTree) : list BodyId :=
  match t with TreeNode b ts => b :: concat (treeNodes <$> ts) end.

Fixpoint treeSize (t : BodyTree) : nat :=
  match t with TreeNode b ts => S (sum_list (treeSize <$> ts)) end.

(** The child and parent pointers of the bodies are those of the tree [t]:
    the children of a node are, in their stored order, the roots of its
    subtrees, and each of them points back to the node as its parent. *)
Fixpoint linked (t : BodyTree) : Prop :=
  match t with
  | TreeNode b ts =>
      getChildBodyNodes st b = treeRoot <$> ts /\
      (fix all (ts : list BodyTree) : Prop :=
         match ts with
         | [] => True
         | t' :: ts' =>
             (getParentBodyNode st (treeRoot t') = Some b /\ linked t') /\ all ts'
         end) ts
  end.

(** The bodies of the skeleton form the tree [t], whose root is the first
    element of mBodyNodes. *)
Definition formsTree (s : Skel) (t : BodyTree) : Prop :=
  linked t /\
  getParentBodyNode st (treeRoot t) = None /\
  NoDup (treeNodes t) /\
  mBodyNodes s ≡ₚ treeNodes t /\
  head (mBodyNodes s) = Some (treeRoot t).

(** Every parent precedes its children in [l]. *)
Definition parentsFirst (l : list BodyId) : Prop :=
  forall i b, 0 < i -> l !! i = Some b ->
    exists p k, getParentBodyNode st b = Some p /\ k < i /\ l !! k = Some p.

(** Following parent pointers from [it] reaches the null pointer; [l]
    lists the bodies met on the way, [it] first and the root last. *)
Inductive chainToRoot : option BodyId -> list BodyId -> Prop :=
| chainToRoot_null : chainToRoot None []
| chainToRoot_parent b l :
    chainToRoot (getParentBodyNode st b) l -> chainToRoot (Some b) (b :: l).

(** *** Contracts of the per-body updates *)

(** Preparing and aggregating a column of the mass matrix reads the
    generalized coordinates and does not write them. *)
Definition massMatrixCallsKeepGenCoords : Prop :=
  (forall b w, mGenCoords (onBody ct b BodyNode.updateMassMatrix w) = mGenCoords w) /\
  (forall b j w m,
     mGenCoords (onBodyMat ct b (BodyNode.aggregateMassMatrix j) w m).1
     = mGenCoords w).

(** BodyNode::updateBiasImpulse reads the constraint impulses and does not
    write them. *)
Definition biasImpulseKeepsConstraintImpulses : Prop :=
  forall b w,
    (forall b', mConstraintImpulse (onBody ct b BodyNode.updateBiasImpulse w) b'
                = mConstraintImpulse w b') /\
    (forall p, mConstraintImpulses (onBody ct b BodyNode.updateBiasImpulse w) p
               = mConstraintImpulses w p).

(** *** Dirty flags *)

(** The flags that computeForwardKinematics raises: all of them but the
    one of the damping force vector, whose updater is commented out. *)
Definition kinematicsFlags : list DirtyFlag :=
  [mIsArticulatedInertiaDirty; mIsMassMatrixDirty; mIsAugMassMatrixDirty;
   mIsInvMassMatrixDirty; mIsInvAugMassMatrixDirty; mIsCoriolisVectorDirty;
   mIsGravityForceVectorDirty; mIsCombinedVectorDirty;
   mIsExternalForceVectorDirty].

(** *** The call log *)

Definition isCall (c : BodyNode.Call Scalar) (e : Event Scalar) : Prop :=
  exists b, e = OnBody b c.

(** The bodies on which updateArtInertia was called, with the time step
    passed, in call order. *)
Definition artInertiaCalls (l : list (Event Scalar)) : list (BodyId * Scalar) :=
  omap (fun e => match e with
                 | OnBody b (BodyNode.updateArtInertia dt) => Some (b, dt)
                 | _ => None
                 end) l.

(** Where the generalized positions or velocities have changed between
    [s] and [s'], the flags of the quantities computed from them are set
    in [s']. *)
Definition dirtyWhereStateChanged (s s' : Skel) : Prop :=
  getConfigs (objects s') <> getConfigs (objects s) \/
  getGenVels (objects s') <> getGenVels (objects s) ->
  forall f, f ∈ kinematicsFlags -> dirty s' f = true.

(** [m] neither reads the dirty flags nor writes them, except that it
    leaves them changed by [g]: run from a state whose flags are replaced by
    [d], it does what it does otherwise, and returns with the flags [g d]. *)
Definition tracksDirty {A} (g : (DirtyFlag -> bool) -> DirtyFlag -> bool)
    (m : Op A) : Prop :=
  forall d s,
    m (with_dirty d s)
    = match m s with
      | Ok a s' => Ok a (with_dirty (g d) s')
      | Fail f => Fail f
      end.

(** *** The spring force of a point mass, as the specification writes it

    F_p = -(kv + n ke) p.q - dt (kv + n ke) p.dq
          + sum_j ke (neighbor_j.q + dt neighbor_j.dq) *)
Definition v3sum (l : list (Vector3d Scalar)) : Vector3d Scalar :=
  foldr v3add v3zero l.

Definition springForceSpec (w : Wrld) (dt kv ke : Scalar)
    (p : PointMassId) : Vector3d Scalar :=
  let n := Sof_nat (length (getConnectedPointMasses st p)) in
  let k := Sadd kv (Smul n ke) in
  v3add
    (v3sub (v3scale (Sopp k) (pm_getConfigs st w p))
           (v3scale (Smul dt k) (pm_getGenVels st w p)))
    (v3sum ((fun pj => v3scale ke (v3add (pm_getConfigs st w pj)
                                         (v3scale dt (pm_getGenVels st w pj))))
            <$> getConnectedPointMasses st p)).

(** The assignment of the spring force of the point mass [x.2] of the
    soft body [x.1] to its block of the vector [v]. *)
Definition writeSpringForce (w : Wrld) (dt : Scalar) (v : VectorXd Scalar)
    (x : BodyId * PointMassId) : VectorXd Scalar :=
  setSegment3 v (pmGenCoordIndex st x.2 0)
    (pointMassSpringForce w dt (getVertexSpringStiffness st x.1)
       (getEdgeSpringStiffness st x.1) x.2).

(** BodyNode::aggregateExternalForces writes coefficients of the vector it
    is handed; it does not resize it. *)
Definition aggregateExternalForcesKeepsSize : Prop :=
  forall b w v,
    length (onBodyVec ct b BodyNode.aggregateExternalForces w v).2 = length v.

(** The blocks of two point masses do not overlap. *)
Definition disjointBlocks (p p' : PointMassId) : Prop :=
  pmGenCoordIndex st p 0 + 3 <= pmGenCoordIndex st p' 0 \/
  pmGenCoordIndex st p' 0 + 3 <= pmGenCoordIndex st p 0.

(** All the point masses of the soft bodies of the skeleton, in the order
    in which updateExternalForceVector visits them. *)
Definition softPointMasses (s : Skel) : list (BodyId * PointMassId) :=
  sb ← mSoftBodyNodes s; (pair sb) <$> getPointMasses st sb.

(** The calls of computeForwardKinematics, pass after pass. *)
Definition kinematicsCalls (_updateTransforms _updateVels _updateAccs : bool)
    (bodies : list BodyId) : list (Event Scalar) :=
  (if _updateTransforms
   then (fun b => OnBody b BodyNode.updateTransform) <$> bodies else []) ++
  (if _updateVels
   then b ← bodies; [OnBody b BodyNode.updateVelocity;
                     OnBody b BodyNode.updatePartialAcceleration]
   else []) ++
  (if _updateAccs
   then (fun b => OnBody b BodyNode.updateAcceleration) <$> bodies else []).

(** *** Frames *)

(** [s'] has the members of [s], except possibly for the dirty flags, the
    state of the objects pointed to, and the log. *)
Definition sameMembers (s s' : Skel) : Prop :=
  mTimeStep s' = mTimeStep s /\ mGravity s' = mGravity s /\
  mTotalMass s' = mTotalMass s /\ mIsMobile s' = mIsMobile s /\
  mIsImpulseApplied s' = mIsImpulseApplied s /\
  mBodyNodes s' = mBodyNodes s /\ mSoftBodyNodes s' = mSoftBodyNodes s /\
  matrix s' = matrix s /\ vector s' = vector s.

(** What a pass of calls on the objects changes: the objects and the log. *)
Definition callsOnly (s s' : Skel) (evs : list (Event Scalar)) : Prop :=
  sameMembers s s' /\ dirty s' = dirty s /\ calls s' = calls s ++ evs.

(** [w'] is [w] up to the Jacobian flags of the bodies. *)
Definition sameUpToJacobianFlags (w w' : Wrld) : Prop :=
  mGenCoords w' = mGenCoords w /\
  mConstraintImpulse w' = mConstraintImpulse w /\
  mConstraintImpulses w' = mConstraintImpulses w /\
  internals w' = internals w.

(** The generalized coordinates of [w'] are those of [w] except for their
    accelerations. *)
Definition sameUpToAccelerations (w w' : Wrld) : Prop :=
  (set_ddq Szero <$> mGenCoords w') = (set_ddq Szero <$> mGenCoords w).


(** ** The rest of the interface *)

(** *** Counts

    [int] is a 32-bit two's-complement integer and [size_t] a 64-bit
    unsigned one; both are kept as integers, with the wrap-around of the
    conversions written out. *)
Definition to_int (z : Z) : Z := ((z + 2 ^ 31) `mod` 2 ^ 32 - 2 ^ 31)%Z.
Definition to_size_t (z : Z) : Z := (z `mod` 2 ^ 64)%Z.

(** std::vector::size(). *)
Definition size {X} (v : list X) : Z := to_size_t (Z.of_nat (length v)).

Definition getNumBodyNodes (s : Skel) : Z :=
  to_int (size (mBodyNodes s)).

Definition getNumRigidBodyNodes (s : Skel) : Z :=
  to_int (to_size_t (size (mBodyNodes s) - size (mSoftBodyNodes s))).

Definition getNumSoftBodyNodes (s : Skel) : Z :=
  to_int (size (mSoftBodyNodes s)).

(** *** Lookup by name *)

(** Marker*: object identities. *)
Definition MarkerId := nat.

(** The names that Skeleton.cpp reads through const getters, and the
    markers of the bodies. *)
Record Names := mkNames {
  bodyName : BodyId -> string;
      (* BodyNode::getName() *)
  jointName : BodyId -> string;
      (* getParentJoint()->getName() *)
  getMarkers : BodyId -> list MarkerId;
      (* getNumMarkers(), getMarker(i) *)
  markerName : MarkerId -> string
      (* Marker::getName() *)
}.

Context (nm : Names).

(** A loop whose body may [return] a result from the function; [None] when
    the loop runs to its end. *)
Fixpoint firstResult {X R} (l : list X) (body : X -> option R) : option R :=
  match l with
  | [] => None
  | x :: l' =>
      match body x with
      | Some r => Some r
      | None => firstResult l' body
      end
  end.

(** [!_name.empty()] *)
Definition nonEmpty (_name : string) : bool := negb (String.eqb _name "").

(** getBodyNode(const std::string&); [None] is the NULL it returns when
    the loop ends. *)
Definition getBodyNode_byName (_name : string) : Op (option BodyId) :=
  assert (nonEmpty _name);;
  s ← get;
  mret (firstResult (mBodyNodes s) (fun itrBody =>
          if String.eqb (bodyName nm itrBody) _name
          then Some itrBody else None)).

(** getSoftBodyNode(const std::string&). *)
Definition getSoftBodyNode_byName (_name : string) : Op (option BodyId) :=
  assert (nonEmpty _name);;
  s ← get;
  mret (firstResult (mSoftBodyNodes s) (fun itrSoftBodyNode =>
          if String.eqb (bodyName nm itrSoftBodyNode) _name
          then Some itrSoftBodyNode else None)).

(** getJoint(const std::string&): the joint returned is the parent joint of
    the body given. *)
Definition getJoint_byName (_name : string) : Op (option BodyId) :=
  assert (nonEmpty _name);;
  s ← get;
  mret (firstResult (mBodyNodes s) (fun it =>
          if String.eqb (jointName nm it) _name then Some it else None)).

(** getMarker(const std::string&). *)
Definition getMarker (_name : string) : Op (option MarkerId) :=
  assert (nonEmpty _name);;
  s ← get;
  mret (firstResult (mBodyNodes s) (fun it =>
          firstResult (getMarkers nm it) (fun mk =>
            if String.eqb (markerName nm mk) _name then Some mk else None))).

(** *** Forces *)

Definition getInternalForceVector (s : Skel) : VectorXd Scalar :=
  getGenForces (objects s).

Definition getConstraintForceVector (s : Skel) : VectorXd Scalar :=
  vector s mFc.

(** ** Vocabulary of the specifications, continued *)

(** A member function of BodyNode that reads the generalized coordinates
    and does not write them, nor adds or removes one. *)
Definition callKeepsGenCoords (c : BodyNode.Call Scalar) : Prop :=
  forall b w, mGenCoords (onBody ct b c w) = mGenCoords w.

Definition matCallKeepsGenCoords (c : BodyNode.MatCall Scalar) : Prop :=
  forall b w m, mGenCoords (onBodyMat ct b c w m).1 = mGenCoords w.

(** The per-body updates of forward kinematics. *)
Definition kinematicsUpdates : list (BodyNode.Call Scalar) :=
  [BodyNode.updateTransform; BodyNode.updateVelocity;
   BodyNode.updatePartialAcceleration; BodyNode.updateAcceleration].

(** The generalized coordinates of [w'] are those of [w] except for their
    generalized forces. *)
Definition sameUpToForces (w w' : Wrld) : Prop :=
  (set_tau Szero <$> mGenCoords w') = (set_tau Szero <$> mGenCoords w).

(** The lazily evaluated accessors, each with the flag that guards it. *)
Definition matrixAccessors : list (DirtyFlag * MatrixMember * Op (MatrixXd Scalar)) :=
  [(mIsMassMatrixDirty, mM, getMassMatrix);
   (mIsAugMassMatrixDirty, mAugM, getAugMassMatrix);
   (mIsInvMassMatrixDirty, mInvM, getInvMassMatrix);
   (mIsInvAugMassMatrixDirty, mInvAugM, getInvAugMassMatrix)].

Definition vectorAccessors : list (DirtyFlag * VectorMember * Op (VectorXd Scalar)) :=
  [(mIsCoriolisVectorDirty, mCvec, getCoriolisForceVector);
   (mIsGravityForceVectorDirty, mG, getGravityForceVector);
   (mIsCombinedVectorDirty, mCg, getCombinedVector);
   (mIsExternalForceVectorDirty, mFext, getExternalForceVector)].

(** Every cached member whose flag is clear in [s] is what its accessor
    returns when called on [s'], and the call leaves [s'] as it is. *)
Definition staysCached (s s' : Skel) : Prop :=
  (forall f k acc, (f, k, acc) ∈ matrixAccessors -> dirty s f = false ->
                   acc s' = Ok (matrix s k) s') /\
  (forall f k acc, (f, k, acc) ∈ vectorAccessors -> dirty s f = false ->
                   acc s' = Ok (vector s k) s').

(** The updaters that do not read the dirty flags, each with the flag it
    clears. *)
Definition flagBlindUpdaters : list (DirtyFlag * Op unit) :=
  [(mIsAugMassMatrixDirty, updateAugMassMatrix);
   (mIsInvAugMassMatrixDirty, updateInvAugMassMatrix);
   (mIsCoriolisVectorDirty, updateCoriolisForceVector);
   (mIsGravityForceVectorDirty, updateGravityForceVector);
   (mIsCombinedVectorDirty, updateCombinedVector);
   (mIsExternalForceVectorDirty, updateExternalForceVector)].

(** Both Jacobian flags of the body [b] are set. *)
Definition jacobiansDirty (w : Wrld) (b : BodyId) : Prop :=
  mIsBodyJacobianDirty w b = true /\ mIsBodyJacobianTimeDerivDirty w b = true.

(** What the assembly of the matrix [k] keeps: the shape of [k] (when the
    aggregation does not resize it), the other matrices, the vectors, and
    the generalized coordinates up to the field [set] that receives the
    unit vectors (when the per-body calls do not write them). *)
Definition assemblyKeeps (k : MatrixMember)
    (set : Scalar -> GenCoord Scalar -> GenCoord Scalar)
    (keepCoords : Prop) (s s' : Skel) : Prop :=
  (keepsDimensions ->
   rows (matrix s' k) = rows (matrix s k) /\
   cols (matrix s' k) = cols (matrix s k)) /\
  (keepCoords ->
   (set Szero <$> mGenCoords (objects s'))
   = (set Szero <$> mGenCoords (objects s))) /\
  (forall k', k' <> k -> matrix s' k' = matrix s k') /\
  vector s' = vector s.

(** The order in which the breadth-first loop of [init] appends the
    bodies, as a function of the queue. *)
Fixpoint bfsOrder (fuel : nat) (queue : list BodyId) : option (list BodyId) :=
  match queue with
  | [] => Some []
  | b :: queue' =>
      match fuel with
      | 0 => None
      | S fuel' =>
          (fun l => b :: l) <$> bfsOrder fuel' (queue' ++ getChildBodyNodes st b)
      end
  end.

(** The sum of the masses of the bodies of [l], as the last loop of [init]
    accumulates it. *)
Definition massOf (l : list BodyId) : Scalar :=
  foldl (fun m b => Sadd m (getMass st b)) Szero l.

(** What [init] leaves in the members that are not caches: the order
    [res] of the bodies, the time step and the gravity it was given, and
    the other members as it found them. *)
Definition initBase (ts : Scalar) (g : Vector3d Scalar) (res : list BodyId)
    (s s' : Skel) : Prop :=
  mBodyNodes s' = res /\ mSoftBodyNodes s' = mSoftBodyNodes s /\
  mTimeStep s' = ts /\ mGravity s' = g /\
  mIsMobile s' = mIsMobile s /\ mIsImpulseApplied s' = mIsImpulseApplied s.

(** [r] is the outcome of a linear search of [l] for the name [_name]:
    the first element that has it, or nothing when no element has it. *)
Definition firstNamed {X} (name : X -> string) (_name : string)
    (l : list X) (r : option X) : Prop :=
  match r with
  | Some x =>
      exists i, l !! i = Some x /\ name x = _name /\
                forall k y, k < i -> l !! k = Some y -> name y <> _name
  | None => forall y, y ∈ l -> name y <> _name
  end.

(** The lookups that return a body, each with the names it compares and
    the container it searches. *)
Definition lookupsByName
    : list ((string -> Op (option BodyId)) * (BodyId -> string)
            * (Skel -> list BodyId)) :=
  [(getBodyNode_byName, bodyName nm, mBodyNodes);
   (getSoftBodyNode_byName, bodyName nm, mSoftBodyNodes);
   (getJoint_byName, jointName nm, mBodyNodes)].

(** The calls of integrateConfigs and integrateGenVels: one on the joint
    of each body, then one on each point mass of each soft body. *)
Definition integrationCalls (onJ : Joint.Call Scalar)
    (onP : PointMass.Call Scalar) (s : Skel) : list (Event Scalar) :=
  ((fun b => OnJoint b onJ) <$> mBodyNodes s) ++
  (sb ← mSoftBodyNodes s; (fun pm => OnPointMass pm onP) <$> getPointMasses st sb).

(** The assertions of updateBiasImpulse(BodyNode* ). *)
Definition biasImpulsePreconditions (b : BodyId) (s : Skel) : Prop :=
  0 < getDof (objects s) /\
  b ∈ mBodyNodes s /\
  Forall (fun b' => mConstraintImpulse (objects s) b' = Vector6d_Zero)
         (mBodyNodes s).

(** *** The mass matrices without the early exit *)

(** updateMassMatrix with its backward loop run over all bodies. *)
Definition updateMassMatrix_allBodies : Op unit :=
  s ← get;
  assert (bool_decide (cols (matrix s mM) = getDof (objects s)
                       /\ rows (matrix s mM) = getDof (objects s)));;
  assert (0 <? getDof (objects s));;
  setMatrix mM (setZero (matrix s mM));;
  let originalGenAcceleration := getGenAccs (objects s) in
  let dof := getDof (objects s) in
  forEachWith (seq 0 dof) (VectorXd_Zero dof) (fun e j =>
    let e := <[j := Sone]> e in
    onObjects (GenCoordSystem_setAccelerations e);;
    forEach (mBodyNodes s) (fun it => callBody it BodyNode.updateMassMatrix);;
    aggregateBackward_allBodies mM (BodyNode.aggregateMassMatrix j) (mBodyNodes s);;
    mret (<[j := Szero]> e));;
  s ← get;
  setMatrix mM (assignStrictlyUpperFromTranspose (matrix s mM));;
  setAccelerations originalGenAcceleration false;;
  setDirty mIsMassMatrixDirty false.

(** updateInvMassMatrix with its forward loop run over all bodies. *)
Definition updateInvMassMatrix_allBodies : Op unit :=
  s ← get;
  assert (bool_decide (cols (matrix s mInvM) = getDof (objects s)
                       /\ rows (matrix s mInvM) = getDof (objects s)));;
  assert (0 <? getDof (objects s));;
  let originalInternalForce := getGenForces (objects s) in
  (if dirty s mIsArticulatedInertiaDirty
   then forEach (reverse (mBodyNodes s)) (fun it =>
          callBody it (BodyNode.updateArtInertia (mTimeStep s)));;
        setDirty mIsArticulatedInertiaDirty false
   else mret tt);;
  let dof := getDof (objects s) in
  forEachWith (seq 0 dof) (VectorXd_Zero dof) (fun e j =>
    let e := <[j := Sone]> e in
    onObjects (setGenForces e);;
    forEach (reverse (mBodyNodes s)) (fun it =>
      callBody it BodyNode.updateInvMassMatrix);;
    aggregateForward_allBodies mInvM (BodyNode.aggregateInvMassMatrix j)
      (mBodyNodes s);;
    mret (<[j := Szero]> e));;
  s ← get;
  setMatrix mInvM (assignStrictlyLowerFromTranspose (matrix s mInvM));;
  onObjects (setGenForces originalInternalForce);;
  setDirty mIsInvMassMatrixDirty false.

(** The bodies that a loop with a [break] visits: those up to the first
    one at which the test holds. *)
Fixpoint visited (test : BodyId -> bool) (l : list BodyId) : list BodyId :=
  match l with
  | [] => []
  | b :: l' => if test b then [b] else b :: visited test l'
  end.

(** A pass of calls of [c] on the bodies of [l], on the objects and the
    matrix that the calls are handed. *)
Definition aggregatePass (c : BodyNode.MatCall Scalar) (l : list BodyId)
    (wm : Wrld * MatrixXd Scalar) : Wrld * MatrixXd Scalar :=
  foldl (fun wm b => onBodyMat ct b c wm.1 wm.2) wm l.

Definition preparePass (c : BodyNode.Call Scalar) (l : list BodyId)
    (w : Wrld) : Wrld :=
  foldl (fun w b => onBody ct b c w) w l.

(** One column of an assembly: the vector [e] is stored, the bodies of
    [prepOrder] are prepared, the bodies of [visit] aggregate. *)
Definition assembleColumn (store : VectorXd Scalar -> Wrld -> Wrld)
    (prep : BodyNode.Call Scalar) (prepOrder : list BodyId)
    (c : BodyNode.MatCall Scalar) (visit : list BodyId)
    (e : VectorXd Scalar) (wm : Wrld * MatrixXd Scalar)
    : Wrld * MatrixXd Scalar :=
  aggregatePass c visit (preparePass prep prepOrder (store e wm.1), wm.2).

(** What the aggregation leaves in the bodies is scratch, local to a
    pass.  [sim] relates object stores that differ in that scratch only:
    storing a vector of coordinates and preparing a body respect it, an
    aggregation call changes the objects within it, and the coefficients
    that a pass leaves, when it starts at the head of the aggregation
    order, do not depend on the scratch it finds. *)
Definition scratchLocal (sim : Wrld -> Wrld -> Prop)
    (store : VectorXd Scalar -> Wrld -> Wrld) (prep : BodyNode.Call Scalar)
    (agg : nat -> BodyNode.MatCall Scalar) (order : list BodyId) : Prop :=
  Equivalence sim /\
  (forall e w w', sim w w' -> sim (store e w) (store e w')) /\
  (forall b w w', sim w w' -> sim (onBody ct b prep w) (onBody ct b prep w')) /\
  (forall b j w m, sim (onBodyMat ct b (agg j) w m).1 w) /\
  (forall j l l' w w' m m' i k,
     order = l ++ l' -> sim w w' -> coeff m i k = coeff m' i k ->
     coeff (aggregatePass (agg j) l (w, m)).2 i k
     = coeff (aggregatePass (agg j) l (w', m')).2 i k).

(** Two assemblies in progress agree: the objects up to scratch, and the
    matrices in shape and on the coefficients of the triangle [tri]. *)
Definition agreeOn (sim : Wrld -> Wrld -> Prop) (tri : nat -> nat -> Prop)
    (x y : Wrld * MatrixXd Scalar) : Prop :=
  sim x.1 y.1 /\
  rows x.2 = rows y.2 /\ cols x.2 = cols y.2 /\
  forall i k, tri i k -> coeff x.2 i k = coeff y.2 i k.

End Methods.

(** ** Concrete skeletons

    Exact rational scalars, and member functions simple enough to run:
    they are used to exercise the statements below on actual inputs. *)

#[export] Instance Qc_ScalarOps : ScalarOps Qc := {|
  Szero := 0%Qc;
  Sone := 1%Qc;
  Sadd := Qcplus;
  Ssub := Qcminus;
  Smul := Qcmult;
  Sopp := Qcopp;
  Sof_nat := fun n => Q2Qc (inject_Z (Z.of_nat n));
  Sltb := fun a b => bool_decide (a < b)%Qc
|}.

(** Four bodies, each behind a one-dof joint: body 0 is the root, bodies
    1 and 2 are its children, body 3 is the child of body 1; the
    coordinate of body [b] has index [b]. *)
Definition toyStructure : Structure Qc := {|
  getParentBodyNode := fun b =>
    match b with 1 | 2 => Some 0 | 3 => Some 1 | _ => None end;
  getChildBodyNodes := fun b =>
    match b with 0 => [1; 2] | 1 => [3] | _ => [] end;
  jointDof := fun _ => 1;
  jointIndexInSkeleton := fun b => b;
  getMass := fun _ => 1%Qc;
  getVertexSpringStiffness := fun _ => 0%Qc;
  getEdgeSpringStiffness := fun _ => 0%Qc;
  getPointMasses := fun _ => [];
  getConnectedPointMasses := fun _ => [];
  pmGenCoordIndex := fun _ k => k
|}.

Definition toyTree : BodyTree :=
  TreeNode 0 [TreeNode 1 [TreeNode 3 []]; TreeNode 2 []].

(** The joints integrate explicitly; BodyNode::init registers one
    coordinate; aggregation writes one coefficient, in the row of the
    body; everything else leaves the objects alone. *)
Definition toyColumn (c : BodyNode.MatCall Qc) : nat :=
  match c with
  | BodyNode.aggregateMassMatrix j => j
  | BodyNode.aggregateAugMassMatrix j _ => j
  | BodyNode.aggregateInvMassMatrix j => j
  | BodyNode.aggregateInvAugMassMatrix j _ => j
  end.

Definition toyContract : BodyNodeContract Qc unit := {|
  onBody := fun b c w =>
    match c with
    | BodyNode.init _ =>
        set_mGenCoords (mGenCoords w ++ [mkGenCoord 0%Qc 0%Qc 0%Qc 0%Qc]) w
    | _ => w
    end;
  onBodyMat := fun b c w m =>
    (w, setCoeff m b (toyColumn c) (Sof_nat (1 + 2 * b + toyColumn c)));
  onBodyVec := fun b c w v => (w, v);
  onJoint := fun b c w =>
    match c with
    | Joint.integratePositions dt =>
        set_mGenCoords
          (alter (fun g => set_q (q g + dq g * dt)%Qc g) b (mGenCoords w)) w
    | Joint.integrateVelocities dt =>
        set_mGenCoords
          (alter (fun g => set_dq (dq g + ddq g * dt)%Qc g) b (mGenCoords w)) w
    end;
  onPointMass := fun p c w => w
|}.

Definition toyObjects : World Qc unit := {|
  mGenCoords := [mkGenCoord 1%Qc (Q2Qc 2) (Q2Qc 3) (Q2Qc 4);
                 mkGenCoord (Q2Qc 5) (Q2Qc 6) (Q2Qc 7) (Q2Qc 8);
                 mkGenCoord (Q2Qc 9) (Q2Qc 10) (Q2Qc 11) (Q2Qc 12);
                 mkGenCoord (Q2Qc 13) (Q2Qc 14) (Q2Qc 15) (Q2Qc 16)];
  mConstraintImpulse := fun _ => Vector6d_Zero;
  mConstraintImpulses := fun _ => v3zero;
  mIsBodyJacobianDirty := fun _ => false;
  mIsBodyJacobianTimeDerivDirty := fun _ => false;
  internals := tt
|}.

(** An initialized skeleton over [toyStructure] all of whose caches are
    valid except, where [massDirty] is set, the mass matrix. *)
Definition toySkeleton (massDirty : bool) : Skeleton Qc unit := {|
  mTimeStep := Q2Qc (1 # 1000);
  mGravity := mkV3 0%Qc 0%Qc (Q2Qc (-981 # 100));
  mTotalMass := (Q2Qc 4);
  mIsMobile := true;
  mIsImpulseApplied := false;
  mBodyNodes := [0; 1; 2; 3];
  mSoftBodyNodes := [];
  dirty := fun f => match f with mIsMassMatrixDirty => massDirty | _ => false end;
  matrix := fun _ => MatrixXd_Zero 4 4;
  vector := fun _ => VectorXd_Zero 4;
  objects := toyObjects;
  calls := []
|}.

(** The same bodies as they are before [init], registered root first and
    then in an order in which body 3 comes before its parent. *)
Definition toyUninitialized : Skeleton Qc unit := {|
  mTimeStep := Q2Qc (1 # 1000);
  mGravity := mkV3 0%Qc 0%Qc (Q2Qc (-981 # 100));
  mTotalMass := 0%Qc;
  mIsMobile := true;
  mIsImpulseApplied := false;
  mBodyNodes := [0; 2; 3; 1];
  mSoftBodyNodes := [];
  dirty := fun _ => true;
  matrix := fun _ => MatrixXd_Zero 0 0;
  vector := fun _ => [];
  objects := set_mGenCoords [] toyObjects;
  calls := []
|}.

(** One soft body with a single point mass that has no neighbor; the
    vertex springs have stiffness 10.  The body hangs on a joint without
    coordinates, the point mass owns the coordinates 0, 1 and 2. *)
Definition softStructure : Structure Qc := {|
  getParentBodyNode := fun _ => None;
  getChildBodyNodes := fun _ => [];
  jointDof := fun _ => 0;
  jointIndexInSkeleton := fun _ => 0;
  getMass := fun _ => 1%Qc;
  getVertexSpringStiffness := fun _ => (Q2Qc 10);
  getEdgeSpringStiffness := fun _ => (Q2Qc 7);
  getPointMasses := fun b => match b with 0 => [0] | _ => [] end;
  getConnectedPointMasses := fun _ => [];
  pmGenCoordIndex := fun _ k => k
|}.

(** Time step 0.01, q = (0.1, 0, 0), dq = 0. *)
Definition softSkeleton : Skeleton Qc unit := {|
  mTimeStep := Q2Qc (1 # 100);
  mGravity := mkV3 0%Qc 0%Qc (Q2Qc (-981 # 100));
  mTotalMass := 1%Qc;
  mIsMobile := true;
  mIsImpulseApplied := false;
  mBodyNodes := [0];
  mSoftBodyNodes := [0];
  dirty := fun _ => true;
  matrix := fun _ => MatrixXd_Zero 3 3;
  vector := fun _ => VectorXd_Zero 3;
  objects := set_mGenCoords
               [mkGenCoord (Q2Qc (1 # 10)) 0%Qc 0%Qc 0%Qc;
                mkGenCoord 0%Qc 0%Qc 0%Qc 0%Qc;
                mkGenCoord 0%Qc 0%Qc 0%Qc 0%Qc] toyObjects;
  calls := []
|}.

(** Names for the four bodies: two of them are called "arm".  Body 1
    carries the markers 10 and 11, body 3 the marker 30; the markers 11
    and 30 have the same name. *)
Definition toyNames : Names := {|
  bodyName := fun b =>
    match b with 0 => "root" | 1 | 2 => "arm" | _ => "hand" end;
  jointName := fun b =>
    match b with 0 => "base" | 1 => "shoulder" | 2 => "hip" | _ => "wrist" end;
  getMarkers := fun b => match b with 1 => [10; 11] | 3 => [30] | _ => [] end;
  markerName := fun mk => match mk with 10 => "elbow" | _ => "tip" end
|}.

(** * Verification *)

(** ** In-place mirroring of a triangle *)

Section Mirror.
Context {Scalar : Type} `{ScalarOps Scalar}.

Lemma setCoeff_rows (m : MatrixXd Scalar) i j x : rows (setCoeff m i j x) = rows m.
Proof. reflexivity. Qed.

Lemma setCoeff_cols (m : MatrixXd Scalar) i j x : cols (setCoeff m i j x) = cols m.
Proof. reflexivity. Qed.

(** One column of the assignment: the coefficients above the diagonal
    receive the coefficients of row [j], which the column loop has not
    written. *)
Lemma mirror_column (m : MatrixXd Scalar) (j k : nat) :
  k <= j ->
  let m' := foldl (fun m i => setCoeff m i j (coeff m j i)) m (seq 0 k) in
  rows m' = rows m /\ cols m' = cols m /\
  forall a b, coeff m' a b
              = if decide (b = j /\ a < k) then coeff m j a else coeff m a b.
Proof.
  induction k as [|k IH]; intros Hk; cbn zeta.
  - cbn. repeat split. intros a b. case_decide; [lia | done].
  - rewrite seq_S, foldl_app. cbn [foldl]. cbn zeta in IH.
    destruct IH as (Hr & Hc & Hco); [lia|].
    rewrite setCoeff_rows, setCoeff_cols. repeat split; [done..|].
    intros a b. unfold setCoeff at 1. cbn [coeff].
    rewrite !Hco. repeat case_decide; try lia; try done.
    destruct_and!. by subst.
Qed.

Lemma mirror_columns (m : MatrixXd Scalar) (n : nat) :
  let m' := foldl (fun m j =>
                     foldl (fun m i => setCoeff m i j (coeff m j i)) m
                           (seq 0 (Nat.min j (rows m))))
                  m (seq 0 n) in
  rows m' = rows m /\ cols m' = cols m /\
  forall a b, coeff m' a b
              = if decide (a < b /\ b < n /\ a < rows m)
                then coeff m b a else coeff m a b.
Proof.
  induction n as [|n IH]; cbn zeta.
  - cbn. repeat split. intros a b. case_decide; [lia | done].
  - rewrite seq_S, foldl_app. cbn [foldl]. cbn zeta in IH.
    destruct IH as (Hr & Hc & Hco).
    set (m1 := foldl _ m (seq 0 n)) in *.
    destruct (mirror_column m1 (0 + n) (Nat.min (0 + n) (rows m1)))
      as (Hr' & Hc' & Hco'); [lia|].
    cbn zeta in Hr', Hc', Hco'.
    rewrite Hr', Hc'. repeat split; [done..|].
    intros a b. rewrite Hco', !Hco, Hr. cbn [Nat.add].
    repeat case_decide; try lia; try done.
    all: destruct_and?; subst; try lia; try done.
    all: exfalso; naive_solver lia.
Qed.

Lemma assignStrictlyUpperFromTranspose_spec (m : MatrixXd Scalar) :
  rows (assignStrictlyUpperFromTranspose m) = rows m /\
  cols (assignStrictlyUpperFromTranspose m) = cols m /\
  forall a b, coeff (assignStrictlyUpperFromTranspose m) a b
              = if decide (a < b /\ b < cols m /\ a < rows m)
                then coeff m b a else coeff m a b.
Proof. apply (mirror_columns m (cols m)). Qed.

End Mirror.

(** ** Stepping through runs *)

Section Reasoning.
Context {Scalar : Type} `{ScalarOps Scalar} {Internals : Type}.

Abbreviation Skel := (Skeleton Scalar Internals).

Lemma wp_hoare {A} (P : Skel -> Prop) (m : Op A) (Q : A -> Skel -> Prop) :
  hoare P m Q <-> forall s, P s -> wp m Q s.
Proof.
  unfold hoare, wp. split; intros Hm s Hs; specialize (Hm s Hs).
  - destruct Hm as (a & s' & -> & HQ). done.
  - destruct (m s) as [a s'|]; [eauto | done].
Qed.

Lemma wp_ok {A} (m : Op A) (Q : A -> Skel -> Prop) (s : Skel) :
  wp m Q s <-> exists a s', m s = Ok a s' /\ Q a s'.
Proof.
  unfold wp. destruct (m s) as [a s'|]; split.
  - eauto.
  - by intros (? & ? & [= <- <-] & ?).
  - done.
  - by intros (? & ? & ? & ?).
Qed.

Lemma wp_run (m : Op unit) (Q : Skel -> Prop) (s : Skel) :
  wp m (fun _ => Q) s -> exists s', m s = Ok tt s' /\ Q s'.
Proof. intros Hm. apply wp_ok in Hm as ([] & s' & ? & ?). eauto. Qed.

Lemma wp_bind {A B} (m : Op A) (k : A -> Op B) (Q : B -> Skel -> Prop) s :
  wp m (fun a s' => wp (k a) Q s') s -> wp (m ≫= k) Q s.
Proof. unfold wp, mbind, Op_bind. by destruct (m s). Qed.

Lemma wp_bind_inv {A B} (m : Op A) (k : A -> Op B) (Q : B -> Skel -> Prop) s :
  wp (m ≫= k) Q s -> wp m (fun a s' => wp (k a) Q s') s.
Proof. unfold wp, mbind, Op_bind. by destruct (m s). Qed.

Lemma wp_mono {A} (m : Op A) (Q Q' : A -> Skel -> Prop) s :
  wp m Q s -> (forall a s', Q a s' -> Q' a s') -> wp m Q' s.
Proof. unfold wp. destruct (m s); [auto | done]. Qed.

Lemma wp_conj {A} (m : Op A) (Q Q' : A -> Skel -> Prop) s :
  wp m Q s -> wp m Q' s -> wp m (fun a s' => Q a s' /\ Q' a s') s.
Proof. unfold wp. by destruct (m s). Qed.

Lemma wp_ret {A} (a : A) (Q : A -> Skel -> Prop) s : Q a s -> wp (mret a) Q s.
Proof. done. Qed.

Lemma wp_get (Q : Skel -> Skel -> Prop) s : Q s s -> wp get Q s.
Proof. done. Qed.

Lemma wp_modify (f : Skel -> Skel) (Q : unit -> Skel -> Prop) s :
  Q tt (f s) -> wp (modify f) Q s.
Proof. done. Qed.

Lemma wp_assert (b : bool) (Q : unit -> Skel -> Prop) s :
  b = true -> Q tt s -> wp (assert b) Q s.
Proof. by intros ->. Qed.

Lemma wp_if {A} (b : bool) (m1 m2 : Op A) (Q : A -> Skel -> Prop) s :
  (b = true -> wp m1 Q s) -> (b = false -> wp m2 Q s) ->
  wp (if b then m1 else m2) Q s.
Proof. destruct b; auto. Qed.

(** Loop rules: an invariant that every iteration maintains holds when
    the loop is left. *)
Lemma wp_forEach {X} (l : list X) (body : X -> Op unit) (I : Skel -> Prop) s :
  I s ->
  (forall x s, x ∈ l -> I s -> wp (body x) (fun _ => I) s) ->
  wp (forEach l body) (fun _ => I) s.
Proof.
  revert s. induction l as [|x l IH]; intros s Hs Hbody; cbn [forEach].
  - done.
  - apply wp_bind. eapply wp_mono.
    + apply Hbody; [left | done].
    + intros ? s' Hs'. cbn beta in Hs'. apply IH; [done|]. intros y s'' Hy. apply Hbody. by right.
Qed.

Lemma wp_forEachUntil {X} (l : list X) (body : X -> Op bool)
    (I : Skel -> Prop) s :
  I s ->
  (forall x s, x ∈ l -> I s -> wp (body x) (fun _ => I) s) ->
  wp (forEachUntil l body) (fun _ => I) s.
Proof.
  revert s. induction l as [|x l IH]; intros s Hs Hbody; cbn [forEachUntil].
  - done.
  - apply wp_bind. eapply wp_mono.
    + apply Hbody; [left | done].
    + intros [] s' Hs'; [done|].
      apply IH; [done|]. intros y s'' Hy. apply Hbody. by right.
Qed.

Lemma wp_forEachWith {X L} (l : list X) (local : L) (body : L -> X -> Op L)
    (I : Skel -> Prop) s :
  I s ->
  (forall x loc s, x ∈ l -> I s -> wp (body loc x) (fun _ => I) s) ->
  wp (forEachWith l local body) (fun _ => I) s.
Proof.
  revert local s.
  induction l as [|x l IH]; intros local s Hs Hbody; cbn [forEachWith].
  - done.
  - apply wp_bind. eapply wp_mono.
    + apply Hbody; [left | done].
    + intros loc s' Hs'. apply IH; [done|].
      intros y loc' s'' Hy. apply Hbody. by right.
Qed.

End Reasoning.

(** Steps through a run: binds are split, the plain statements are
    evaluated on the state at hand. *)
Ltac wp_step :=
  lazymatch goal with
  | |- wp (mbind _ _) _ _ => apply wp_bind
  | |- wp (mret _) _ _ => apply wp_ret
  | |- wp get _ _ => apply wp_get
  | |- wp (modify _) _ _ => apply wp_modify
  | |- wp (setDirty _ _) _ _ => apply wp_modify
  | |- wp (setMatrix _ _) _ _ => apply wp_modify
  | |- wp (setVector _ _) _ _ => apply wp_modify
  | |- wp (onObjects _) _ _ => apply wp_modify
  | |- wp (callBody _ _ _) _ _ => apply wp_modify
  | |- wp (callJoint _ _ _) _ _ => apply wp_modify
  | |- wp (callPointMass _ _ _) _ _ => apply wp_modify
  | |- wp (callBodyMat _ _ _ _) _ _ => apply wp_modify
  | |- wp (callBodyVec _ _ _ _) _ _ => apply wp_modify
  | |- wp (if _ then _ else _) _ _ => apply wp_if; intros ?
  end.
Ltac wp_steps := repeat wp_step.

(** ** Forward kinematics *)

(** Closes frame conditions between two states. *)
Ltac frame :=
  unfold callsOnly, sameMembers, sameUpToJacobianFlags in *;
  destruct_and?; cbn in *; repeat split; try done; try congruence.

Section Kinematics.
Context {Scalar : Type} `{ScalarOps Scalar} {Internals : Type}.
Context (ct : BodyNodeContract Scalar Internals).

Abbreviation Skel := (Skeleton Scalar Internals).

Lemma wp_forEach_acc_gen {X} (l0 l : list X) (body : X -> Op unit)
    (I : list X -> Skel -> Prop) (done : list X) (s : Skel) :
  l ⊆ l0 ->
  I done s ->
  (forall done x s, x ∈ l0 -> I done s -> wp (body x) (fun _ => I (done ++ [x])) s) ->
  wp (forEach l body) (fun _ => I (done ++ l)) s.
Proof.
  intros Hsub Hs Hbody. revert done s Hs.
  induction l as [|x l IH]; intros done s Hs; cbn [forEach].
  - by rewrite app_nil_r.
  - apply wp_bind. eapply wp_mono.
    + apply Hbody; [|done]. apply Hsub. by left.
    + intros ? s' Hs'. cbn beta in Hs'.
      rewrite (assoc_L _ done [x] l : done ++ x :: l = (done ++ [x]) ++ l).
      apply IH; [|done]. intros y Hy. apply Hsub. by right.
Qed.

Lemma wp_forEach_acc {X} (l : list X) (body : X -> Op unit)
    (I : list X -> Skel -> Prop) (s : Skel) :
  I [] s ->
  (forall done x s, x ∈ l -> I done s -> wp (body x) (fun _ => I (done ++ [x])) s) ->
  wp (forEach l body) (fun _ => I l) s.
Proof. intros. by apply (wp_forEach_acc_gen l l body I []). Qed.

Lemma sameMembers_refl (s : Skel) : sameMembers s s.
Proof. by repeat split. Qed.

Lemma sameMembers_trans (s1 s2 s3 : Skel) :
  sameMembers s1 s2 -> sameMembers s2 s3 -> sameMembers s1 s3.
Proof. unfold sameMembers. intros. destruct_and!. repeat split; congruence. Qed.

Lemma callsOnly_refl (s : Skel) : callsOnly s s [].
Proof. split; [apply sameMembers_refl|]. by rewrite app_nil_r. Qed.

Lemma callsOnly_trans (s1 s2 s3 : Skel) e1 e2 :
  callsOnly s1 s2 e1 -> callsOnly s2 s3 e2 -> callsOnly s1 s3 (e1 ++ e2).
Proof.
  intros (Hm1 & Hd1 & Hc1) (Hm2 & Hd2 & Hc2). split; [|split].
  - exact (sameMembers_trans _ _ _ Hm1 Hm2).
  - congruence.
  - by rewrite Hc2, Hc1, <- (assoc_L (++)).
Qed.

(** A pass that makes the calls [cs b] on every body [b]. *)
Lemma wp_bodyPass (cs : BodyId -> list (BodyNode.Call Scalar))
    (body : BodyId -> Op unit) (l : list BodyId) (s : Skel) :
  (forall b s, wp (body b)
                  (fun _ s' => callsOnly s s' (OnBody b <$> cs b)) s) ->
  wp (forEach l body)
     (fun _ s' => callsOnly s s' (b ← l; OnBody b <$> cs b)) s.
Proof.
  intros Hbody.
  apply (wp_forEach_acc l body
           (fun done s' => callsOnly s s' (b ← done; OnBody b <$> cs b))).
  - apply callsOnly_refl.
  - intros done x s1 _ H1. eapply wp_mono; [apply Hbody|].
    intros ? s2 H2. cbn beta in *.
    rewrite bind_app. cbn. rewrite app_nil_r. exact (callsOnly_trans _ _ _ _ _ H1 H2).
Qed.

Lemma wp_callBody1 (b : BodyId) (c : BodyNode.Call Scalar) (s : Skel) :
  wp (callBody ct b c) (fun _ s' => callsOnly s s' (OnBody b <$> [c])) s.
Proof. apply wp_modify. by repeat split. Qed.

Lemma wp_callBody2 (b : BodyId) (c1 c2 : BodyNode.Call Scalar) (s : Skel) :
  wp (callBody ct b c1;; callBody ct b c2)
     (fun _ s' => callsOnly s s' (OnBody b <$> [c1; c2])) s.
Proof.
  wp_steps. repeat split. cbn. by rewrite <- (assoc_L (++)).
Qed.

Lemma dirty_raised (d : DirtyFlag -> bool) (f : DirtyFlag) :
  (<[mIsExternalForceVectorDirty := true]>
   (<[mIsCombinedVectorDirty := true]>
    (<[mIsGravityForceVectorDirty := true]>
     (<[mIsCoriolisVectorDirty := true]>
      (<[mIsInvAugMassMatrixDirty := true]>
       (<[mIsInvMassMatrixDirty := true]>
        (<[mIsAugMassMatrixDirty := true]>
         (<[mIsMassMatrixDirty := true]>
          (<[mIsArticulatedInertiaDirty := true]> d))))))))) f
  = if bool_decide (f ∈ kinematicsFlags) then true else d f.
Proof. by destruct f. Qed.

(** The state after the flags are raised and the Jacobian flags of the
    bodies are set. *)
Lemma wp_jacobianFlags (l : list BodyId) (s : Skel) :
  wp (forEach l (fun it =>
        onObjects (fun w =>
          set_mIsBodyJacobianDirty (<[it := true]> (mIsBodyJacobianDirty w)) w);;
        onObjects (fun w =>
          set_mIsBodyJacobianTimeDerivDirty
            (<[it := true]> (mIsBodyJacobianTimeDerivDirty w)) w)))
     (fun _ s' => callsOnly s s' [] /\
                  sameUpToJacobianFlags (objects s) (objects s')) s.
Proof.
  apply wp_forEach.
  - frame. by rewrite app_nil_r.
  - intros it s1 _ (H1 & H2). wp_steps. frame.
Qed.

Lemma bind_singleton_calls (c : BodyNode.Call Scalar) (l : list BodyId) :
  (b ← l; OnBody b <$> [c]) = (fun b => OnBody b c) <$> l.
Proof. induction l as [|b l IH]; [done|]. cbn. by rewrite <- IH. Qed.

Lemma wp_optionalPass (cond : bool) (cs : BodyId -> list (BodyNode.Call Scalar))
    (body : BodyId -> Op unit) (l : list BodyId) (s : Skel) :
  (forall b s, wp (body b)
                  (fun _ s' => callsOnly s s' (OnBody b <$> cs b)) s) ->
  wp (if cond then forEach l body else mret tt)
     (fun _ s' =>
        callsOnly s s' (if cond then b ← l; OnBody b <$> cs b else []) /\
        (cond = false -> s' = s)) s.
Proof.
  intros Hbody. destruct cond.
  - eapply wp_mono; [by apply wp_bodyPass|]. by intros ? s' ?.
  - apply wp_ret. split; [apply callsOnly_refl | done].
Qed.

Lemma computeForwardKinematics_spec (uT uV uA : bool) (s : Skel) :
  wp (computeForwardKinematics ct uT uV uA)
     (fun _ s' =>
        sameMembers s s' /\
        calls s' = calls s ++ kinematicsCalls uT uV uA (mBodyNodes s) /\
        (forall f, dirty s' f
                   = if bool_decide (f ∈ kinematicsFlags) then true else dirty s f) /\
        (uT = false -> uV = false -> uA = false ->
         sameUpToJacobianFlags (objects s) (objects s'))) s.
Proof.
  unfold computeForwardKinematics. wp_step. wp_step.
  wp_step. eapply wp_mono.
  { apply (wp_optionalPass uT (fun _ => [BodyNode.updateTransform])).
    intros b s0. apply wp_callBody1. }
  intros ? s1 (H1 & E1). cbn beta in *.
  wp_step. eapply wp_mono.
  { apply (wp_optionalPass uV (fun _ => [BodyNode.updateVelocity;
                                         BodyNode.updatePartialAcceleration])).
    intros b s0. apply wp_callBody2. }
  intros ? s2 (H2 & E2). cbn beta in *.
  wp_step. eapply wp_mono.
  { apply (wp_optionalPass uA (fun _ => [BodyNode.updateAcceleration])).
    intros b s0. apply wp_callBody1. }
  intros ? s3 (H3 & E3). cbn beta in *.
  pose proof (callsOnly_trans _ _ _ _ _ (callsOnly_trans _ _ _ _ _ H1 H2) H3)
    as H123.
  clear H1 H2 H3. rewrite !bind_singleton_calls in H123.
  do 9 (wp_step; wp_step).
  eapply wp_mono; [apply wp_jacobianFlags|].
  intros ? s4 (H4 & F4). cbn beta in *.
  destruct H123 as (Hm & Hd & Hc). destruct H4 as (Hm4 & Hd4 & Hc4).
  cbn in Hm4, Hd4, Hc4, F4. split; [|split; [|split]].
  - eapply sameMembers_trans; [exact Hm|]. frame.
  - rewrite Hc4, app_nil_r, Hc. f_equal. unfold kinematicsCalls.
    by rewrite <- !(assoc_L (++)).
  - intros f. rewrite Hd4, <- Hd. apply dirty_raised.
  - intros -> -> ->. rewrite E3, E2, E1 in F4 by done. done.
Qed.

End Kinematics.

(** ** State setters and integration *)

Section Setters.
Context {Scalar : Type} `{ScalarOps Scalar} {Internals : Type}.
Context (st : Structure Scalar) (ct : BodyNodeContract Scalar Internals).

Abbreviation Skel := (Skeleton Scalar Internals).

Lemma kinematicsCalls_no_transform (uV uA : bool) (l : list BodyId) :
  Forall (fun e => ~ isCall BodyNode.updateTransform e)
         (kinematicsCalls (Scalar:=Scalar) false uV uA l).
Proof.
  unfold kinematicsCalls. rewrite !Forall_app. split; [done|]. split.
  - destruct uV; [|done]. apply Forall_forall. intros e He.
    apply list_elem_of_bind in He as (b & He & _).
    intros [b' ->].
    repeat (apply elem_of_cons in He as [He|He]; [discriminate|]).
    by apply elem_of_nil in He.
  - destruct uA; [|done]. apply Forall_fmap, Forall_true.
    intros b [b' Hb]. discriminate.
Qed.

Lemma kinematicsCalls_accelerations_only (uA : bool) (l : list BodyId) :
  kinematicsCalls (Scalar:=Scalar) false false uA l
  = if uA then (fun b => OnBody b BodyNode.updateAcceleration) <$> l else [].
Proof. done. Qed.

(** C10. setVelocities never calls updateTransform on a body, whatever
    flags it is given: the calls it makes are those of
    computeForwardKinematics with the transform flag false.
    setAccelerations calls neither updateTransform nor updateVelocity; the
    only flag it honours is the one for accelerations: with it the calls
    are updateAcceleration on every body, without it there is none. *)
Theorem setters_skip_transform_updates
    (v : VectorXd Scalar) (uV uA : bool) (s : Skel) :
  (exists s' new,
     setVelocities ct v uV uA s = Ok tt s' /\
     calls s' = calls s ++ new /\
     new = kinematicsCalls false uV uA (mBodyNodes s) /\
     Forall (fun e => ~ isCall BodyNode.updateTransform e) new) /\
  (exists s' new,
     setAccelerations ct v uA s = Ok tt s' /\
     calls s' = calls s ++ new /\
     new = (if uA then (fun b => OnBody b BodyNode.updateAcceleration)
                         <$> mBodyNodes s else []) /\
     Forall (fun e => ~ isCall BodyNode.updateTransform e /\
                      ~ isCall BodyNode.updateVelocity e) new).
Proof.
  split.
  - assert (wp (setVelocities ct v uV uA)
              (fun _ s' => calls s' = calls s
                           ++ kinematicsCalls false uV uA (mBodyNodes s)) s) as Hwp.
    { unfold setVelocities. wp_step. wp_step.
      eapply wp_mono; [apply computeForwardKinematics_spec|].
      intros ? s' (_ & Hc & _). exact Hc. }
    apply wp_ok in Hwp as ([] & s' & Hrun & Hc).
    exists s', (kinematicsCalls false uV uA (mBodyNodes s)).
    repeat split; [done..|]. apply kinematicsCalls_no_transform.
  - assert (wp (setAccelerations ct v uA)
              (fun _ s' => calls s' = calls s
                           ++ kinematicsCalls false false uA (mBodyNodes s)) s) as Hwp.
    { unfold setAccelerations. wp_step. wp_step.
      eapply wp_mono; [apply computeForwardKinematics_spec|].
      intros ? s' (_ & Hc & _). exact Hc. }
    apply wp_ok in Hwp as ([] & s' & Hrun & Hc).
    rewrite kinematicsCalls_accelerations_only in Hc.
    eexists s', _. repeat split; [done..|].
    destruct uA; [|done]. apply Forall_fmap, Forall_true.
    intros b. split; intros [b' Hb]; discriminate.
Qed.

Lemma wp_callsPass {X} (l : list X) (body : X -> Op unit) (s : Skel) :
  (forall x s, wp (body x) (fun _ s' => sameMembers s s' /\ dirty s' = dirty s) s) ->
  wp (forEach l body) (fun _ s' => sameMembers s s' /\ dirty s' = dirty s) s.
Proof.
  intros Hbody. apply wp_forEach; [frame|].
  intros x s1 _ H1. eapply wp_mono; [apply Hbody|].
  intros ? s2 H2. cbn beta in *. frame.
Qed.

Lemma integrateConfigs_frame (dt : Scalar) (s : Skel) :
  wp (integrateConfigs st ct dt)
     (fun _ s' => sameMembers s s' /\ dirty s' = dirty s) s.
Proof.
  unfold integrateConfigs. wp_step. wp_step. wp_step.
  eapply wp_mono.
  { apply wp_callsPass. intros b s1. wp_step. frame. }
  intros ? s1 H1. cbn beta in *.
  eapply wp_mono.
  { apply wp_callsPass. intros sb s2. apply wp_callsPass.
    intros pm s3. wp_step. frame. }
  intros ? s2 H2. cbn beta in *. frame.
Qed.

Lemma integrateGenVels_frame (dt : Scalar) (s : Skel) :
  wp (integrateGenVels st ct dt)
     (fun _ s' => sameMembers s s' /\ dirty s' = dirty s) s.
Proof.
  unfold integrateGenVels. wp_step. wp_step. wp_step.
  eapply wp_mono.
  { apply wp_callsPass. intros b s1. wp_step. frame. }
  intros ? s1 H1. cbn beta in *.
  eapply wp_mono.
  { apply wp_callsPass. intros sb s2. apply wp_callsPass.
    intros pm s3. wp_step. frame. }
  intros ? s2 H2. cbn beta in *. frame.
Qed.

Lemma kinematics_raise (uT uV uA : bool) (s : Skel) :
  wp (computeForwardKinematics ct uT uV uA)
     (fun _ s' => forall f, f ∈ kinematicsFlags -> dirty s' f = true) s.
Proof.
  eapply wp_mono; [apply computeForwardKinematics_spec|].
  intros ? s' (_ & _ & Hd & _) f Hf. rewrite Hd. by rewrite bool_decide_true.
Qed.

(** C5, as the code has it.  The dirty flags are raised by
    computeForwardKinematics, hence by every setter that ends with it
    (setConfigSegs, setPositions, setVelocities, setAccelerations): when one
    of these returns, the flags of the articulated inertia, of the four mass
    matrices and of the Coriolis, gravity, combined and external-force
    vectors are set.  integrateConfigs and integrateGenVels delegate to the
    joints and the point masses and set no flag: every dirty flag has the
    value it had before the call. *)
Theorem dirty_flags_raised_by_kinematics
    (uT uV uA : bool) (v : VectorXd Scalar) (ids : list nat) (dt : Scalar)
    (s : Skel) :
  (exists s', computeForwardKinematics ct uT uV uA s = Ok tt s' /\
              forall f, f ∈ kinematicsFlags -> dirty s' f = true) /\
  (exists s', setConfigSegs ct ids v uT uV uA s = Ok tt s' /\
              forall f, f ∈ kinematicsFlags -> dirty s' f = true) /\
  (exists s', setPositions ct v uT uV uA s = Ok tt s' /\
              forall f, f ∈ kinematicsFlags -> dirty s' f = true) /\
  (exists s', setVelocities ct v uV uA s = Ok tt s' /\
              forall f, f ∈ kinematicsFlags -> dirty s' f = true) /\
  (exists s', setAccelerations ct v uA s = Ok tt s' /\
              forall f, f ∈ kinematicsFlags -> dirty s' f = true) /\
  (exists s', integrateConfigs st ct dt s = Ok tt s' /\
              forall f, dirty s' f = dirty s f) /\
  (exists s', integrateGenVels st ct dt s = Ok tt s' /\
              forall f, dirty s' f = dirty s f).
Proof.
  repeat split.
  - pose proof (kinematics_raise uT uV uA s) as Hwp.
    apply wp_ok in Hwp as ([] & s' & ? & ?). eauto.
  - assert (wp (setConfigSegs ct ids v uT uV uA)
              (fun _ s' => forall f, f ∈ kinematicsFlags -> dirty s' f = true) s)
      as Hwp.
    { unfold setConfigSegs. wp_step.
      eapply wp_mono; [apply (wp_forEach _ _ (fun _ => True)); [done|]|].
      - intros x s1 _ _. by wp_step.
      - intros ? s1 _. apply kinematics_raise. }
    apply wp_ok in Hwp as ([] & s' & ? & ?). eauto.
  - assert (wp (setPositions ct v uT uV uA)
              (fun _ s' => forall f, f ∈ kinematicsFlags -> dirty s' f = true) s)
      as Hwp.
    { unfold setPositions. wp_step. wp_step. apply kinematics_raise. }
    apply wp_ok in Hwp as ([] & s' & ? & ?). eauto.
  - assert (wp (setVelocities ct v uV uA)
              (fun _ s' => forall f, f ∈ kinematicsFlags -> dirty s' f = true) s)
      as Hwp.
    { unfold setVelocities. wp_step. wp_step. apply kinematics_raise. }
    apply wp_ok in Hwp as ([] & s' & ? & ?). eauto.
  - assert (wp (setAccelerations ct v uA)
              (fun _ s' => forall f, f ∈ kinematicsFlags -> dirty s' f = true) s)
      as Hwp.
    { unfold setAccelerations. wp_step. wp_step. apply kinematics_raise. }
    apply wp_ok in Hwp as ([] & s' & ? & ?). eauto.
  - pose proof (integrateConfigs_frame dt s) as Hwp.
    apply wp_ok in Hwp as ([] & s' & ? & _ & Hd). exists s'. by rewrite Hd.
  - pose proof (integrateGenVels_frame dt s) as Hwp.
    apply wp_ok in Hwp as ([] & s' & ? & _ & Hd). exists s'. by rewrite Hd.
Qed.

End Setters.

(** C5, as the specification states it, fails: on the four-body skeleton
    with all caches valid, integrateConfigs with a step of 1 moves every
    joint position and returns with the mass-matrix flag still clear. *)
Lemma integrateConfigs_leaves_flags_clear :
  ~ hoare (fun s => s = toySkeleton false)
          (integrateConfigs toyStructure toyContract 1%Qc)
          (fun _ s' => dirtyWhereStateChanged (toySkeleton false) s').
Proof.
  intros Hh. destruct (Hh _ eq_refl) as ([] & s' & Hrun & Hd).
  vm_compute in Hrun. injection Hrun as <-.
  assert (false = true) as Hbad; [|done].
  apply (fun Hne => Hd (or_introl Hne) mIsMassMatrixDirty).
  { intros Heq. vm_compute in Heq. discriminate Heq. }
  unfold kinematicsFlags. apply elem_of_cons. right. apply elem_of_cons. by left.
Qed.

(** ** Impulse-based forward dynamics and the inverse mass matrices *)

Section Inertia.
Context {Scalar : Type} `{ScalarOps Scalar} {Internals : Type}.
Context (st : Structure Scalar) (ct : BodyNodeContract Scalar Internals).

Abbreviation Skel := (Skeleton Scalar Internals).

(** C8. On a skeleton that is not mobile, or that has no degree of
    freedom, computeImpulseForwardDynamics returns at once: the state it
    returns is the state it was given, with the same flags (the one of the
    articulated inertia among them), the same objects and the same call
    log, so no per-body update was made. *)
Theorem computeImpulseForwardDynamics_skips (s : Skel) :
  mIsMobile s = false \/ getDof (objects s) = 0 ->
  computeImpulseForwardDynamics ct s = Ok tt s.
Proof.
  intros Hskip. unfold computeImpulseForwardDynamics.
  unfold mbind, Op_bind, get, isMobile.
  destruct Hskip as [-> | ->]; [done|]. by destruct (mIsMobile s).
Qed.

Lemma artInertiaCalls_app (l1 l2 : list (Event Scalar)) :
  artInertiaCalls (l1 ++ l2) = artInertiaCalls l1 ++ artInertiaCalls l2.
Proof. apply omap_app. Qed.

Lemma artInertiaCalls_pass (dt : Scalar) (l : list BodyId) :
  artInertiaCalls (b ← l; OnBody b <$> [BodyNode.updateArtInertia dt])
  = (fun b => (b, dt)) <$> l.
Proof. induction l as [|b l IH]; [done|]. cbn. by rewrite <- IH. Qed.

(** The columns of the inverse mass matrices are assembled without a
    call of updateArtInertia and without a write to the dirty flags. *)
Lemma inverseColumns_no_artInertia (k : MatrixMember)
    (prep : BodyNode.Call Scalar) (agg : nat -> BodyNode.MatCall Scalar)
    (bodies : list BodyId) (cols0 : list nat) (e0 : VectorXd Scalar) (s : Skel) :
  (forall dt, prep <> BodyNode.updateArtInertia dt) ->
  wp (forEachWith cols0 e0 (fun e j =>
        let e := <[j := Sone]> e in
        onObjects (setGenForces e);;
        forEach (reverse bodies) (fun it => callBody ct it prep);;
        aggregateForward st ct k (agg j) bodies j;;
        mret (<[j := Szero]> e)))
     (fun _ s' => artInertiaCalls (calls s') = artInertiaCalls (calls s) /\
                  dirty s' = dirty s) s.
Proof.
  intros Hprep. apply wp_forEachWith; [done|].
  intros j e s1 _ (Hc & Hd). cbn zeta. wp_step. wp_step.
  wp_step. eapply wp_mono.
  { apply (wp_forEach _ _ (fun s' =>
       artInertiaCalls (calls s') = artInertiaCalls (calls s) /\
       dirty s' = dirty s)); [done|].
    intros b s2 _ (Hc2 & Hd2). wp_step.
    cbn [calls dirty with_calls with_objects]. split; [|done].
    rewrite artInertiaCalls_app, Hc2.
    destruct prep; try apply app_nil_r. by destruct (Hprep timeStep). }
  intros ? s2 H2. cbn beta in H2.
  wp_step. eapply wp_mono.
  { unfold aggregateForward.
    apply (wp_forEachUntil _ _ (fun s' =>
       artInertiaCalls (calls s') = artInertiaCalls (calls s) /\
       dirty s' = dirty s)); [done|].
    intros b s3 _ (Hc3 & Hd3). wp_steps.
    cbn [calls dirty with_calls with_objects with_matrix]. split; [|done].
    rewrite artInertiaCalls_app, Hc3. apply app_nil_r. }
  intros ? s3 H3. cbn beta in H3. by wp_step.
Qed.

(** *** Runs that do not depend on the dirty flags *)

Lemma tracks_ret {A} (a : A) : tracksDirty (Scalar:=Scalar) (Internals:=Internals) id (mret a).
Proof. by intros d s. Qed.

Lemma tracks_assert (b : bool) :
  tracksDirty (Scalar:=Scalar) (Internals:=Internals) id (assert b).
Proof. intros d s. by destruct b. Qed.

Lemma tracks_modify (f : Skel -> Skel) :
  (forall d s, f (with_dirty d s) = with_dirty d (f s)) ->
  tracksDirty id (modify f).
Proof. intros Hf d s. unfold modify. by rewrite Hf. Qed.

Lemma tracks_setDirty (f : DirtyFlag) (b : bool) :
  tracksDirty (Scalar:=Scalar) (Internals:=Internals) (<[f := b]>) (setDirty f b).
Proof. by intros d s. Qed.

Lemma tracks_bind {A B} g (m : @Op Scalar Internals A) (k : A -> @Op Scalar Internals B) :
  tracksDirty id m -> (forall a, tracksDirty g (k a)) ->
  tracksDirty g (m ≫= k).
Proof.
  intros Hm Hk d s. unfold mbind, Op_bind. rewrite Hm.
  destruct (m s) as [a s'|]; [apply Hk | done].
Qed.

Lemma tracks_get {A} g (k : Skel -> @Op Scalar Internals A) :
  (forall s0, tracksDirty g (k s0)) ->
  (forall d s, k (with_dirty d s) = k s) ->
  tracksDirty g (get ≫= k).
Proof.
  intros Hk Hs d s. unfold mbind, Op_bind, get. rewrite Hs. apply Hk.
Qed.

Lemma tracks_forEach {X} (l : list X) (body : X -> @Op Scalar Internals unit) :
  (forall x, tracksDirty id (body x)) -> tracksDirty id (forEach l body).
Proof.
  intros Hbody. induction l as [|x l IH]; cbn [forEach].
  - apply tracks_ret.
  - apply tracks_bind; [apply Hbody | by intros _].
Qed.

Lemma tracks_forEachUntil {X} (l : list X) (body : X -> @Op Scalar Internals bool) :
  (forall x, tracksDirty id (body x)) -> tracksDirty id (forEachUntil l body).
Proof.
  intros Hbody. induction l as [|x l IH]; cbn [forEachUntil].
  - apply tracks_ret.
  - apply tracks_bind; [apply Hbody|]. intros []; [apply tracks_ret | done].
Qed.

Lemma tracks_forEachWith {X L} (l : list X) (local : L) (body : L -> X -> @Op Scalar Internals L) :
  (forall loc x, tracksDirty id (body loc x)) ->
  tracksDirty id (forEachWith l local body).
Proof.
  intros Hbody. revert local. induction l as [|x l IH]; intros local;
    cbn [forEachWith].
  - apply tracks_ret.
  - apply tracks_bind; [apply Hbody | done].
Qed.

Lemma updateInvAugMassMatrix_tracks :
  tracksDirty (<[mIsInvAugMassMatrixDirty := false]>)
              (updateInvAugMassMatrix st ct).
Proof.
  unfold updateInvAugMassMatrix. apply tracks_get; [|done].
  intros s0. apply tracks_bind; [apply tracks_assert|]. intros _.
  apply tracks_bind; [apply tracks_assert|]. intros _. cbn zeta.
  apply tracks_bind.
  { apply tracks_forEachWith. intros e j.
    apply tracks_bind; [by apply tracks_modify|]. intros _.
    apply tracks_bind.
    { apply tracks_forEach. intros b. by apply tracks_modify. }
    intros _. apply tracks_bind; [|intros _; apply tracks_ret].
    apply tracks_forEachUntil. intros b.
    apply tracks_bind; [by apply tracks_modify | intros _; apply tracks_ret]. }
  intros _. apply tracks_get; [|done]. intros s1.
  apply tracks_bind; [by apply tracks_modify|]. intros _.
  apply tracks_bind; [by apply tracks_modify|]. intros _.
  apply tracks_setDirty.
Qed.

(** C6. updateInvMassMatrix calls updateArtInertia(mTimeStep) on the
    bodies, last to first, exactly when the articulated-inertia flag is set
    on entry, and returns with that flag clear.  updateInvAugMassMatrix
    makes no call of updateArtInertia and returns with the flag as it found
    it; nor does it read it: run with any other setting of the dirty flags
    it does the same, and the only flag it writes is the one of the inverse
    augmented mass matrix. *)
Theorem artInertia_pass_in_updateInvMassMatrix_only (s : Skel) :
  0 < getDof (objects s) ->
  (cols (matrix s mInvM) = getDof (objects s) /\
   rows (matrix s mInvM) = getDof (objects s) ->
   exists s',
     updateInvMassMatrix st ct s = Ok tt s' /\
     artInertiaCalls (calls s')
     = artInertiaCalls (calls s)
       ++ (if dirty s mIsArticulatedInertiaDirty
           then (fun b => (b, mTimeStep s)) <$> reverse (mBodyNodes s)
           else []) /\
     dirty s' mIsArticulatedInertiaDirty = false) /\
  (cols (matrix s mInvAugM) = getDof (objects s) /\
   rows (matrix s mInvAugM) = getDof (objects s) ->
   exists s',
     updateInvAugMassMatrix st ct s = Ok tt s' /\
     artInertiaCalls (calls s') = artInertiaCalls (calls s) /\
     dirty s' mIsArticulatedInertiaDirty = dirty s mIsArticulatedInertiaDirty) /\
  tracksDirty (<[mIsInvAugMassMatrixDirty := false]>)
              (updateInvAugMassMatrix st ct).
Proof.
  intros Hdof. split; [|split; [|apply updateInvAugMassMatrix_tracks]].
  - intros Hdim. apply wp_run.
    unfold updateInvMassMatrix. wp_step. wp_step.
    wp_step. apply wp_assert; [by apply bool_decide_eq_true_2|].
    wp_step. apply wp_assert; [by apply Nat.ltb_lt|]. cbn zeta.
    wp_step. eapply wp_mono.
    { instantiate (1 := fun _ s1 =>
        artInertiaCalls (calls s1)
        = artInertiaCalls (calls s)
          ++ (if dirty s mIsArticulatedInertiaDirty
              then (fun b => (b, mTimeStep s)) <$> reverse (mBodyNodes s)
              else []) /\
        dirty s1 mIsArticulatedInertiaDirty = false).
      destruct (dirty s mIsArticulatedInertiaDirty) eqn:Hflag.
      - wp_step. eapply wp_mono.
        { apply (wp_bodyPass (fun _ => [BodyNode.updateArtInertia (mTimeStep s)])).
          intros b s0. apply wp_callBody1. }
        intros ? s1 (_ & _ & Hc). cbn beta. wp_step.
        cbn [calls dirty with_dirty]. split; [|done].
        by rewrite Hc, artInertiaCalls_app, artInertiaCalls_pass.
      - wp_step. by rewrite app_nil_r. }
    intros ? s1 (Hc1 & Hd1). cbn beta.
    wp_step. eapply wp_mono.
    { apply inverseColumns_no_artInertia. done. }
    intros ? s2 (Hc2 & Hd2). cbn beta. wp_steps.
    cbn [calls dirty with_dirty with_objects with_matrix].
    split; [congruence|]. rewrite fn_lookup_insert_ne by done. congruence.
  - intros Hdim. apply wp_run.
    unfold updateInvAugMassMatrix. wp_step. wp_step.
    wp_step. apply wp_assert; [by apply bool_decide_eq_true_2|].
    wp_step. apply wp_assert; [by apply Nat.ltb_lt|]. cbn zeta.
    wp_step. eapply wp_mono.
    { apply inverseColumns_no_artInertia. done. }
    intros ? s2 (Hc2 & Hd2). cbn beta. wp_steps.
    cbn [calls dirty with_dirty with_objects with_matrix].
    split; [congruence|]. rewrite fn_lookup_insert_ne by done. congruence.
Qed.

End Inertia.

(** ** Bias impulses *)

Section BiasImpulse.
Context {Scalar : Type} `{ScalarOps Scalar} {Internals : Type}.
Context (st : Structure Scalar) (ct : BodyNodeContract Scalar Internals).

Abbreviation Skel := (Skeleton Scalar Internals).

(** The walk to the root ends when the chain of parents does; it calls
    BodyNode::updateBiasImpulse on the bodies of the chain, in order, and
    nothing else. *)
Lemma walkToRoot_spec (fuel : nat) (chain : list BodyId)
    (it : option BodyId) (s : Skel) :
  chainToRoot st it chain -> length chain <= fuel ->
  wp (walkToRoot st ct fuel it)
     (fun _ s' =>
        callsOnly s s' ((fun b => OnBody b BodyNode.updateBiasImpulse) <$> chain) /\
        (biasImpulseKeepsConstraintImpulses ct ->
         (forall b, mConstraintImpulse (objects s') b
                    = mConstraintImpulse (objects s) b) /\
         (forall p, mConstraintImpulses (objects s') p
                    = mConstraintImpulses (objects s) p))) s.
Proof.
  intros Hchain. revert fuel s.
  induction Hchain as [|b l Hchain IH]; intros fuel s Hfuel.
  - destruct fuel; cbn [walkToRoot]; apply wp_ret;
      (split; [apply callsOnly_refl | done]).
  - destruct fuel as [|fuel]; [cbn in Hfuel; lia|]. cbn [walkToRoot].
    wp_step. wp_step. eapply wp_mono; [apply IH; cbn in Hfuel; lia|].
    intros ? s' (Hc & Hk). cbn beta. split.
    + destruct Hc as (Hm & Hd & Hc). cbn in Hm, Hd, Hc. split; [frame|].
      split; [done|]. rewrite Hc. cbn. by rewrite <- (assoc_L (++)).
    + intros Hct. destruct (Hk Hct) as [Hb Hp]. cbn in Hb, Hp.
      destruct (Hct b (objects s)) as [Hb0 Hp0].
      split; intros x; [rewrite Hb | rewrite Hp]; done.
Qed.

(** C7. With all constraint impulses zero on entry, the body overload of
    updateBiasImpulse calls BodyNode::updateBiasImpulse on the body and on
    its ancestors up to the root, and returns with the impulse of the body
    it was given equal to zero; the point-mass overload makes the same
    calls from its soft body and returns with the impulses of its point
    mass equal to what they were on entry.  As BodyNode::updateBiasImpulse
    does not write constraint impulses, both overloads leave the constraint
    impulse of every body and of every point mass as it was. *)
Theorem updateBiasImpulse_restores_constraint_impulses
    (fuel : nat) (chain : list BodyId) (s : Skel)
    (body : BodyId) (imp6 : Vector6d Scalar)
    (softBody : BodyId) (pm : PointMassId) (imp3 : Vector3d Scalar) :
  0 < getDof (objects s) ->
  Forall (fun b => mConstraintImpulse (objects s) b = Vector6d_Zero)
         (mBodyNodes s) ->
  length chain <= fuel ->
  (body ∈ mBodyNodes s -> chainToRoot st (Some body) chain ->
   exists s',
     updateBiasImpulse_body st ct fuel body imp6 s = Ok tt s' /\
     calls s' = calls s
                ++ ((fun b => OnBody b BodyNode.updateBiasImpulse) <$> chain) /\
     mConstraintImpulse (objects s') body = Vector6d_Zero /\
     (biasImpulseKeepsConstraintImpulses ct ->
      (forall b, mConstraintImpulse (objects s') b
                 = mConstraintImpulse (objects s) b) /\
      (forall p, mConstraintImpulses (objects s') p
                 = mConstraintImpulses (objects s) p))) /\
  (softBody ∈ mSoftBodyNodes s -> chainToRoot st (Some softBody) chain ->
   exists s',
     updateBiasImpulse_pointMass st ct fuel softBody pm imp3 s = Ok tt s' /\
     calls s' = calls s
                ++ ((fun b => OnBody b BodyNode.updateBiasImpulse) <$> chain) /\
     mConstraintImpulses (objects s') pm = mConstraintImpulses (objects s) pm /\
     (biasImpulseKeepsConstraintImpulses ct ->
      (forall b, mConstraintImpulse (objects s') b
                 = mConstraintImpulse (objects s) b) /\
      (forall p, mConstraintImpulses (objects s') p
                 = mConstraintImpulses (objects s) p))).
Proof.
  intros Hdof Hzero Hfuel. split.
  - intros Hin Hchain. apply wp_run.
    unfold updateBiasImpulse_body. wp_step. wp_step.
    wp_step. apply wp_assert; [by apply Nat.ltb_lt|].
    wp_step. apply wp_assert; [by apply bool_decide_eq_true_2|].
    wp_step. apply wp_assert; [by apply bool_decide_eq_true_2|].
    wp_step. wp_step. wp_step.
    eapply wp_mono; [by eapply walkToRoot_spec|].
    intros ? s' ((_ & _ & Hc) & Hk). cbn beta. wp_step.
    cbn [objects calls with_objects mConstraintImpulse mConstraintImpulses
         set_mConstraintImpulse] in *.
    split; [done|]. split; [apply fn_lookup_insert|].
    intros Hct. destruct (Hk Hct) as [Hb Hp]. cbn in Hb, Hp. split; [|done].
    intros b. destruct (decide (b = body)) as [->|Hne].
    + rewrite fn_lookup_insert. symmetry.
      by apply (proj1 (Forall_forall _ _) Hzero).
    + rewrite fn_lookup_insert_ne by done. rewrite Hb.
      by rewrite fn_lookup_insert_ne.
  - intros Hin Hchain. apply wp_run.
    unfold updateBiasImpulse_pointMass. wp_step. wp_step.
    wp_step. apply wp_assert; [by apply Nat.ltb_lt|].
    wp_step. apply wp_assert; [by apply bool_decide_eq_true_2|].
    wp_step. apply wp_assert; [by apply bool_decide_eq_true_2|]. cbn zeta.
    wp_step. wp_step. wp_step.
    eapply wp_mono; [by eapply walkToRoot_spec|].
    intros ? s' ((_ & _ & Hc) & Hk). cbn beta. wp_step.
    unfold pm_setConstraintImpulses, pm_getConstraintImpulses.
    cbn [objects calls with_objects mConstraintImpulse mConstraintImpulses
         set_mConstraintImpulses] in *.
    split; [done|]. split; [apply fn_lookup_insert|].
    intros Hct. destruct (Hk Hct) as [Hb Hp].
    unfold pm_setConstraintImpulse, pm_setConstraintImpulses in Hb, Hp.
    cbn in Hb, Hp. split; [done|].
    intros p. destruct (decide (p = pm)) as [->|Hne].
    + by rewrite fn_lookup_insert.
    + rewrite fn_lookup_insert_ne by done. rewrite Hp.
      by rewrite fn_lookup_insert_ne.
Qed.

End BiasImpulse.

(** ** The mass matrix *)

Section MassMatrix.
Context {Scalar : Type} `{ScalarOps Scalar} {Internals : Type}.
Context (st : Structure Scalar) (ct : BodyNodeContract Scalar Internals).

Abbreviation Skel := (Skeleton Scalar Internals).

Lemma imap_sameUpToAccelerations
    (f : nat -> GenCoord Scalar -> GenCoord Scalar) (gs : list (GenCoord Scalar)) :
  (forall i g, set_ddq Szero (f i g) = set_ddq Szero g) ->
  (set_ddq Szero <$> imap f gs) = (set_ddq Szero <$> gs).
Proof.
  revert f. induction gs as [|g gs IH]; intros f Hf; [done|].
  rewrite imap_cons, !fmap_cons, Hf. f_equal. apply IH. intros i g'. apply Hf.
Qed.

Lemma storeField_ddq_sameUpToAccelerations
    (v : VectorXd Scalar) (gs : list (GenCoord Scalar)) :
  (set_ddq Szero <$> storeField set_ddq v gs) = (set_ddq Szero <$> gs).
Proof.
  apply imap_sameUpToAccelerations. intros i g. by destruct (v !! i).
Qed.

(** Storing back the accelerations read at the start restores the
    coordinates, when nothing else was written to them in between. *)
Lemma storeField_ddq_restore (gs gs' : list (GenCoord Scalar)) :
  (set_ddq Szero <$> gs') = (set_ddq Szero <$> gs) ->
  storeField set_ddq (ddq <$> gs) gs' = gs.
Proof.
  unfold storeField. revert gs.
  induction gs' as [|g' gs' IH]; intros [|g gs] Heq; try done.
  rewrite !fmap_cons in Heq. destruct g, g'.
  injection Heq as Hq Hdq Htau Hgs. cbn in Hq, Hdq, Htau. subst.
  rewrite imap_cons. cbn [lookup list_lookup fmap list_fmap]. f_equal.
  etrans; [|apply (IH gs Hgs)]. by apply imap_ext.
Qed.

(** The column loop of updateMassMatrix writes the mass matrix, the
    accelerations and the caches of the bodies. *)
Lemma massColumns_spec (bodies : list BodyId) (cols0 : list nat)
    (e0 : VectorXd Scalar) (s : Skel) :
  wp (forEachWith cols0 e0 (fun e j =>
        let e := <[j := Sone]> e in
        onObjects (GenCoordSystem_setAccelerations e);;
        forEach bodies (fun it => callBody ct it BodyNode.updateMassMatrix);;
        aggregateBackward st ct mM (BodyNode.aggregateMassMatrix j) bodies j;;
        mret (<[j := Szero]> e)))
     (fun _ s' =>
        dirty s' = dirty s /\
        (keepsDimensions ct ->
         rows (matrix s' mM) = rows (matrix s mM) /\
         cols (matrix s' mM) = cols (matrix s mM)) /\
        (massMatrixCallsKeepGenCoords ct ->
         sameUpToAccelerations (objects s) (objects s'))) s.
Proof.
  set (I := fun s' : Skel =>
        dirty s' = dirty s /\
        (keepsDimensions ct ->
         rows (matrix s' mM) = rows (matrix s mM) /\
         cols (matrix s' mM) = cols (matrix s mM)) /\
        (massMatrixCallsKeepGenCoords ct ->
         sameUpToAccelerations (objects s) (objects s'))).
  apply (wp_forEachWith _ _ _ I); [by repeat split|].
  intros j e s1 _ (Hd & Hdim & Hgc). cbn zeta. wp_step. wp_step.
  wp_step. eapply wp_mono.
  { apply (wp_forEach _ _ I).
    - repeat split; [done|by apply Hdim..|].
      intros Hct. specialize (Hgc Hct). unfold sameUpToAccelerations in *.
      cbn. by rewrite storeField_ddq_sameUpToAccelerations.
    - intros b s2 _ (Hd2 & Hdim2 & Hgc2). wp_step.
      repeat split; [done|by apply Hdim2..|].
      intros Hct. specialize (Hgc2 Hct). unfold sameUpToAccelerations in *.
      cbn. by rewrite (proj1 Hct). }
  intros ? s2 H2. cbn beta in H2.
  wp_step. eapply wp_mono.
  { unfold aggregateBackward. apply (wp_forEachUntil _ _ I); [done|].
    intros b s3 _ (Hd3 & Hdim3 & Hgc3). wp_steps. unfold I. cbn zeta.
    split; [done|]. split.
    - intros Hk. cbn. rewrite fn_lookup_insert.
      destruct (Hk b (BodyNode.aggregateMassMatrix j) (objects s3) (matrix s3 mM))
        as [-> ->].
      by apply Hdim3.
    - intros Hct. specialize (Hgc3 Hct). unfold sameUpToAccelerations in *.
      cbn. by rewrite (proj2 Hct). }
  intros ? s3 H3. cbn beta in H3. by wp_step.
Qed.

Lemma updateMassMatrix_spec (s : Skel) :
  0 < getDof (objects s) ->
  cols (matrix s mM) = getDof (objects s) ->
  rows (matrix s mM) = getDof (objects s) ->
  wp (updateMassMatrix st ct)
     (fun _ s' =>
        (keepsDimensions ct -> matEq (matrix s' mM) (transpose (matrix s' mM))) /\
        (forall f, dirty s' f
                   = if decide (f = mIsMassMatrixDirty) then false
                     else if bool_decide (f ∈ kinematicsFlags) then true
                     else dirty s f) /\
        (massMatrixCallsKeepGenCoords ct ->
         mGenCoords (objects s') = mGenCoords (objects s))) s.
Proof.
  intros Hdof Hcols Hrows.
  unfold updateMassMatrix. wp_step. wp_step.
  wp_step. apply wp_assert; [by apply bool_decide_eq_true_2|].
  wp_step. apply wp_assert; [by apply Nat.ltb_lt|].
  wp_step. wp_step. cbn zeta.
  wp_step. eapply wp_mono; [apply massColumns_spec|].
  intros ? s1 (Hd1 & Hdim1 & Hgc1). cbn beta.
  cbn [dirty matrix objects with_matrix] in Hd1, Hdim1, Hgc1.
  rewrite fn_lookup_insert in Hdim1. cbn [rows cols setZero] in Hdim1.
  wp_step. wp_step. wp_step. wp_step.
  unfold setAccelerations. wp_step. wp_step. wp_step.
  eapply wp_mono; [apply computeForwardKinematics_spec|].
  intros ? s2 (Hm2 & _ & Hd2 & Hw2). cbn beta. wp_step.
  destruct Hm2 as (_ & _ & _ & _ & _ & _ & _ & Hmat2 & _).
  cbn [dirty matrix objects with_matrix with_objects with_dirty] in *.
  split; [|split].
  - intros Hk. destruct (Hdim1 Hk) as [Hr Hc]. rewrite Hmat2, fn_lookup_insert.
    destruct (assignStrictlyUpperFromTranspose_spec (matrix s1 mM))
      as (Hr' & Hc' & Hco).
    unfold matEq, transpose. cbn [rows cols coeff].
    rewrite Hr', Hc', Hr, Hc, Hrows, Hcols. repeat split.
    intros i j Hi Hj. rewrite !Hco, Hr, Hc, Hrows, Hcols.
    repeat case_decide; try done; try lia. by replace j with i by lia.
  - intros f. destruct (decide (f = mIsMassMatrixDirty)) as [->|Hne].
    + apply fn_lookup_insert.
    + rewrite fn_lookup_insert_ne by done. by rewrite Hd2, Hd1.
  - intros Hct. destruct (Hw2 eq_refl eq_refl eq_refl) as (-> & _).
    cbn. by apply storeField_ddq_restore, Hgc1.
Qed.

(** C1. On a skeleton with dof > 0 whose mass matrix has been allocated,
    updateMassMatrix completes and leaves mM equal to its own transpose;
    hence the matrix returned by getMassMatrix is symmetric, whether it was
    recomputed by this call or by an earlier one. *)
Theorem getMassMatrix_symmetric (s : Skel) :
  keepsDimensions ct ->
  0 < getDof (objects s) ->
  cols (matrix s mM) = getDof (objects s) ->
  rows (matrix s mM) = getDof (objects s) ->
  (exists s', updateMassMatrix st ct s = Ok tt s' /\
              matEq (matrix s' mM) (transpose (matrix s' mM))) /\
  ((dirty s mIsMassMatrixDirty = false ->
    matEq (matrix s mM) (transpose (matrix s mM))) ->
   exists m s', getMassMatrix st ct s = Ok m s' /\
                m = matrix s' mM /\ matEq m (transpose m)).
Proof.
  intros Hk Hdof Hcols Hrows.
  pose proof (updateMassMatrix_spec s Hdof Hcols Hrows) as Hupd. split.
  - apply wp_run. eapply wp_mono; [exact Hupd|].
    intros ? s' (Hsym & _). by apply Hsym.
  - intros Hcached. apply wp_ok.
    unfold getMassMatrix. wp_step. wp_step. wp_step.
    destruct (dirty s mIsMassMatrixDirty) eqn:Hflag.
    + eapply wp_mono; [exact Hupd|].
      intros ? s' (Hsym & _). cbn beta. wp_steps. split; [done | by apply Hsym].
    + wp_steps. split; [done | by apply Hcached].
Qed.

(** C2, as the code has it.  When getMassMatrix recomputes the mass
    matrix, the generalized coordinates are the same after the call as
    before it (positions, velocities, forces, and the accelerations, which
    are written back), but the dirty flags are not: the accelerations are
    written back through Skeleton::setAccelerations, which ends with
    computeForwardKinematics, so that every other flag that
    computeForwardKinematics raises is set on return, whatever it was on
    entry. *)
Theorem getMassMatrix_raises_other_dirty_flags (s : Skel) :
  massMatrixCallsKeepGenCoords ct ->
  0 < getDof (objects s) ->
  cols (matrix s mM) = getDof (objects s) ->
  rows (matrix s mM) = getDof (objects s) ->
  dirty s mIsMassMatrixDirty = true ->
  exists m s',
    getMassMatrix st ct s = Ok m s' /\
    mGenCoords (objects s') = mGenCoords (objects s) /\
    dirty s' mIsMassMatrixDirty = false /\
    forall f, f ∈ kinematicsFlags -> f <> mIsMassMatrixDirty ->
              dirty s' f = true.
Proof.
  intros Hct Hdof Hcols Hrows Hflag. apply wp_ok.
  unfold getMassMatrix. wp_step. wp_step. wp_step. rewrite Hflag.
  eapply wp_mono; [by apply updateMassMatrix_spec|].
  intros ? s' (_ & Hd & Hgc). cbn beta. wp_steps.
  split; [by apply Hgc|]. split.
  - rewrite Hd. by rewrite decide_True.
  - intros f Hf Hne. rewrite Hd, decide_False by done.
    by rewrite bool_decide_true.
Qed.

End MassMatrix.

(** ** The triangular early exit *)

Section EarlyExit.
Context {Scalar : Type} `{ScalarOps Scalar} {Internals : Type}.
Context (st : Structure Scalar) (ct : BodyNodeContract Scalar Internals).

Abbreviation Skel := (Skeleton Scalar Internals).

Lemma forEach_app {X} (l1 l2 : list X) (body : X -> Op unit) (s : Skel) :
  forEach (l1 ++ l2) body s
  = match forEach l1 body s with
    | Ok _ s' => forEach l2 body s'
    | Fail f => Fail f
    end.
Proof.
  revert s. induction l1 as [|x l1 IH]; intros s; [done|].
  cbn [app forEach]. unfold mbind, Op_bind.
  destruct (body x s) as [[] s'|]; [apply IH | done].
Qed.

Lemma forEach_cons {X} (x : X) (l : list X) (body : X -> Op unit) (s : Skel) :
  forEach (x :: l) body s
  = match body x s with
    | Ok _ s' => forEach l body s'
    | Fail f => Fail f
    end.
Proof. done. Qed.

Lemma forEachUntil_cons {X} (x : X) (l : list X) (body : X -> Op bool)
    (s : Skel) :
  forEachUntil (x :: l) body s
  = match body x s with
    | Ok stop s' => if stop then Ok tt s' else forEachUntil l body s'
    | Fail f => Fail f
    end.
Proof.
  cbn [forEachUntil]. unfold mbind, Op_bind.
  by destruct (body x s) as [[] s'|].
Qed.

(** A loop that breaks runs the loop body on a prefix of the container;
    if something is left, the test held at the last element visited. *)
Lemma forEachUntil_prefix (k : MatrixMember) (c : BodyNode.MatCall Scalar)
    (test : BodyId -> bool) (l : list BodyId) (s : Skel) :
  exists l1 l2,
    l = l1 ++ l2 /\
    forEachUntil l (fun b => callBodyMat ct k b c;; mret (test b)) s
    = forEach l1 (fun b => callBodyMat ct k b c) s /\
    (l2 <> [] -> exists b, last l1 = Some b /\ test b = true).
Proof.
  revert s. induction l as [|b l IH]; intros s.
  - exists [], []. by repeat split.
  - rewrite forEachUntil_cons.
    destruct (callBodyMat ct k b c s) as [[] s1|] eqn:Hstep; [|done].
    replace ((callBodyMat ct k b c;; mret (test b)) s) with
      (Ok (St:=Skel) (test b) s1)
      by (unfold mbind, Op_bind; by rewrite Hstep).
    destruct (test b) eqn:Htest.
    + exists [b], l. split; [done|]. split; [|eauto].
      by rewrite forEach_cons, Hstep.
    + destruct (IH s1) as (l1 & l2 & -> & Hrun & Hlast).
      exists (b :: l1), l2. split; [done|]. split.
      * by rewrite Hrun, forEach_cons, Hstep.
      * intros Hne. destruct (Hlast Hne) as (b' & Hb' & Ht).
        exists b'. split; [|done]. destruct l1; [done|]. done.
Qed.

(** Calls that write other coefficients leave a coefficient as it is. *)
Lemma aggregate_keeps_coeff (rowsOf : BodyId -> nat -> Prop)
    (k : MatrixMember) (c : BodyNode.MatCall Scalar) (col : nat)
    (l : list BodyId) (i j : nat) (s : Skel) :
  writesOnlyRowsOf ct rowsOf c col ->
  (forall b, b ∈ l -> j <> col \/ ~ rowsOf b i) ->
  wp (forEach l (fun b => callBodyMat ct k b c))
     (fun _ s' => coeff (matrix s' k) i j = coeff (matrix s k) i j) s.
Proof.
  intros Hw Hl. apply wp_forEach; [done|].
  intros b s1 Hb H1. wp_step. cbn. rewrite fn_lookup_insert.
  rewrite Hw by auto. done.
Qed.

Lemma leftOfColumn_true (b : BodyId) (j : nat) :
  leftOfColumn st b j = true ->
  0 < jointDof st b /\ jointIndexInSkeleton st b + jointDof st b < j.
Proof.
  unfold leftOfColumn. destruct (0 <? jointDof st b) eqn:Hd; [|done].
  intros Hlt. apply Nat.ltb_lt in Hd, Hlt. done.
Qed.

Lemma reachesColumn_true (b : BodyId) (j : nat) :
  reachesColumn st b j = true ->
  0 < jointDof st b /\ j < jointIndexInSkeleton st b + jointDof st b.
Proof.
  unfold reachesColumn. destruct (0 <? jointDof st b) eqn:Hd; [|done].
  intros Hlt. apply Nat.ltb_lt in Hd, Hlt. done.
Qed.

(** C4. From any state and for any column j, the backward aggregation of
    updateMassMatrix with its break leaves in the lower triangle of mM
    (row >= column) the coefficients that the same loop leaves when it runs
    over all bodies; and the forward aggregation of updateInvMassMatrix
    with its break leaves in the upper triangle of mInvM (row <= column)
    the coefficients of the loop over all bodies.  This holds when a body
    writes, in the column it is given, only rows of its own, its joint
    coordinates are among its rows, and the rows of the bodies increase
    along mBodyNodes. *)
Theorem early_exit_same_triangle (rowsOf : BodyId -> nat -> Prop)
    (s : Skel) (j : nat) :
  writesOnlyRowsOf ct rowsOf (BodyNode.aggregateMassMatrix j) j ->
  writesOnlyRowsOf ct rowsOf (BodyNode.aggregateInvMassMatrix j) j ->
  (forall b i, jointRows st b i -> rowsOf b i) ->
  rowsMonotone rowsOf (mBodyNodes s) ->
  (exists s1 s2,
     aggregateBackward st ct mM (BodyNode.aggregateMassMatrix j)
       (mBodyNodes s) j s = Ok tt s1 /\
     aggregateBackward_allBodies ct mM (BodyNode.aggregateMassMatrix j)
       (mBodyNodes s) s = Ok tt s2 /\
     forall r c, c <= r -> coeff (matrix s1 mM) r c = coeff (matrix s2 mM) r c) /\
  (exists s1 s2,
     aggregateForward st ct mInvM (BodyNode.aggregateInvMassMatrix j)
       (mBodyNodes s) j s = Ok tt s1 /\
     aggregateForward_allBodies ct mInvM (BodyNode.aggregateInvMassMatrix j)
       (mBodyNodes s) s = Ok tt s2 /\
     forall r c, r <= c -> coeff (matrix s1 mInvM) r c = coeff (matrix s2 mInvM) r c).
Proof.
  intros Hw Hwi Hjoint Hmono. split.
  - unfold aggregateBackward, aggregateBackward_allBodies.
    destruct (forEachUntil_prefix mM (BodyNode.aggregateMassMatrix j)
                (fun b => leftOfColumn st b j) (reverse (mBodyNodes s)) s)
      as (l1 & l2 & Hsplit & -> & Hlast).
    rewrite Hsplit, forEach_app.
    destruct (wp_run (forEach l1 (fun b =>
                callBodyMat ct mM b (BodyNode.aggregateMassMatrix j)))
                (fun _ => True) s) as (s1 & -> & _).
    { apply wp_forEach; [done|]. intros b s0 _ _. by wp_step. }
    assert (forall r c, c <= r ->
              wp (forEach l2 (fun b =>
                    callBodyMat ct mM b (BodyNode.aggregateMassMatrix j)))
                 (fun _ s' => coeff (matrix s' mM) r c = coeff (matrix s1 mM) r c)
                 s1) as Hkeep.
    { intros r c Hrc. apply (aggregate_keeps_coeff rowsOf _ _ j); [done|].
      intros b' Hb'. destruct (decide (c = j)) as [->|]; [right | by left].
      intros Hrow. destruct Hlast as (bk & Hbk & Htest).
      { intros ->. by apply elem_of_nil in Hb'. }
      apply leftOfColumn_true in Htest as [Hdof Hlt].
      assert (mBodyNodes s = reverse l2 ++ reverse l1) as Hbodies.
      { by rewrite <- reverse_app, <- Hsplit, reverse_involutive. }
      unfold rowsMonotone in Hmono. rewrite Hbodies in Hmono.
      assert (r < jointIndexInSkeleton st bk); [|lia].
      eapply (StronglySorted_app_1_elem_of _ _ _ b' bk Hmono);
        [by apply elem_of_reverse | | exact Hrow |].
      - apply elem_of_reverse. apply last_Some in Hbk as [l' ->].
        apply elem_of_app. right. by left.
      - apply Hjoint. unfold jointRows. lia. }
    destruct (wp_run (forEach l2 (fun b =>
                callBodyMat ct mM b (BodyNode.aggregateMassMatrix j)))
                (fun _ => True) s1) as (s2 & Hrun2 & _).
    { apply wp_forEach; [done|]. intros b s0 _ _. by wp_step. }
    exists s1, s2. repeat split; [done|]. intros r c Hrc.
    specialize (Hkeep r c Hrc). unfold wp in Hkeep. rewrite Hrun2 in Hkeep.
    done.
  - unfold aggregateForward, aggregateForward_allBodies.
    destruct (forEachUntil_prefix mInvM (BodyNode.aggregateInvMassMatrix j)
                (fun b => reachesColumn st b j) (mBodyNodes s) s)
      as (l1 & l2 & Hsplit & -> & Hlast).
    rewrite Hsplit, forEach_app.
    destruct (wp_run (forEach l1 (fun b =>
                callBodyMat ct mInvM b (BodyNode.aggregateInvMassMatrix j)))
                (fun _ => True) s) as (s1 & -> & _).
    { apply wp_forEach; [done|]. intros b s0 _ _. by wp_step. }
    assert (forall r c, r <= c ->
              wp (forEach l2 (fun b =>
                    callBodyMat ct mInvM b (BodyNode.aggregateInvMassMatrix j)))
                 (fun _ s' => coeff (matrix s' mInvM) r c
                              = coeff (matrix s1 mInvM) r c)
                 s1) as Hkeep.
    { intros r c Hrc. apply (aggregate_keeps_coeff rowsOf _ _ j); [done|].
      intros b' Hb'. destruct (decide (c = j)) as [->|]; [right | by left].
      intros Hrow. destruct Hlast as (bk & Hbk & Htest).
      { intros ->. by apply elem_of_nil in Hb'. }
      apply reachesColumn_true in Htest as [Hdof Hlt].
      unfold rowsMonotone in Hmono. rewrite Hsplit in Hmono.
      assert (jointIndexInSkeleton st bk + jointDof st bk - 1 < r); [|lia].
      eapply (StronglySorted_app_1_elem_of _ _ _ bk b' Hmono);
        [ | done | | exact Hrow].
      - apply last_Some in Hbk as [l' ->]. apply elem_of_app. right. by left.
      - apply Hjoint. unfold jointRows. lia. }
    destruct (wp_run (forEach l2 (fun b =>
                callBodyMat ct mInvM b (BodyNode.aggregateInvMassMatrix j)))
                (fun _ => True) s1) as (s2 & Hrun2 & _).
    { apply wp_forEach; [done|]. intros b s0 _ _. by wp_step. }
    exists s1, s2. repeat split; [done|]. intros r c Hrc.
    specialize (Hkeep r c Hrc). unfold wp in Hkeep. rewrite Hrun2 in Hkeep.
    done.
Qed.

End EarlyExit.

(** ** Initialization: the breadth-first order *)

Section Init.
Context {Scalar : Type} `{ScalarOps Scalar} {Internals : Type}.
Context (st : Structure Scalar) (ct : BodyNodeContract Scalar Internals).

Abbreviation Skel := (Skeleton Scalar Internals).

Lemma BodyTree_rect' (P : BodyTree -> Prop) :
  (forall b ts, Forall P ts -> P (TreeNode b ts)) -> forall t, P t.
Proof.
  intros Hnode. fix IH 1. intros [b ts]. apply Hnode.
  induction ts as [|t ts IHts]; constructor; [apply IH | exact IHts].
Qed.

Lemma treeSize_nodes (t : BodyTree) : length (treeNodes t) = treeSize t.
Proof.
  induction t as [b ts IH] using BodyTree_rect'. cbn [treeNodes treeSize length].
  f_equal. induction IH as [|t ts Ht _ IHts]; [done|].
  cbn. rewrite length_app, Ht. by f_equal.
Qed.

Lemma linked_node (b : BodyId) (ts : list BodyTree) :
  linked st (TreeNode b ts) <->
  getChildBodyNodes st b = treeRoot <$> ts /\
  Forall (fun t' => getParentBodyNode st (treeRoot t') = Some b /\ linked st t') ts.
Proof.
  cbn [linked]. apply and_iff_compat_l.
  induction ts as [|t ts IH]; [by split|].
  rewrite Forall_cons, <- IH. done.
Qed.

(** The loop visits the trees of the queue breadth first: it ends, it
    appends a permutation of their nodes, and each node appended either was
    a root in the queue or comes after its parent. *)
Lemma bfsLoop_spec (fuel : nat) (F : list BodyTree) (s : Skel) :
  Forall (linked st) F ->
  sum_list (treeSize <$> F) <= fuel ->
  exists res,
    bfsLoop st fuel (treeRoot <$> F) s
    = Ok tt (with_mBodyNodes (mBodyNodes s ++ res) s) /\
    res ≡ₚ concat (treeNodes <$> F) /\
    head res = head (treeRoot <$> F) /\
    forall i b, res !! i = Some b ->
      b ∈ (treeRoot <$> F) \/
      exists p k, getParentBodyNode st b = Some p /\ k < i /\ res !! k = Some p.
Proof.
  revert F s. induction fuel as [|fuel IH]; intros F s Hlinked Hfuel.
  - destruct F as [|[b ts] F]; [|cbn in Hfuel; lia].
    exists []. cbn. rewrite app_nil_r. by destruct s.
  - destruct F as [|[b ts] F].
    { exists []. cbn. rewrite app_nil_r. by destruct s. }
    apply Forall_cons in Hlinked as [Ht HF].
    apply linked_node in Ht as [Hchildren Hts].
    destruct (IH (F ++ ts) (with_mBodyNodes (mBodyNodes s ++ [b]) s))
      as (res & Hrun & Hperm & Hhead & Hpar).
    { apply Forall_app. split; [done|].
      eapply Forall_impl; [exact Hts|]. by intros t' [_ ?]. }
    { cbn in Hfuel. cbn in Hfuel. rewrite fmap_app, sum_list_with_app. lia. }
    exists (b :: res). split; [|split; [|split]].
    + cbn [fmap list_fmap treeRoot bfsLoop]. unfold mbind, Op_bind, modify.
      rewrite Hchildren.
      rewrite <- fmap_app, Hrun. cbn. by rewrite <- (assoc_L (++)).
    + cbn [fmap list_fmap concat treeNodes]. rewrite Hperm, fmap_app, concat_app.
      cbn. constructor. apply Permutation_app_comm.
    + done.
    + intros [|i] x Hx.
      * injection Hx as <-. left. by left.
      * cbn in Hx. destruct (Hpar i x Hx) as [Hroot | (p & k & Hp & Hk & Hres)].
        -- rewrite fmap_app in Hroot. apply elem_of_app in Hroot as [HinF|Hints].
           ++ left. by right.
           ++ right. exists b, 0. split; [|split; [lia|done]].
              apply list_elem_of_fmap in Hints as (t' & -> & Ht').
              by apply (proj1 (Forall_forall _ _) Hts t').
        -- right. exists p, (S k). split; [done|]. split; [lia|done].
Qed.

Lemma partA_keeps_bodies (s : Skel) :
  wp (computeForwardDynamicsRecursionPartA ct)
     (fun _ s' => mBodyNodes s' = mBodyNodes s) s.
Proof.
  unfold computeForwardDynamicsRecursionPartA. wp_step. wp_step.
  wp_step. eapply wp_mono.
  { apply (wp_forEach _ _ (fun s' => mBodyNodes s' = mBodyNodes s)); [done|].
    intros b s1 _ H1. by wp_steps. }
  intros ? s1 H1. cbn beta in H1. do 9 (wp_step; wp_step).
  apply (wp_forEach _ _ (fun s' => mBodyNodes s' = mBodyNodes s)); [done|].
  intros b s2 _ H2. by wp_steps.
Qed.

(** C3. On a skeleton whose bodies form a tree rooted at the first
    element of mBodyNodes, init (given a positive time step, and fuel for
    as many iterations as there are bodies) completes; afterwards
    mBodyNodes starts with the element it started with, every later element
    has its parent at a strictly smaller index, and the sequence is a
    rearrangement of the one before. *)
Theorem init_orders_bodies_parents_first
    (fuel : nat) (_timeStep : Scalar) (_gravity : Vector3d Scalar)
    (s : Skel) (t : BodyTree) :
  formsTree st s t ->
  Sltb Szero _timeStep = true ->
  length (mBodyNodes s) <= fuel ->
  exists s',
    init st ct fuel _timeStep _gravity s = Ok tt s' /\
    head (mBodyNodes s') = head (mBodyNodes s) /\
    parentsFirst st (mBodyNodes s') /\
    mBodyNodes s' ≡ₚ mBodyNodes s.
Proof.
  intros (Hlinked & _ & Hnodup & Hperm & Hhead) Hdt Hfuel.
  destruct (mBodyNodes s) as [|root rest] eqn:Hbodies; [done|].
  injection Hhead as ->.
  set (s0 := with_mBodyNodes [] (with_mGravity _gravity
               (with_mTimeStep _timeStep s))).
  destruct (bfsLoop_spec fuel [t] s0) as (res & Hrun & Hres & Hreshead & Hpar).
  { by constructor. }
  { cbn. rewrite Nat.add_0_r, <- treeSize_nodes, <- Hperm. done. }
  cbn in Hrun, Hres, Hreshead. rewrite app_nil_r in Hres.
  assert (wp (init st ct fuel _timeStep _gravity)
             (fun _ s' => mBodyNodes s' = res) s) as Hwp.
  { unfold init. wp_step. unfold setTimeStep. wp_step.
    apply wp_assert; [done|]. wp_step. wp_step. unfold setGravity. wp_step.
    wp_step. wp_step. cbn [mBodyNodes with_mGravity with_mTimeStep].
    rewrite Hbodies. wp_step. wp_step. wp_step. fold s0.
    unfold wp at 1. rewrite Hrun.
    set (s1 := with_mBodyNodes res s0).
    assert (mBodyNodes s1 = res) as H1 by done. clearbody s1.
    wp_step. wp_step. wp_step. wp_step.
    wp_step. eapply wp_mono.
    { apply (wp_forEach _ _ (fun s' => mBodyNodes s' = res)); [done|].
      intros b s2 _ H2. by wp_steps. }
    intros ? s2 H2. cbn beta in H2. wp_step.
    eapply wp_mono; [apply partA_keeps_bodies|].
    intros ? s3 H3. cbn beta in H3. wp_step. wp_step. cbn zeta.
    do 10 (wp_step; wp_step).
    unfold clearExternalForces. wp_step. wp_step. wp_step. eapply wp_mono.
    { apply (wp_forEach _ _ (fun s' => mBodyNodes s' = res)); [cbn; congruence|].
      intros b s4 _ H4. by wp_steps. }
    intros ? s4 H4. cbn beta in H4.
    unfold clearInternalForces. wp_step. wp_step. wp_step. wp_step.
    wp_step. wp_step. wp_step. wp_step.
    apply (wp_forEach _ _ (fun s' => mBodyNodes s' = res)); [done|].
    intros b s5 _ H5. by wp_steps. }
  apply wp_run in Hwp as (s' & Hinit & Hs'). exists s'. split; [done|].
  rewrite Hs'. split; [|split].
  - done.
  - intros i b Hi Hb. destruct (Hpar i b Hb) as [Hroot|Hparent]; [|done].
    apply list_elem_of_singleton in Hroot as ->.
    destruct res as [|r res']; [done|]. injection Hreshead as ->.
    assert (NoDup (treeRoot t :: res')) as Hnd by by rewrite Hres.
    pose proof (NoDup_lookup _ i 0 _ Hnd Hb eq_refl). lia.
  - by rewrite Hres, Hperm.
Qed.

End Init.

(** ** The external force vector *)

Section SpringForce.
Context {Scalar : Type} `{ScalarOps Scalar} {Internals : Type}.
Context (st : Structure Scalar) (ct : BodyNodeContract Scalar Internals).

Abbreviation Skel := (Skeleton Scalar Internals).

(** Scalars are taken to obey the laws of a ring, as the reals do. *)
Context (Rth : ring_theory (R:=Scalar) Szero Sone Sadd Smul Ssub Sopp eq).
Add Ring ScalarRing : Rth.

Lemma v3add_assoc (a b c : Vector3d Scalar) :
  v3add (v3add a b) c = v3add a (v3add b c).
Proof using Rth. destruct a, b, c. unfold v3add. cbn. f_equal; ring. Qed.

Lemma v3add_zero_r (a : Vector3d Scalar) : v3add a v3zero = a.
Proof using Rth. destruct a. unfold v3add, v3zero. cbn. f_equal; ring. Qed.

Lemma foldl_v3add {X} (f : X -> Vector3d Scalar) (l : list X)
    (a : Vector3d Scalar) :
  foldl (fun F x => v3add F (f x)) a l = v3add a (v3sum (f <$> l)).
Proof using Rth.
  revert a. induction l as [|x l IH]; intros a; cbn.
  - by rewrite v3add_zero_r.
  - by rewrite IH, v3add_assoc.
Qed.

(** The force computed by the loop body is the force of the formula. *)
Lemma pointMassSpringForce_spec (w : World Scalar Internals)
    (dt kv ke : Scalar) (p : PointMassId) :
  pointMassSpringForce st w dt kv ke p = springForceSpec st w dt kv ke p.
Proof using Rth.
  unfold pointMassSpringForce, springForceSpec. cbn zeta. apply foldl_v3add.
Qed.

Lemma setSegment3_length (v : VectorXd Scalar) i f :
  length (setSegment3 v i f) = length v.
Proof. unfold setSegment3. by rewrite !length_insert. Qed.

Lemma segment3_setSegment3 (v : VectorXd Scalar) i f :
  i + 3 <= length v -> segment3 (setSegment3 v i f) i = Some f.
Proof.
  intros Hi. unfold segment3, setSegment3.
  rewrite list_lookup_insert_ne, list_lookup_insert_ne by lia.
  rewrite list_lookup_insert_eq by lia.
  rewrite list_lookup_insert_ne by lia.
  rewrite list_lookup_insert_eq by (rewrite length_insert; lia).
  rewrite list_lookup_insert_eq by (rewrite !length_insert; lia).
  by destruct f.
Qed.

Lemma segment3_setSegment3_ne (v : VectorXd Scalar) i j f :
  i + 3 <= j \/ j + 3 <= i ->
  segment3 (setSegment3 v j f) i = segment3 v i.
Proof.
  intros Hij. unfold segment3, setSegment3.
  by rewrite !list_lookup_insert_ne by lia.
Qed.

Lemma writeSpringForce_length (w : World Scalar Internals) dt v x :
  length (writeSpringForce st w dt v x) = length v.
Proof. apply setSegment3_length. Qed.

Lemma foldl_writeSpringForce_length (w : World Scalar Internals) dt l v :
  length (foldl (writeSpringForce st w dt) v l) = length v.
Proof.
  revert v. induction l as [|x l IH]; intros v; [done|].
  cbn. by rewrite IH, writeSpringForce_length.
Qed.

(** After the assignments, the block of a point mass holds its force,
    when no other point mass shares coordinates with it. *)
Lemma foldl_writeSpringForce_block (w : World Scalar Internals) dt
    (l : list (BodyId * PointMassId)) (v : VectorXd Scalar)
    (x : BodyId * PointMassId) :
  x ∈ l ->
  pmGenCoordIndex st x.2 0 + 3 <= length v ->
  (forall y, y ∈ l -> y = x \/ disjointBlocks st x.2 y.2) ->
  segment3 (foldl (writeSpringForce st w dt) v l) (pmGenCoordIndex st x.2 0)
  = Some (pointMassSpringForce st w dt (getVertexSpringStiffness st x.1)
            (getEdgeSpringStiffness st x.1) x.2).
Proof.
  intros Hx Hrange. induction l as [|y l IH] using rev_ind; intros Hdisj.
  - by apply elem_of_nil in Hx.
  - rewrite foldl_app. cbn [foldl].
    destruct (Hdisj y) as [-> | Hd].
    { apply elem_of_app. right. by left. }
    + unfold writeSpringForce at 1. apply segment3_setSegment3.
      by rewrite foldl_writeSpringForce_length.
    + unfold writeSpringForce at 1. rewrite segment3_setSegment3_ne by done.
      apply IH.
      * apply elem_of_app in Hx as [Hx|Hx]; [done|].
        apply list_elem_of_singleton in Hx as ->.
        unfold disjointBlocks in Hd. lia.
      * intros z Hz. apply Hdisj, elem_of_app. by left.
Qed.

(** The loops over the soft bodies and their point masses assign the
    spring forces, one block after the other, and nothing else. *)
Lemma springForceLoops_spec (softs : list BodyId) (s : Skel) :
  wp (forEach softs (fun it =>
        let kv := getVertexSpringStiffness st it in
        let ke := getEdgeSpringStiffness st it in
        forEach (getPointMasses st it) (fun pm =>
          s ← get;
          let Fext := pointMassSpringForce st (objects s) (mTimeStep s) kv ke pm in
          let iStart := pmGenCoordIndex st pm 0 in
          setVector mFext (setSegment3 (vector s mFext) iStart Fext))))
     (fun _ s' =>
        objects s' = objects s /\ mTimeStep s' = mTimeStep s /\
        vector s' mFext
        = foldl (writeSpringForce st (objects s) (mTimeStep s)) (vector s mFext)
                (sb ← softs; pair sb <$> getPointMasses st sb)) s.
Proof.
  set (W := writeSpringForce st (objects s) (mTimeStep s)).
  apply (wp_forEach_acc softs _ (fun done s' =>
           objects s' = objects s /\ mTimeStep s' = mTimeStep s /\
           vector s' mFext
           = foldl W (vector s mFext)
                   (sb ← done; pair sb <$> getPointMasses st sb))); [done|].
  intros done sb s1 _ (Ho1 & Ht1 & Hv1). cbn zeta.
  eapply wp_mono.
  { apply (wp_forEach_acc (getPointMasses st sb) _ (fun donep s' =>
             objects s' = objects s /\ mTimeStep s' = mTimeStep s /\
             vector s' mFext
             = foldl W (vector s mFext)
                     ((sb ← done; pair sb <$> getPointMasses st sb)
                      ++ (pair sb <$> donep)))).
    - by rewrite app_nil_r.
    - intros donep pm s2 _ (Ho2 & Ht2 & Hv2). wp_step. wp_step. cbn zeta.
      wp_step. cbn. rewrite fn_lookup_insert. repeat split; [done..|].
      rewrite fmap_app, (assoc_L (++)), foldl_app, <- Hv2. cbn [foldl fmap list_fmap].
      unfold W, writeSpringForce. cbn [fst snd]. by rewrite Ho2, Ht2. }
  intros ? s2 (Ho2 & Ht2 & Hv2). cbn beta. repeat split; [done..|].
  rewrite Hv2, bind_app. cbn. by rewrite app_nil_r.
Qed.

(** The block of every point mass when updateExternalForceVector returns. *)
Lemma updateExternalForceVector_blocks (s : Skel) :
  0 < getDof (objects s) ->
  length (vector s mFext) = getDof (objects s) ->
  aggregateExternalForcesKeepsSize ct ->
  exists s',
    updateExternalForceVector st ct s = Ok tt s' /\
    forall x,
      x ∈ softPointMasses st s ->
      pmGenCoordIndex st x.2 0 + 3 <= getDof (objects s) ->
      (forall y, y ∈ softPointMasses st s -> y = x \/ disjointBlocks st x.2 y.2) ->
      segment3 (vector s' mFext) (pmGenCoordIndex st x.2 0)
      = Some (springForceSpec st (objects s') (mTimeStep s)
                (getVertexSpringStiffness st x.1)
                (getEdgeSpringStiffness st x.1) x.2).
Proof using Rth.
  intros Hdof Hlen Hsize. apply wp_run.
  unfold updateExternalForceVector. wp_step. wp_step.
  wp_step. apply wp_assert; [by apply bool_decide_eq_true_2|].
  wp_step. apply wp_assert; [by apply Nat.ltb_lt|].
  wp_step. wp_step.
  wp_step. eapply wp_mono.
  { apply (wp_forEach _ _ (fun s' =>
       mTimeStep s' = mTimeStep s /\ mSoftBodyNodes s' = mSoftBodyNodes s /\
       length (vector s' mFext) = getDof (objects s))).
    - cbn. rewrite fn_lookup_insert. unfold VectorXd_setZero, VectorXd_Zero.
      by rewrite length_replicate.
    - intros b s1 _ (Ht1 & Hs1 & Hl1). wp_step. cbn.
      rewrite fn_lookup_insert, Hsize. done. }
  intros ? s1 (Ht1 & Hs1 & Hl1). cbn beta.
  wp_step. eapply wp_mono; [apply springForceLoops_spec|].
  intros ? s2 (Ho2 & Ht2 & Hv2). cbn beta. wp_step.
  cbn [vector objects with_dirty].
  intros x Hx Hrange Hdisj. rewrite Hv2, Ho2, Ht1.
  rewrite <- pointMassSpringForce_spec.
  apply foldl_writeSpringForce_block; [done | by rewrite Hl1 | done].
Qed.

End SpringForce.

(** C9. For every point mass of a soft body of the skeleton whose block
    of three coordinates lies in the vector and is shared with no other
    point mass, updateExternalForceVector leaves in the block of mFext that
    starts at the first coordinate index of the point mass the force
    -(kv + n ke) q - dt (kv + n ke) dq + sum_j ke (q_j + dt dq_j), the
    arithmetic being that of a ring.  In particular, for the soft body with
    one point mass without neighbours, kv = 10, dt = 0.01, q = (0.1, 0, 0)
    and dq = 0, the block returned by getExternalForceVector is
    (-1, 0, 0). *)
Theorem external_force_of_point_masses :
  (forall (Scalar : Type) (ops : ScalarOps Scalar) (Internals : Type)
          (st : Structure Scalar) (ct : BodyNodeContract Scalar Internals)
          (s : Skeleton Scalar Internals),
     ring_theory (R:=Scalar) Szero Sone Sadd Smul Ssub Sopp eq ->
     0 < getDof (objects s) ->
     length (vector s mFext) = getDof (objects s) ->
     aggregateExternalForcesKeepsSize ct ->
     exists s',
       updateExternalForceVector st ct s = Ok tt s' /\
       forall x,
         x ∈ softPointMasses st s ->
         pmGenCoordIndex st x.2 0 + 3 <= getDof (objects s) ->
         (forall y, y ∈ softPointMasses st s ->
                    y = x \/ disjointBlocks st x.2 y.2) ->
         segment3 (vector s' mFext) (pmGenCoordIndex st x.2 0)
         = Some (springForceSpec st (objects s') (mTimeStep s)
                   (getVertexSpringStiffness st x.1)
                   (getEdgeSpringStiffness st x.1) x.2)) /\
  (exists v s',
     getExternalForceVector softStructure toyContract softSkeleton = Ok v s' /\
     segment3 v 0 = Some (mkV3 (Q2Qc (-1)) 0%Qc 0%Qc)).
Proof.
  split.
  - intros Scalar ops Internals st ct s Rth. by apply updateExternalForceVector_blocks.
  - set (r := getExternalForceVector softStructure toyContract softSkeleton).
    vm_compute in r.
    match goal with r := Ok ?v ?s' |- _ => exists v, s' end.
    split; [done|]. cbn. do 2 f_equal.
Qed.

(** ** The statements on the concrete skeletons *)

Lemma toy_keepsDimensions : keepsDimensions toyContract.
Proof. by intros b c w m. Qed.

Lemma toy_massMatrixCallsKeepGenCoords : massMatrixCallsKeepGenCoords toyContract.
Proof. split; by intros. Qed.

Lemma toy_biasImpulseKeepsConstraintImpulses :
  biasImpulseKeepsConstraintImpulses toyContract.
Proof. by intros b w. Qed.

Lemma toy_aggregateExternalForcesKeepsSize :
  aggregateExternalForcesKeepsSize toyContract.
Proof. by intros b w v. Qed.

Lemma toy_writesOnlyRowsOf (c : BodyNode.MatCall Qc) :
  writesOnlyRowsOf toyContract (jointRows toyStructure) c (toyColumn c).
Proof.
  intros b w m i j Hij. cbn. case_decide as Heq; [|done].
  destruct Heq as [-> ->]. destruct Hij as [Hj | Hrow]; [done|].
  destruct Hrow. unfold jointRows. cbn. lia.
Qed.

Lemma toy_rowsMonotone :
  rowsMonotone (jointRows toyStructure) (mBodyNodes (toySkeleton true)).
Proof.
  unfold rowsMonotone. cbn.
  repeat (constructor; [|repeat constructor; intros i i'; unfold jointRows; cbn; lia]).
  constructor.
Qed.

Lemma toy_formsTree : formsTree toyStructure toyUninitialized toyTree.
Proof.
  repeat split.
  - cbn. repeat constructor; intros Hin;
      repeat (apply elem_of_cons in Hin as [Hin|Hin]; [discriminate|]);
      by apply elem_of_nil in Hin.
  - cbn. apply perm_skip.
    etrans; [apply perm_skip, perm_swap|].
    etrans; [apply perm_swap|].
    apply perm_skip, perm_swap.
Qed.

Lemma getMassMatrix_symmetric_witness :
  0 < getDof (objects (toySkeleton true)) /\
  ((exists s', updateMassMatrix toyStructure toyContract (toySkeleton true)
               = Ok tt s' /\
               matEq (matrix s' mM) (transpose (matrix s' mM))) /\
   ((dirty (toySkeleton true) mIsMassMatrixDirty = false ->
     matEq (matrix (toySkeleton true) mM)
           (transpose (matrix (toySkeleton true) mM))) ->
    exists m s', getMassMatrix toyStructure toyContract (toySkeleton true)
                 = Ok m s' /\
                 m = matrix s' mM /\ matEq m (transpose m))).
Proof.
  split; [cbn; lia|].
  apply (getMassMatrix_symmetric toyStructure toyContract (toySkeleton true)).
  - exact toy_keepsDimensions.
  - cbn. lia.
  - reflexivity.
  - reflexivity.
Defined.

Lemma getMassMatrix_raises_other_dirty_flags_witness :
  dirty (toySkeleton true) mIsInvMassMatrixDirty = false /\
  exists m s',
    getMassMatrix toyStructure toyContract (toySkeleton true) = Ok m s' /\
    mGenCoords (objects s') = mGenCoords (objects (toySkeleton true)) /\
    dirty s' mIsMassMatrixDirty = false /\
    forall f, f ∈ kinematicsFlags -> f <> mIsMassMatrixDirty ->
              dirty s' f = true.
Proof.
  split; [reflexivity|].
  apply (getMassMatrix_raises_other_dirty_flags toyStructure toyContract
           (toySkeleton true)).
  - exact toy_massMatrixCallsKeepGenCoords.
  - cbn. lia.
  - reflexivity.
  - reflexivity.
  - reflexivity.
Defined.

Lemma init_orders_bodies_parents_first_witness :
  exists s',
    init toyStructure toyContract 4 (Q2Qc (1 # 1000)) v3zero toyUninitialized
    = Ok tt s' /\
    head (mBodyNodes s') = head (mBodyNodes toyUninitialized) /\
    parentsFirst toyStructure (mBodyNodes s') /\
    mBodyNodes s' ≡ₚ mBodyNodes toyUninitialized.
Proof.
  apply (init_orders_bodies_parents_first toyStructure toyContract 4
           (Q2Qc (1 # 1000)) v3zero toyUninitialized toyTree).
  - exact toy_formsTree.
  - reflexivity.
  - cbn. lia.
Defined.

Lemma early_exit_same_triangle_witness :
  (exists s1 s2,
     aggregateBackward toyStructure toyContract mM
       (BodyNode.aggregateMassMatrix 3) (mBodyNodes (toySkeleton true)) 3
       (toySkeleton true) = Ok tt s1 /\
     aggregateBackward_allBodies toyContract mM
       (BodyNode.aggregateMassMatrix 3) (mBodyNodes (toySkeleton true))
       (toySkeleton true) = Ok tt s2 /\
     forall r c, c <= r -> coeff (matrix s1 mM) r c = coeff (matrix s2 mM) r c) /\
  (exists s1 s2,
     aggregateForward toyStructure toyContract mInvM
       (BodyNode.aggregateInvMassMatrix 3) (mBodyNodes (toySkeleton true)) 3
       (toySkeleton true) = Ok tt s1 /\
     aggregateForward_allBodies toyContract mInvM
       (BodyNode.aggregateInvMassMatrix 3) (mBodyNodes (toySkeleton true))
       (toySkeleton true) = Ok tt s2 /\
     forall r c, r <= c ->
       coeff (matrix s1 mInvM) r c = coeff (matrix s2 mInvM) r c).
Proof.
  apply (early_exit_same_triangle toyStructure toyContract
           (jointRows toyStructure) (toySkeleton true) 3).
  - exact (toy_writesOnlyRowsOf (BodyNode.aggregateMassMatrix 3)).
  - exact (toy_writesOnlyRowsOf (BodyNode.aggregateInvMassMatrix 3)).
  - intros b i Hrow. exact Hrow.
  - exact toy_rowsMonotone.
Defined.

Lemma artInertia_pass_in_updateInvMassMatrix_only_witness :
  0 < getDof (objects (toySkeleton true)) /\
  exists s',
    updateInvMassMatrix toyStructure toyContract
      (with_dirty (fun _ => true) (toySkeleton true)) = Ok tt s' /\
    artInertiaCalls (calls s')
    = [(3, Q2Qc (1 # 1000)); (2, Q2Qc (1 # 1000));
       (1, Q2Qc (1 # 1000)); (0, Q2Qc (1 # 1000))] /\
    dirty s' mIsArticulatedInertiaDirty = false.
Proof.
  split; [cbn; lia|].
  apply (proj1 (artInertia_pass_in_updateInvMassMatrix_only
                  toyStructure toyContract
                  (with_dirty (fun _ => true) (toySkeleton true))
                  ltac:(cbn; lia))).
  split; reflexivity.
Defined.

Lemma updateBiasImpulse_restores_constraint_impulses_witness :
  (exists s',
     updateBiasImpulse_body toyStructure toyContract 3 3 (replicate 6 1%Qc)
       (toySkeleton true) = Ok tt s' /\
     calls s' = calls (toySkeleton true)
                ++ ((fun b => OnBody b BodyNode.updateBiasImpulse) <$> [3; 1; 0]) /\
     mConstraintImpulse (objects s') 3 = Vector6d_Zero /\
     (biasImpulseKeepsConstraintImpulses toyContract ->
      (forall b, mConstraintImpulse (objects s') b
                 = mConstraintImpulse (objects (toySkeleton true)) b) /\
      (forall p, mConstraintImpulses (objects s') p
                 = mConstraintImpulses (objects (toySkeleton true)) p))) /\
  (exists s',
     updateBiasImpulse_pointMass softStructure toyContract 1 0 0
       (mkV3 1%Qc 1%Qc 1%Qc) softSkeleton = Ok tt s' /\
     calls s' = calls softSkeleton
                ++ ((fun b => OnBody b BodyNode.updateBiasImpulse) <$> [0]) /\
     mConstraintImpulses (objects s') 0
     = mConstraintImpulses (objects softSkeleton) 0 /\
     (biasImpulseKeepsConstraintImpulses toyContract ->
      (forall b, mConstraintImpulse (objects s') b
                 = mConstraintImpulse (objects softSkeleton) b) /\
      (forall p, mConstraintImpulses (objects s') p
                 = mConstraintImpulses (objects softSkeleton) p))).
Proof.
  split.
  - apply (proj1 (updateBiasImpulse_restores_constraint_impulses
                    toyStructure toyContract 3 [3; 1; 0] (toySkeleton true)
                    3 (replicate 6 1%Qc) 0 0 v3zero
                    ltac:(cbn; lia)
                    ltac:(repeat constructor)
                    ltac:(cbn; lia))).
    + cbn. repeat constructor.
    + repeat constructor.
  - apply (proj2 (updateBiasImpulse_restores_constraint_impulses
                    softStructure toyContract 1 [0] softSkeleton
                    0 (replicate 6 1%Qc) 0 0 (mkV3 1%Qc 1%Qc 1%Qc)
                    ltac:(cbn; lia)
                    ltac:(repeat constructor)
                    ltac:(cbn; lia))).
    + cbn. repeat constructor.
    + repeat constructor.
Defined.

Lemma computeImpulseForwardDynamics_skips_witness :
  mIsMobile (with_mIsMobile false (toySkeleton true)) = false /\
  computeImpulseForwardDynamics toyContract
    (with_mIsMobile false (toySkeleton true))
  = Ok tt (with_mIsMobile false (toySkeleton true)).
Proof.
  split; [reflexivity|].
  apply (computeImpulseForwardDynamics_skips toyContract
           (with_mIsMobile false (toySkeleton true))).
  left. reflexivity.
Defined.

Lemma external_force_of_point_masses_witness :
  exists s',
    updateExternalForceVector softStructure toyContract softSkeleton = Ok tt s' /\
    segment3 (vector s' mFext) 0
    = Some (springForceSpec softStructure (objects s') (Q2Qc (1 # 100))
              (Q2Qc 10) (Q2Qc 7) 0).
Proof.
  destruct (proj1 external_force_of_point_masses Qc Qc_ScalarOps unit
              softStructure toyContract softSkeleton Qcrt
              ltac:(cbn; lia) eq_refl toy_aggregateExternalForcesKeepsSize)
    as (s' & Hrun & Hblock).
  exists s'. split; [exact Hrun|].
  apply (Hblock (0, 0)).
  - cbn. left.
  - cbn. lia.
  - intros y Hy. left. cbn in Hy.
    apply list_elem_of_singleton in Hy. exact Hy.
Defined.

(** ** Runs of the concrete skeletons *)

(** [init] on the bodies registered as 0, 2, 3, 1 orders them 0, 1, 2, 3:
    the root, its two children, then the grandchild. *)
Example init_breadth_first_run :
  exists s',
    init toyStructure toyContract 4 (Q2Qc (1 # 1000)) v3zero toyUninitialized
    = Ok tt s' /\
    mBodyNodes s' = [0; 1; 2; 3] /\ getDof (objects s') = 4.
Proof.
  set (r := init toyStructure toyContract 4 (Q2Qc (1 # 1000)) v3zero
              toyUninitialized).
  vm_compute in r.
  match goal with r := Ok _ ?s' |- _ => exists s' end.
  by repeat split.
Qed.

(** In column 3 the backward loop leaves after body 1 and never reaches
    body 0: the coefficient (0, 3), above the diagonal, is not written,
    while the loop over all bodies writes it. *)
Example early_exit_skips_root_run :
  exists s1 s2,
    aggregateBackward toyStructure toyContract mM
      (BodyNode.aggregateMassMatrix 3) [0; 1; 2; 3] 3 (toySkeleton true)
    = Ok tt s1 /\
    aggregateBackward_allBodies toyContract mM
      (BodyNode.aggregateMassMatrix 3) [0; 1; 2; 3] (toySkeleton true)
    = Ok tt s2 /\
    coeff (matrix s1 mM) 0 3 = 0%Qc /\
    coeff (matrix s2 mM) 0 3 = Q2Qc 4 /\
    calls s1 = [OnBodyMat 3 (BodyNode.aggregateMassMatrix 3);
                OnBodyMat 2 (BodyNode.aggregateMassMatrix 3);
                OnBodyMat 1 (BodyNode.aggregateMassMatrix 3)].
Proof.
  set (r1 := aggregateBackward toyStructure toyContract mM
               (BodyNode.aggregateMassMatrix 3) [0; 1; 2; 3] 3 (toySkeleton true)).
  set (r2 := aggregateBackward_allBodies toyContract mM
               (BodyNode.aggregateMassMatrix 3) [0; 1; 2; 3] (toySkeleton true)).
  vm_compute in r1, r2.
  match goal with r1 := Ok _ ?s1, r2 := Ok _ ?s2 |- _ => exists s1, s2 end.
  by repeat split.
Qed.

(** ** The other cached matrices *)

Section MirrorLower.
Context {Scalar : Type} `{ScalarOps Scalar}.

(** One column of the assignment of the strictly lower triangle: the
    coefficients below the diagonal receive the coefficients of row [j],
    which no column writes. *)
Lemma mirror_column_lower (m : MatrixXd Scalar) (j n : nat) :
  let m' := foldl (fun m i => setCoeff m i j (coeff m j i)) m (seq (S j) n) in
  rows m' = rows m /\ cols m' = cols m /\
  forall a b, coeff m' a b
              = if decide (b = j /\ j < a < S j + n) then coeff m j a
                else coeff m a b.
Proof.
  induction n as [|n IH]; cbn zeta.
  - cbn. repeat split. intros a b. case_decide; [lia | done].
  - rewrite seq_S, foldl_app. cbn [foldl]. cbn zeta in IH.
    destruct IH as (Hr & Hc & Hco).
    rewrite setCoeff_rows, setCoeff_cols. repeat split; [done..|].
    intros a b. unfold setCoeff at 1. cbn [coeff].
    rewrite !Hco. repeat case_decide; try lia; try done.
    all: destruct_and?; subst; try lia; try done.
    all: exfalso; naive_solver lia.
Qed.

Lemma mirror_columns_lower (m : MatrixXd Scalar) (n : nat) :
  let m' := foldl (fun m j =>
                     foldl (fun m i => setCoeff m i j (coeff m j i)) m
                           (seq (S j) (rows m - S j)))
                  m (seq 0 n) in
  rows m' = rows m /\ cols m' = cols m /\
  forall a b, coeff m' a b
              = if decide (b < a /\ b < n /\ a < rows m)
                then coeff m b a else coeff m a b.
Proof.
  induction n as [|n IH]; cbn zeta.
  - cbn. repeat split. intros a b. case_decide; [lia | done].
  - rewrite seq_S, foldl_app. cbn [foldl]. cbn zeta in IH.
    destruct IH as (Hr & Hc & Hco).
    set (m1 := foldl _ m (seq 0 n)) in *.
    destruct (mirror_column_lower m1 (0 + n) (rows m1 - S (0 + n)))
      as (Hr' & Hc' & Hco').
    cbn zeta in Hr', Hc', Hco'.
    rewrite Hr', Hc'. repeat split; [done..|].
    intros a b. rewrite Hco', !Hco, Hr. cbn [Nat.add].
    repeat case_decide; try lia; try done.
    all: destruct_and?; subst; try lia; try done.
    all: exfalso; naive_solver lia.
Qed.

Lemma assignStrictlyLowerFromTranspose_spec (m : MatrixXd Scalar) :
  rows (assignStrictlyLowerFromTranspose m) = rows m /\
  cols (assignStrictlyLowerFromTranspose m) = cols m /\
  forall a b, coeff (assignStrictlyLowerFromTranspose m) a b
              = if decide (b < a /\ b < cols m /\ a < rows m)
                then coeff m b a else coeff m a b.
Proof. apply (mirror_columns_lower m (cols m)). Qed.

(** Either assignment leaves a square matrix equal to its transpose. *)
Lemma mirrored_upper_symmetric (m : MatrixXd Scalar) :
  rows m = cols m ->
  matEq (assignStrictlyUpperFromTranspose m)
        (transpose (assignStrictlyUpperFromTranspose m)).
Proof.
  intros Hsq.
  destruct (assignStrictlyUpperFromTranspose_spec m) as (Hr & Hc & Hco).
  unfold matEq, transpose. cbn [rows cols coeff].
  rewrite Hr, Hc. repeat split; [done..|].
  intros i j Hi Hj. rewrite !Hco.
  repeat case_decide; try done; try lia. by replace j with i by lia.
Qed.

Lemma mirrored_lower_symmetric (m : MatrixXd Scalar) :
  rows m = cols m ->
  matEq (assignStrictlyLowerFromTranspose m)
        (transpose (assignStrictlyLowerFromTranspose m)).
Proof.
  intros Hsq.
  destruct (assignStrictlyLowerFromTranspose_spec m) as (Hr & Hc & Hco).
  unfold matEq, transpose. cbn [rows cols coeff].
  rewrite Hr, Hc. repeat split; [done..|].
  intros i j Hi Hj. rewrite !Hco.
  repeat case_decide; try done; try lia. by replace j with i by lia.
Qed.

End MirrorLower.

Section Columns.
Context {Scalar : Type} `{ScalarOps Scalar} {Internals : Type}.
Context (st : Structure Scalar) (ct : BodyNodeContract Scalar Internals).

Abbreviation Skel := (Skeleton Scalar Internals).

(** Invariants of the aggregation loops and of the column loops. *)
Lemma wp_aggregateBackward (I : Skel -> Prop) (k : MatrixMember)
    (c : BodyNode.MatCall Scalar) (bodies : list BodyId) (j : nat) (s : Skel) :
  I s ->
  (forall b s, I s -> wp (callBodyMat ct k b c) (fun _ => I) s) ->
  wp (aggregateBackward st ct k c bodies j) (fun _ => I) s.
Proof.
  intros Hs Hb. unfold aggregateBackward. apply wp_forEachUntil; [done|].
  intros b s1 _ H1. wp_step. eapply wp_mono; [by apply Hb|].
  intros ? s2 H2. by wp_step.
Qed.

Lemma wp_aggregateForward (I : Skel -> Prop) (k : MatrixMember)
    (c : BodyNode.MatCall Scalar) (bodies : list BodyId) (j : nat) (s : Skel) :
  I s ->
  (forall b s, I s -> wp (callBodyMat ct k b c) (fun _ => I) s) ->
  wp (aggregateForward st ct k c bodies j) (fun _ => I) s.
Proof.
  intros Hs Hb. unfold aggregateForward. apply wp_forEachUntil; [done|].
  intros b s1 _ H1. wp_step. eapply wp_mono; [by apply Hb|].
  intros ? s2 H2. by wp_step.
Qed.

Lemma wp_backwardColumns (I : Skel -> Prop) (k : MatrixMember)
    (agg : nat -> BodyNode.MatCall Scalar) (bodies : list BodyId)
    (cols0 : list nat) (e0 : VectorXd Scalar) (s : Skel) :
  I s ->
  (forall e s, I s ->
     I (with_objects (GenCoordSystem_setAccelerations e (objects s)) s)) ->
  (forall b s, I s -> wp (callBody ct b BodyNode.updateMassMatrix) (fun _ => I) s) ->
  (forall b j s, I s -> wp (callBodyMat ct k b (agg j)) (fun _ => I) s) ->
  wp (forEachWith cols0 e0 (fun e j =>
        let e := <[j := Sone]> e in
        onObjects (GenCoordSystem_setAccelerations e);;
        forEach bodies (fun it => callBody ct it BodyNode.updateMassMatrix);;
        aggregateBackward st ct k (agg j) bodies j;;
        mret (<[j := Szero]> e)))
     (fun _ => I) s.
Proof.
  intros Hs Hstore Hprep Hagg. apply wp_forEachWith; [done|].
  intros j e s1 _ H1. cbn zeta. wp_step. wp_step. wp_step. eapply wp_mono.
  { apply (wp_forEach _ _ I); [by apply Hstore|].
    intros b s2 _ H2. by apply Hprep. }
  intros ? s2 H2. cbn beta in H2. wp_step. eapply wp_mono.
  { apply wp_aggregateBackward; [done|]. intros b s3 H3. by apply Hagg. }
  intros ? s3 H3. cbn beta in H3. by wp_step.
Qed.

Lemma wp_forwardColumns (I : Skel -> Prop) (k : MatrixMember)
    (prep : BodyNode.Call Scalar)
    (agg : nat -> BodyNode.MatCall Scalar) (bodies : list BodyId)
    (cols0 : list nat) (e0 : VectorXd Scalar) (s : Skel) :
  I s ->
  (forall e s, I s -> I (with_objects (setGenForces e (objects s)) s)) ->
  (forall b s, I s -> wp (callBody ct b prep) (fun _ => I) s) ->
  (forall b j s, I s -> wp (callBodyMat ct k b (agg j)) (fun _ => I) s) ->
  wp (forEachWith cols0 e0 (fun e j =>
        let e := <[j := Sone]> e in
        onObjects (setGenForces e);;
        forEach (reverse bodies) (fun it => callBody ct it prep);;
        aggregateForward st ct k (agg j) bodies j;;
        mret (<[j := Szero]> e)))
     (fun _ => I) s.
Proof.
  intros Hs Hstore Hprep Hagg. apply wp_forEachWith; [done|].
  intros j e s1 _ H1. cbn zeta. wp_step. wp_step. wp_step. eapply wp_mono.
  { apply (wp_forEach _ _ I); [by apply Hstore|].
    intros b s2 _ H2. by apply Hprep. }
  intros ? s2 H2. cbn beta in H2. wp_step. eapply wp_mono.
  { apply wp_aggregateForward; [done|]. intros b s3 H3. by apply Hagg. }
  intros ? s3 H3. cbn beta in H3. by wp_step.
Qed.

End Columns.

Section OtherMatrices.
Context {Scalar : Type} `{ScalarOps Scalar} {Internals : Type}.
Context (st : Structure Scalar) (ct : BodyNodeContract Scalar Internals).

Abbreviation Skel := (Skeleton Scalar Internals).

Lemma imap_sameUpToForces
    (f : nat -> GenCoord Scalar -> GenCoord Scalar) (gs : list (GenCoord Scalar)) :
  (forall i g, set_tau Szero (f i g) = set_tau Szero g) ->
  (set_tau Szero <$> imap f gs) = (set_tau Szero <$> gs).
Proof.
  revert f. induction gs as [|g gs IH]; intros f Hf; [done|].
  rewrite imap_cons, !fmap_cons, Hf. f_equal. apply IH. intros i g'. apply Hf.
Qed.

Lemma storeField_tau_sameUpToForces
    (v : VectorXd Scalar) (gs : list (GenCoord Scalar)) :
  (set_tau Szero <$> storeField set_tau v gs) = (set_tau Szero <$> gs).
Proof.
  apply imap_sameUpToForces. intros i g. by destruct (v !! i).
Qed.

(** Storing back the generalized forces read at the start restores the
    coordinates, when nothing else was written to them in between. *)
Lemma storeField_tau_restore (gs gs' : list (GenCoord Scalar)) :
  (set_tau Szero <$> gs') = (set_tau Szero <$> gs) ->
  storeField set_tau (tau <$> gs) gs' = gs.
Proof.
  unfold storeField. revert gs.
  induction gs' as [|g' gs' IH]; intros [|g gs] Heq; try done.
  rewrite !fmap_cons in Heq. destruct g, g'.
  injection Heq as Hq Hdq Hddq Hgs. cbn in Hq, Hdq, Hddq. subst.
  rewrite imap_cons. cbn [lookup list_lookup fmap list_fmap]. f_equal.
  etrans; [|apply (IH gs Hgs)]. by apply imap_ext.
Qed.

Lemma assemblyKeeps_refl k set keep (s : Skel) : assemblyKeeps ct k set keep s s.
Proof. by repeat split. Qed.

(** The column loop of the mass matrices. *)
Lemma backwardColumns_keep (k : MatrixMember)
    (agg : nat -> BodyNode.MatCall Scalar) (bodies : list BodyId)
    (cols0 : list nat) (e0 : VectorXd Scalar) (s : Skel) :
  wp (forEachWith cols0 e0 (fun e j =>
        let e := <[j := Sone]> e in
        onObjects (GenCoordSystem_setAccelerations e);;
        forEach bodies (fun it => callBody ct it BodyNode.updateMassMatrix);;
        aggregateBackward st ct k (agg j) bodies j;;
        mret (<[j := Szero]> e)))
     (fun _ s' =>
        assemblyKeeps ct k set_ddq
          (callKeepsGenCoords ct BodyNode.updateMassMatrix /\
           forall j, matCallKeepsGenCoords ct (agg j)) s s') s.
Proof.
  apply (wp_backwardColumns st ct (assemblyKeeps ct k set_ddq _ s)).
  - apply assemblyKeeps_refl.
  - intros e s1 (Hdim & Hgc & Hmat & Hvec). repeat split; try done.
    + by apply Hdim.
    + by apply Hdim.
    + intros Hk. cbn. rewrite storeField_ddq_sameUpToAccelerations. by apply Hgc.
  - intros b s1 (Hdim & Hgc & Hmat & Hvec). wp_step. repeat split; try done.
    + by apply Hdim.
    + by apply Hdim.
    + intros Hk. cbn. rewrite (proj1 Hk). by apply Hgc.
  - intros b j s1 (Hdim & Hgc & Hmat & Hvec). wp_step.
    split; [|split; [|split]].
    + intros Hk. cbn. rewrite fn_lookup_insert.
      destruct (Hk b (agg j) (objects s1) (matrix s1 k)) as [-> ->].
      by apply Hdim.
    + intros Hk. cbn. rewrite (proj2 Hk). by apply Hgc.
    + intros k' Hne. cbn. rewrite fn_lookup_insert_ne by done. by apply Hmat.
    + done.
Qed.

(** The column loop of the inverse mass matrices. *)
Lemma forwardColumns_keep (k : MatrixMember) (prep : BodyNode.Call Scalar)
    (agg : nat -> BodyNode.MatCall Scalar) (bodies : list BodyId)
    (cols0 : list nat) (e0 : VectorXd Scalar) (s : Skel) :
  wp (forEachWith cols0 e0 (fun e j =>
        let e := <[j := Sone]> e in
        onObjects (setGenForces e);;
        forEach (reverse bodies) (fun it => callBody ct it prep);;
        aggregateForward st ct k (agg j) bodies j;;
        mret (<[j := Szero]> e)))
     (fun _ s' =>
        assemblyKeeps ct k set_tau
          (callKeepsGenCoords ct prep /\
           forall j, matCallKeepsGenCoords ct (agg j)) s s') s.
Proof.
  apply (wp_forwardColumns st ct (assemblyKeeps ct k set_tau _ s)).
  - apply assemblyKeeps_refl.
  - intros e s1 (Hdim & Hgc & Hmat & Hvec). repeat split; try done.
    + by apply Hdim.
    + by apply Hdim.
    + intros Hk. cbn. rewrite storeField_tau_sameUpToForces. by apply Hgc.
  - intros b s1 (Hdim & Hgc & Hmat & Hvec). wp_step. repeat split; try done.
    + by apply Hdim.
    + by apply Hdim.
    + intros Hk. cbn. rewrite (proj1 Hk). by apply Hgc.
  - intros b j s1 (Hdim & Hgc & Hmat & Hvec). wp_step.
    split; [|split; [|split]].
    + intros Hk. cbn. rewrite fn_lookup_insert.
      destruct (Hk b (agg j) (objects s1) (matrix s1 k)) as [-> ->].
      by apply Hdim.
    + intros Hk. cbn. rewrite (proj2 Hk). by apply Hgc.
    + intros k' Hne. cbn. rewrite fn_lookup_insert_ne by done. by apply Hmat.
    + done.
Qed.

Lemma updateAugMassMatrix_spec (s : Skel) :
  0 < getDof (objects s) ->
  cols (matrix s mAugM) = getDof (objects s) ->
  rows (matrix s mAugM) = getDof (objects s) ->
  wp (updateAugMassMatrix st ct)
     (fun _ s' =>
        (keepsDimensions ct ->
         matEq (matrix s' mAugM) (transpose (matrix s' mAugM))) /\
        (callKeepsGenCoords ct BodyNode.updateMassMatrix /\
         (forall j, matCallKeepsGenCoords ct
                      (BodyNode.aggregateAugMassMatrix j (mTimeStep s))) ->
         mGenCoords (objects s') = mGenCoords (objects s)) /\
        (forall k', k' <> mAugM -> matrix s' k' = matrix s k') /\
        vector s' = vector s) s.
Proof.
  intros Hdof Hcols Hrows.
  unfold updateAugMassMatrix. wp_step. wp_step.
  wp_step. apply wp_assert; [by apply bool_decide_eq_true_2|].
  wp_step. apply wp_assert; [by apply Nat.ltb_lt|].
  wp_step. wp_step. cbn zeta.
  wp_step. eapply wp_mono; [apply backwardColumns_keep|].
  intros ? s1 (Hdim & Hgc & Hmat & Hvec). cbn beta.
  cbn [matrix vector objects with_matrix] in Hdim, Hgc, Hmat, Hvec.
  rewrite fn_lookup_insert in Hdim. cbn [rows cols setZero] in Hdim.
  wp_steps. cbn [matrix vector objects with_matrix with_objects with_dirty].
  rewrite fn_lookup_insert. split; [|split; [|split]].
  - intros Hk. destruct (Hdim Hk) as [Hr Hc].
    apply mirrored_upper_symmetric. congruence.
  - intros Hk. cbn. by apply storeField_ddq_restore, Hgc.
  - intros k' Hne. rewrite fn_lookup_insert_ne by done.
    rewrite Hmat by done. by rewrite fn_lookup_insert_ne.
  - done.
Qed.

Lemma updateInvAugMassMatrix_spec (s : Skel) :
  0 < getDof (objects s) ->
  cols (matrix s mInvAugM) = getDof (objects s) ->
  rows (matrix s mInvAugM) = getDof (objects s) ->
  wp (updateInvAugMassMatrix st ct)
     (fun _ s' =>
        (keepsDimensions ct ->
         matEq (matrix s' mInvAugM) (transpose (matrix s' mInvAugM))) /\
        (callKeepsGenCoords ct BodyNode.updateInvAugMassMatrix /\
         (forall j, matCallKeepsGenCoords ct
                      (BodyNode.aggregateInvAugMassMatrix j (mTimeStep s))) ->
         mGenCoords (objects s') = mGenCoords (objects s)) /\
        (forall k', k' <> mInvAugM -> matrix s' k' = matrix s k') /\
        vector s' = vector s) s.
Proof.
  intros Hdof Hcols Hrows.
  unfold updateInvAugMassMatrix. wp_step. wp_step.
  wp_step. apply wp_assert; [by apply bool_decide_eq_true_2|].
  wp_step. apply wp_assert; [by apply Nat.ltb_lt|]. cbn zeta.
  wp_step. eapply wp_mono; [apply forwardColumns_keep|].
  intros ? s1 (Hdim & Hgc & Hmat & Hvec). cbn beta.
  wp_steps. cbn [matrix vector objects with_matrix with_objects with_dirty].
  rewrite fn_lookup_insert. split; [|split; [|split]].
  - intros Hk. destruct (Hdim Hk) as [Hr Hc].
    apply mirrored_lower_symmetric. congruence.
  - intros Hk. cbn. by apply storeField_tau_restore, Hgc.
  - intros k' Hne. rewrite fn_lookup_insert_ne by done. by apply Hmat.
  - done.
Qed.

(** The pass over the articulated inertias that updateInvMassMatrix makes
    when their flag is set. *)
Lemma artInertiaPass_keep (k : MatrixMember) (dt : Scalar)
    (l : list BodyId) (s : Skel) :
  wp (forEach l (fun it => callBody ct it (BodyNode.updateArtInertia dt)))
     (fun _ s' =>
        assemblyKeeps ct k set_tau
          (callKeepsGenCoords ct (BodyNode.updateArtInertia dt)) s s') s.
Proof.
  apply (wp_forEach _ _ (assemblyKeeps ct k set_tau _ s)).
  - apply assemblyKeeps_refl.
  - intros b s1 _ (Hdim & Hgc & Hmat & Hvec). wp_step. repeat split; try done.
    + by apply Hdim.
    + by apply Hdim.
    + intros Hk. cbn. rewrite Hk. by apply Hgc.
Qed.

Lemma updateInvMassMatrix_spec (s : Skel) :
  0 < getDof (objects s) ->
  cols (matrix s mInvM) = getDof (objects s) ->
  rows (matrix s mInvM) = getDof (objects s) ->
  wp (updateInvMassMatrix st ct)
     (fun _ s' =>
        (keepsDimensions ct ->
         matEq (matrix s' mInvM) (transpose (matrix s' mInvM))) /\
        (callKeepsGenCoords ct (BodyNode.updateArtInertia (mTimeStep s)) /\
         callKeepsGenCoords ct BodyNode.updateInvMassMatrix /\
         (forall j, matCallKeepsGenCoords ct (BodyNode.aggregateInvMassMatrix j)) ->
         mGenCoords (objects s') = mGenCoords (objects s)) /\
        (forall k', k' <> mInvM -> matrix s' k' = matrix s k') /\
        vector s' = vector s /\
        (forall f, dirty s' f
                   = if decide (f = mIsInvMassMatrixDirty) then false
                     else if decide (f = mIsArticulatedInertiaDirty) then false
                     else dirty s f)) s.
Proof.
  intros Hdof Hcols Hrows.
  unfold updateInvMassMatrix. wp_step. wp_step.
  wp_step. apply wp_assert; [by apply bool_decide_eq_true_2|].
  wp_step. apply wp_assert; [by apply Nat.ltb_lt|]. cbn zeta.
  wp_step. eapply wp_mono.
  { instantiate (1 := fun _ s1 =>
      assemblyKeeps ct mInvM set_tau
        (callKeepsGenCoords ct (BodyNode.updateArtInertia (mTimeStep s))) s s1 /\
      (forall f, dirty s1 f
                 = if decide (f = mIsArticulatedInertiaDirty) then false
                   else dirty s f)).
    destruct (dirty s mIsArticulatedInertiaDirty) eqn:Hflag.
    - wp_step. eapply wp_mono.
      { apply wp_conj; [apply (artInertiaPass_keep mInvM)|].
        apply (wp_forEach _ _ (fun s' => dirty s' = dirty s)); [done|].
        intros b s1 _ H1. by wp_step. }
      intros ? s1 (Hk1 & Hd1). cbn beta. wp_step. split; [exact Hk1|].
      intros f. cbn. rewrite Hd1. case_decide as Hf.
      + subst. apply fn_lookup_insert.
      + by rewrite fn_lookup_insert_ne.
    - wp_step. split; [apply assemblyKeeps_refl|].
      intros f. case_decide; by subst. }
  intros ? s1 ((Hdim1 & Hgc1 & Hmat1 & Hvec1) & Hd1). cbn beta.
  wp_step. eapply wp_mono.
  { apply wp_conj; [apply forwardColumns_keep|].
    apply (wp_forwardColumns st ct (fun s' => dirty s' = dirty s1)); [done|..].
    - by intros.
    - intros b s2 H2. by wp_step.
    - intros b j s2 H2. by wp_step. }
  intros ? s2 ((Hdim2 & Hgc2 & Hmat2 & Hvec2) & Hd2). cbn beta.
  wp_steps. cbn [matrix vector objects dirty with_matrix with_objects with_dirty].
  rewrite fn_lookup_insert. split; [|split; [|split; [|split]]].
  - intros Hk. destruct (Hdim1 Hk) as [Hr1 Hc1]. destruct (Hdim2 Hk) as [Hr2 Hc2].
    apply mirrored_lower_symmetric. congruence.
  - intros (Ha & Hp & Hg). cbn. apply storeField_tau_restore.
    rewrite Hgc2 by done. by apply Hgc1.
  - intros k' Hne. rewrite fn_lookup_insert_ne by done.
    rewrite Hmat2 by done. by apply Hmat1.
  - congruence.
  - intros f. case_decide as Hf.
    + subst. apply fn_lookup_insert.
    + rewrite fn_lookup_insert_ne by done. by rewrite Hd2, Hd1.
Qed.

End OtherMatrices.

(** ** The dirty flags of the cached quantities *)

(** Shows that a run neither reads nor writes the dirty flags, up to the
    flag it clears at its end. *)
Ltac tracks :=
  unfold aggregateBackward, aggregateForward;
  repeat first
    [ apply tracks_setDirty
    | apply tracks_ret
    | apply tracks_assert
    | apply tracks_get; [intros ?|done]
    | apply tracks_bind; [|intros ?]
    | apply tracks_forEach; intros ?
    | apply tracks_forEachUntil; intros ?
    | apply tracks_forEachWith; intros ? ?
    | by apply tracks_modify
    | progress cbn zeta ].

(** Membership in a list that is written out. *)
Ltac in_list := repeat (apply elem_of_cons; first [by left | right]).

Section Flags.
Context {Scalar : Type} `{ScalarOps Scalar} {Internals : Type}.
Context (st : Structure Scalar) (ct : BodyNodeContract Scalar Internals).

Abbreviation Skel := (Skeleton Scalar Internals).

Lemma bind_ok_inv {A B} (m : Op A) (k : A -> Op B) (s : Skel) b s' :
  (m ≫= k) s = Ok b s' -> exists a s1, m s = Ok a s1 /\ k a s1 = Ok b s'.
Proof.
  unfold mbind, Op_bind. destruct (m s) as [a s1|]; [|done]. eauto.
Qed.

Lemma with_dirty_same (s : Skel) : with_dirty (dirty s) s = s.
Proof. by destruct s. Qed.

Lemma tracksDirty_flags {A} g (m : @Op Scalar Internals A) (s : Skel) a s' :
  tracksDirty g m -> m s = Ok a s' -> dirty s' = g (dirty s).
Proof.
  intros Hm Hrun. specialize (Hm (dirty s) s).
  rewrite with_dirty_same, Hrun in Hm. injection Hm as Hs'.
  by rewrite Hs' at 1.
Qed.

Lemma flagBlindUpdaters_track (f : DirtyFlag) (U : Op unit) :
  (f, U) ∈ flagBlindUpdaters st ct -> tracksDirty (<[f := false]>) U.
Proof.
  intros Hin. unfold flagBlindUpdaters in Hin.
  repeat (apply elem_of_cons in Hin as [[= -> ->]|Hin];
          [unfold updateAugMassMatrix, updateInvAugMassMatrix,
             updateCoriolisForceVector, updateGravityForceVector,
             updateCombinedVector, updateExternalForceVector; tracks|]).
  by apply elem_of_nil in Hin.
Qed.

(** X1. updateAugMassMatrix, updateInvAugMassMatrix and the updaters of
    the Coriolis, gravity, combined and external force vectors write one
    dirty flag, their own, which they clear, and read none: whenever such
    an updater returns, every other flag has the value it had on entry, and
    started with any other setting of the flags it returns the same state,
    up to the flags. *)
Theorem updaters_write_their_own_flag_only
    (f : DirtyFlag) (U : Op unit) (s s' : Skel) :
  (f, U) ∈ flagBlindUpdaters st ct ->
  U s = Ok tt s' ->
  (forall f', dirty s' f' = if decide (f' = f) then false else dirty s f') /\
  (forall d, U (with_dirty d s) = Ok tt (with_dirty (<[f := false]> d) s')).
Proof.
  intros Hin Hrun. pose proof (flagBlindUpdaters_track f U Hin) as Htr. split.
  - intros f'. rewrite (tracksDirty_flags _ _ _ _ _ Htr Hrun).
    case_decide as Hf.
    + subst. apply fn_lookup_insert.
    + by rewrite fn_lookup_insert_ne.
  - intros d. by rewrite Htr, Hrun.
Qed.

(** *** Read-through caching *)

Lemma updateMassMatrix_clears_flag (s s' : Skel) :
  updateMassMatrix st ct s = Ok tt s' -> dirty s' mIsMassMatrixDirty = false.
Proof.
  unfold updateMassMatrix. intros Hrun.
  repeat (apply bind_ok_inv in Hrun as (? & ? & _ & Hrun); cbn beta zeta in Hrun).
  injection Hrun as <-. apply fn_lookup_insert.
Qed.

Lemma updateInvMassMatrix_clears_flag (s s' : Skel) :
  updateInvMassMatrix st ct s = Ok tt s' -> dirty s' mIsInvMassMatrixDirty = false.
Proof.
  unfold updateInvMassMatrix. intros Hrun.
  repeat (apply bind_ok_inv in Hrun as (? & ? & _ & Hrun); cbn beta zeta in Hrun).
  injection Hrun as <-. apply fn_lookup_insert.
Qed.

Lemma flagBlindUpdater_clears_flag (f : DirtyFlag) (U : Op unit) (s s' : Skel) :
  (f, U) ∈ flagBlindUpdaters st ct -> U s = Ok tt s' -> dirty s' f = false.
Proof.
  intros Hin Hrun.
  rewrite (tracksDirty_flags _ _ _ _ _ (flagBlindUpdaters_track f U Hin) Hrun).
  apply fn_lookup_insert.
Qed.

(** An accessor that recomputes on a set flag: what it returns is the
    member it guards, the flag is clear afterwards, and asked again it
    returns the same value without a change of state. *)
Lemma accessor_cached {V} (f : DirtyFlag) (U : Op unit) (read : Skel -> V)
    (s : Skel) (v : V) (s' : Skel) :
  (forall s s', U s = Ok tt s' -> dirty s' f = false) ->
  let acc : Op V :=
    s ← get; (if dirty s f then U else mret tt);; s ← get; mret (read s) in
  acc s = Ok v s' ->
  v = read s' /\ dirty s' f = false /\ acc s' = Ok v s'.
Proof.
  intros HU acc Hrun. unfold acc in *.
  assert (v = read s' /\ dirty s' f = false) as [-> Hf].
  { unfold mbind, Op_bind, get in Hrun.
    destruct (dirty s f) eqn:Hflag.
    - destruct (U s) as [[] s1|] eqn:Hupd; [|done].
      cbn in Hrun. injection Hrun as <- <-. split; [done|]. by eapply HU.
    - cbn in Hrun. by injection Hrun as <- <-. }
  repeat split; [done|]. unfold mbind, Op_bind, get. by rewrite Hf.
Qed.

(** X2. Each of the eight lazily evaluated accessors returns the member it
    guards and leaves its flag clear, so that a second call right after
    the first recomputes nothing: it returns the same value and leaves the
    whole state, the log of the calls on the bodies included, as it is. *)
Theorem accessors_reuse_cache :
  (forall f k acc (s : Skel) m s',
     (f, k, acc) ∈ matrixAccessors st ct -> acc s = Ok m s' ->
     m = matrix s' k /\ dirty s' f = false /\ acc s' = Ok m s') /\
  (forall f k acc (s : Skel) v s',
     (f, k, acc) ∈ vectorAccessors st ct -> acc s = Ok v s' ->
     v = vector s' k /\ dirty s' f = false /\ acc s' = Ok v s').
Proof.
  split.
  - intros f k acc s m s' Hin. unfold matrixAccessors in Hin.
    repeat (apply elem_of_cons in Hin as [[= -> -> ->]|Hin]).
    + apply (accessor_cached mIsMassMatrixDirty (updateMassMatrix st ct)
               (fun s => matrix s mM)).
      apply updateMassMatrix_clears_flag.
    + apply (accessor_cached mIsAugMassMatrixDirty (updateAugMassMatrix st ct)
               (fun s => matrix s mAugM)).
      intros s1 s2. apply flagBlindUpdater_clears_flag.
      unfold flagBlindUpdaters. in_list.
    + apply (accessor_cached mIsInvMassMatrixDirty (updateInvMassMatrix st ct)
               (fun s => matrix s mInvM)).
      apply updateInvMassMatrix_clears_flag.
    + apply (accessor_cached mIsInvAugMassMatrixDirty
               (updateInvAugMassMatrix st ct) (fun s => matrix s mInvAugM)).
      intros s1 s2. apply flagBlindUpdater_clears_flag.
      unfold flagBlindUpdaters. in_list.
    + by apply elem_of_nil in Hin.
  - intros f k acc s v s' Hin. unfold vectorAccessors in Hin.
    repeat (apply elem_of_cons in Hin as [[= -> -> ->]|Hin]).
    + apply (accessor_cached mIsCoriolisVectorDirty
               (updateCoriolisForceVector ct) (fun s => vector s mCvec)).
      intros s1 s2. apply flagBlindUpdater_clears_flag.
      unfold flagBlindUpdaters. in_list.
    + apply (accessor_cached mIsGravityForceVectorDirty
               (updateGravityForceVector ct) (fun s => vector s mG)).
      intros s1 s2. apply flagBlindUpdater_clears_flag.
      unfold flagBlindUpdaters. in_list.
    + apply (accessor_cached mIsCombinedVectorDirty
               (updateCombinedVector ct) (fun s => vector s mCg)).
      intros s1 s2. apply flagBlindUpdater_clears_flag.
      unfold flagBlindUpdaters. in_list.
    + apply (accessor_cached mIsExternalForceVectorDirty
               (updateExternalForceVector st ct) (fun s => vector s mFext)).
      intros s1 s2. apply flagBlindUpdater_clears_flag.
      unfold flagBlindUpdaters. in_list.
    + by apply elem_of_nil in Hin.
Qed.

End Flags.

Section MatrixTheorems.
Context {Scalar : Type} `{ScalarOps Scalar} {Internals : Type}.
Context (st : Structure Scalar) (ct : BodyNodeContract Scalar Internals).

Abbreviation Skel := (Skeleton Scalar Internals).

(** X3. On a skeleton with dof > 0 whose augmented mass matrix has been
    allocated, the matrix that getAugMassMatrix returns is equal to its
    transpose, whether this call recomputes it (updateAugMassMatrix ends by
    assigning the strictly upper triangle from the transpose) or an earlier
    one did. *)
Theorem getAugMassMatrix_symmetric (s : Skel) :
  keepsDimensions ct ->
  0 < getDof (objects s) ->
  cols (matrix s mAugM) = getDof (objects s) ->
  rows (matrix s mAugM) = getDof (objects s) ->
  (dirty s mIsAugMassMatrixDirty = false ->
   matEq (matrix s mAugM) (transpose (matrix s mAugM))) ->
  exists m s', getAugMassMatrix st ct s = Ok m s' /\
               m = matrix s' mAugM /\ matEq m (transpose m).
Proof.
  intros Hk Hdof Hcols Hrows Hcached. apply wp_ok.
  unfold getAugMassMatrix. wp_step. wp_step. wp_step.
  destruct (dirty s mIsAugMassMatrixDirty) eqn:Hflag.
  - eapply wp_mono; [by apply updateAugMassMatrix_spec|].
    intros ? s' (Hsym & _). cbn beta. wp_steps. split; [done | by apply Hsym].
  - wp_steps. split; [done | by apply Hcached].
Qed.

(** X4. The same for the inverse mass matrix: updateInvMassMatrix ends by
    assigning the strictly lower triangle from the transpose, so that the
    matrix returned by getInvMassMatrix is equal to its transpose. *)
Theorem getInvMassMatrix_symmetric (s : Skel) :
  keepsDimensions ct ->
  0 < getDof (objects s) ->
  cols (matrix s mInvM) = getDof (objects s) ->
  rows (matrix s mInvM) = getDof (objects s) ->
  (dirty s mIsInvMassMatrixDirty = false ->
   matEq (matrix s mInvM) (transpose (matrix s mInvM))) ->
  exists m s', getInvMassMatrix st ct s = Ok m s' /\
               m = matrix s' mInvM /\ matEq m (transpose m).
Proof.
  intros Hk Hdof Hcols Hrows Hcached. apply wp_ok.
  unfold getInvMassMatrix. wp_step. wp_step. wp_step.
  destruct (dirty s mIsInvMassMatrixDirty) eqn:Hflag.
  - eapply wp_mono; [by apply updateInvMassMatrix_spec|].
    intros ? s' (Hsym & _). cbn beta. wp_steps. split; [done | by apply Hsym].
  - wp_steps. split; [done | by apply Hcached].
Qed.

(** X5. The same for the inverse of the augmented mass matrix, returned by
    getInvAugMassMatrix. *)
Theorem getInvAugMassMatrix_symmetric (s : Skel) :
  keepsDimensions ct ->
  0 < getDof (objects s) ->
  cols (matrix s mInvAugM) = getDof (objects s) ->
  rows (matrix s mInvAugM) = getDof (objects s) ->
  (dirty s mIsInvAugMassMatrixDirty = false ->
   matEq (matrix s mInvAugM) (transpose (matrix s mInvAugM))) ->
  exists m s', getInvAugMassMatrix st ct s = Ok m s' /\
               m = matrix s' mInvAugM /\ matEq m (transpose m).
Proof.
  intros Hk Hdof Hcols Hrows Hcached. apply wp_ok.
  unfold getInvAugMassMatrix. wp_step. wp_step. wp_step.
  destruct (dirty s mIsInvAugMassMatrixDirty) eqn:Hflag.
  - eapply wp_mono; [by apply updateInvAugMassMatrix_spec|].
    intros ? s' (Hsym & _). cbn beta. wp_steps. split; [done | by apply Hsym].
  - wp_steps. split; [done | by apply Hcached].
Qed.

(** X6. updateAugMassMatrix leaves the public state as it found it, when
    BodyNode::updateMassMatrix and aggregateAugMassMatrix do not write the
    generalized coordinates: the accelerations it overwrote with unit
    vectors are written back (through GenCoordSystem::setAccelerations, so
    that no forward kinematics runs), the positions, velocities and forces
    are untouched, the only flag that changes is the one of the augmented
    mass matrix, which is cleared, and no other matrix or vector of the
    skeleton is written. *)
Theorem updateAugMassMatrix_restores_accelerations (s : Skel) :
  callKeepsGenCoords ct BodyNode.updateMassMatrix ->
  (forall j, matCallKeepsGenCoords ct
               (BodyNode.aggregateAugMassMatrix j (mTimeStep s))) ->
  0 < getDof (objects s) ->
  cols (matrix s mAugM) = getDof (objects s) ->
  rows (matrix s mAugM) = getDof (objects s) ->
  exists s',
    updateAugMassMatrix st ct s = Ok tt s' /\
    mGenCoords (objects s') = mGenCoords (objects s) /\
    (forall f, dirty s' f
               = if decide (f = mIsAugMassMatrixDirty) then false else dirty s f) /\
    (forall k, k <> mAugM -> matrix s' k = matrix s k) /\
    vector s' = vector s.
Proof.
  intros Hprep Hagg Hdof Hcols Hrows.
  pose proof (updateAugMassMatrix_spec st ct s Hdof Hcols Hrows) as Hwp.
  apply wp_run in Hwp as (s' & Hrun & _ & Hgc & Hmat & Hvec).
  exists s'. repeat split; [done|by apply Hgc| |done..].
  intros f.
  rewrite (tracksDirty_flags _ _ _ _ _
             (flagBlindUpdaters_track st ct mIsAugMassMatrixDirty _
                ltac:(unfold flagBlindUpdaters; in_list)) Hrun).
  case_decide as Hf.
  - subst. apply fn_lookup_insert.
  - by rewrite fn_lookup_insert_ne.
Qed.

(** X7. updateInvMassMatrix writes the generalized forces back: when
    BodyNode::updateArtInertia, updateInvMassMatrix and
    aggregateInvMassMatrix do not write the generalized coordinates, these
    are on return what they were on entry.  The flags of the inverse mass
    matrix and of the articulated inertia are clear on return, every other
    flag is as it was, and no other matrix or vector of the skeleton is
    written. *)
Theorem updateInvMassMatrix_restores_forces (s : Skel) :
  callKeepsGenCoords ct (BodyNode.updateArtInertia (mTimeStep s)) ->
  callKeepsGenCoords ct BodyNode.updateInvMassMatrix ->
  (forall j, matCallKeepsGenCoords ct (BodyNode.aggregateInvMassMatrix j)) ->
  0 < getDof (objects s) ->
  cols (matrix s mInvM) = getDof (objects s) ->
  rows (matrix s mInvM) = getDof (objects s) ->
  exists s',
    updateInvMassMatrix st ct s = Ok tt s' /\
    mGenCoords (objects s') = mGenCoords (objects s) /\
    (forall f, dirty s' f
               = if decide (f = mIsInvMassMatrixDirty) then false
                 else if decide (f = mIsArticulatedInertiaDirty) then false
                 else dirty s f) /\
    (forall k, k <> mInvM -> matrix s' k = matrix s k) /\
    vector s' = vector s.
Proof.
  intros Hart Hprep Hagg Hdof Hcols Hrows.
  pose proof (updateInvMassMatrix_spec st ct s Hdof Hcols Hrows) as Hwp.
  apply wp_run in Hwp as (s' & Hrun & _ & Hgc & Hmat & Hvec & Hd).
  exists s'. repeat split; [done|by apply Hgc|done..].
Qed.

(** X8. updateInvAugMassMatrix writes the generalized forces back: when
    BodyNode::updateInvAugMassMatrix and aggregateInvAugMassMatrix do not
    write the generalized coordinates, these are on return what they were
    on entry.  The only flag that changes is the one of the inverse
    augmented mass matrix, and no other matrix or vector of the skeleton
    is written. *)
Theorem updateInvAugMassMatrix_restores_forces (s : Skel) :
  callKeepsGenCoords ct BodyNode.updateInvAugMassMatrix ->
  (forall j, matCallKeepsGenCoords ct
               (BodyNode.aggregateInvAugMassMatrix j (mTimeStep s))) ->
  0 < getDof (objects s) ->
  cols (matrix s mInvAugM) = getDof (objects s) ->
  rows (matrix s mInvAugM) = getDof (objects s) ->
  exists s',
    updateInvAugMassMatrix st ct s = Ok tt s' /\
    mGenCoords (objects s') = mGenCoords (objects s) /\
    (forall f, dirty s' f
               = if decide (f = mIsInvAugMassMatrixDirty) then false
                 else dirty s f) /\
    (forall k, k <> mInvAugM -> matrix s' k = matrix s k) /\
    vector s' = vector s.
Proof.
  intros Hprep Hagg Hdof Hcols Hrows.
  pose proof (updateInvAugMassMatrix_spec st ct s Hdof Hcols Hrows) as Hwp.
  apply wp_run in Hwp as (s' & Hrun & _ & Hgc & Hmat & Hvec).
  exists s'. repeat split; [done|by apply Hgc| |done..].
  intros f.
  rewrite (tracksDirty_flags _ _ _ _ _
             (flagBlindUpdaters_track st ct mIsInvAugMassMatrixDirty _
                ltac:(unfold flagBlindUpdaters; in_list)) Hrun).
  case_decide as Hf.
  - subst. apply fn_lookup_insert.
  - by rewrite fn_lookup_insert_ne.
Qed.

End MatrixTheorems.

(** ** The dynamics drivers *)

Section Dynamics.
Context {Scalar : Type} `{ScalarOps Scalar} {Internals : Type}.
Context (st : Structure Scalar) (ct : BodyNodeContract Scalar Internals).

Abbreviation Skel := (Skeleton Scalar Internals).

Lemma wp_callBody3 (b : BodyId) (c1 c2 c3 : BodyNode.Call Scalar) (s : Skel) :
  wp (callBody ct b c1;; callBody ct b c2;; callBody ct b c3)
     (fun _ s' => callsOnly s s' (OnBody b <$> [c1; c2; c3])) s.
Proof.
  wp_steps. repeat split. cbn. by rewrite <- !(assoc_L (++)).
Qed.

Lemma wp_callBody4 (b : BodyId) (c1 c2 c3 c4 : BodyNode.Call Scalar) (s : Skel) :
  wp (callBody ct b c1;; callBody ct b c2;; callBody ct b c3;; callBody ct b c4)
     (fun _ s' => callsOnly s s' (OnBody b <$> [c1; c2; c3; c4])) s.
Proof.
  wp_steps. repeat split. cbn. by rewrite <- !(assoc_L (++)).
Qed.

(** The last loop of the kinematics passes sets both Jacobian flags of
    every body it visits, and nothing is done after it. *)
Lemma wp_jacobianFlags_set (l : list BodyId) (s : Skel) :
  wp (forEach l (fun it =>
        onObjects (fun w =>
          set_mIsBodyJacobianDirty (<[it := true]> (mIsBodyJacobianDirty w)) w);;
        onObjects (fun w =>
          set_mIsBodyJacobianTimeDerivDirty
            (<[it := true]> (mIsBodyJacobianTimeDerivDirty w)) w)))
     (fun _ s' => forall b, b ∈ l -> jacobiansDirty (objects s') b) s.
Proof.
  apply (wp_forEach_acc l _
           (fun done s' => forall b, b ∈ done -> jacobiansDirty (objects s') b)).
  - intros b Hb. by apply elem_of_nil in Hb.
  - intros done x s1 _ H1. wp_steps. intros b Hb. unfold jacobiansDirty. cbn.
    destruct (decide (b = x)) as [->|Hne].
    + by rewrite !fn_lookup_insert.
    + rewrite !fn_lookup_insert_ne by done. apply H1.
      apply elem_of_app in Hb as [Hb|Hb]; [done|].
      by apply list_elem_of_singleton in Hb.
Qed.

(** The nine assignments to the flags, followed by the loop over the
    Jacobian flags. *)
Lemma wp_invalidate (l : list BodyId) (s : Skel) :
  wp (setDirty mIsArticulatedInertiaDirty true;;
      setDirty mIsMassMatrixDirty true;;
      setDirty mIsAugMassMatrixDirty true;;
      setDirty mIsInvMassMatrixDirty true;;
      setDirty mIsInvAugMassMatrixDirty true;;
      setDirty mIsCoriolisVectorDirty true;;
      setDirty mIsGravityForceVectorDirty true;;
      setDirty mIsCombinedVectorDirty true;;
      setDirty mIsExternalForceVectorDirty true;;
      forEach l (fun it =>
        onObjects (fun w =>
          set_mIsBodyJacobianDirty (<[it := true]> (mIsBodyJacobianDirty w)) w);;
        onObjects (fun w =>
          set_mIsBodyJacobianTimeDerivDirty
            (<[it := true]> (mIsBodyJacobianTimeDerivDirty w)) w)))
     (fun _ s' =>
        sameMembers s s' /\ calls s' = calls s /\
        (forall f, dirty s' f
                   = if bool_decide (f ∈ kinematicsFlags) then true else dirty s f) /\
        (forall b, b ∈ l -> jacobiansDirty (objects s') b)) s.
Proof.
  do 9 (wp_step; wp_step). eapply wp_mono.
  { apply wp_conj; [apply wp_jacobianFlags | apply wp_jacobianFlags_set]. }
  intros ? s' (((Hm & Hd & Hc) & _) & Hj). cbn beta in *.
  cbn in Hm, Hd, Hc. split; [|split; [|split]].
  - frame.
  - by rewrite Hc, app_nil_r.
  - intros f. rewrite Hd. apply dirty_raised.
  - done.
Qed.

Lemma computeForwardDynamicsRecursionPartA_spec (s : Skel) :
  wp (computeForwardDynamicsRecursionPartA ct)
     (fun _ s' =>
        sameMembers s s' /\
        calls s' = calls s
                   ++ (b ← mBodyNodes s;
                       OnBody b <$> [BodyNode.updateTransform;
                                     BodyNode.updateVelocity;
                                     BodyNode.updatePartialAcceleration]) /\
        (forall f, dirty s' f
                   = if bool_decide (f ∈ kinematicsFlags) then true else dirty s f) /\
        (forall b, b ∈ mBodyNodes s -> jacobiansDirty (objects s') b)) s.
Proof.
  unfold computeForwardDynamicsRecursionPartA. wp_step. wp_step.
  wp_step. eapply wp_mono.
  { apply (wp_bodyPass (fun _ => [BodyNode.updateTransform;
                                     BodyNode.updateVelocity;
                                     BodyNode.updatePartialAcceleration])).
    intros b s0. apply wp_callBody3. }
  intros ? s1 (Hm1 & Hd1 & Hc1). cbn beta.
  eapply wp_mono; [apply wp_invalidate|].
  intros ? s2 (Hm2 & Hc2 & Hd2 & Hj2). cbn beta. split; [|split; [|split]].
  - exact (sameMembers_trans _ _ _ Hm1 Hm2).
  - by rewrite Hc2, Hc1.
  - intros f. by rewrite Hd2, Hd1.
  - done.
Qed.

Lemma computeInverseDynamicsRecursionA_spec (s : Skel) :
  wp (computeInverseDynamicsRecursionA ct)
     (fun _ s' =>
        sameMembers s s' /\
        calls s' = calls s
                   ++ (b ← mBodyNodes s;
                       OnBody b <$> [BodyNode.updateTransform;
                                     BodyNode.updateVelocity;
                                     BodyNode.updatePartialAcceleration;
                                     BodyNode.updateAcceleration]) /\
        (forall f, dirty s' f
                   = if bool_decide (f ∈ kinematicsFlags) then true else dirty s f) /\
        (forall b, b ∈ mBodyNodes s -> jacobiansDirty (objects s') b)) s.
Proof.
  unfold computeInverseDynamicsRecursionA. wp_step. wp_step.
  wp_step. eapply wp_mono.
  { apply (wp_bodyPass (fun _ => [BodyNode.updateTransform;
                                     BodyNode.updateVelocity;
                                     BodyNode.updatePartialAcceleration;
                                     BodyNode.updateAcceleration])).
    intros b s0. apply wp_callBody4. }
  intros ? s1 (Hm1 & Hd1 & Hc1). cbn beta.
  eapply wp_mono; [apply wp_invalidate|].
  intros ? s2 (Hm2 & Hc2 & Hd2 & Hj2). cbn beta. split; [|split; [|split]].
  - exact (sameMembers_trans _ _ _ Hm1 Hm2).
  - by rewrite Hc2, Hc1.
  - intros f. by rewrite Hd2, Hd1.
  - done.
Qed.

Lemma computeForwardDynamicsRecursionPartB_spec (s : Skel) :
  wp (computeForwardDynamicsRecursionPartB ct)
     (fun _ s' =>
        sameMembers s s' /\
        calls s' = calls s
                   ++ (b ← reverse (mBodyNodes s);
                       OnBody b <$> [BodyNode.updateArtInertia (mTimeStep s);
                                     BodyNode.updateBiasForce (mGravity s)
                                                              (mTimeStep s)])
                   ++ (b ← mBodyNodes s;
                       OnBody b <$> [BodyNode.updateJointAndBodyAcceleration;
                                     BodyNode.updateTransmittedForce]) /\
        (forall f, dirty s' f
                   = if decide (f = mIsArticulatedInertiaDirty) then false
                     else dirty s f)) s.
Proof.
  unfold computeForwardDynamicsRecursionPartB. wp_step. wp_step.
  wp_step. eapply wp_mono.
  { apply (wp_bodyPass (fun _ => [BodyNode.updateArtInertia (mTimeStep s);
                                     BodyNode.updateBiasForce (mGravity s)
                                                              (mTimeStep s)])).
    intros b s0. apply wp_callBody2. }
  intros ? s1 (Hm1 & Hd1 & Hc1). cbn beta.
  wp_step. wp_step. eapply wp_mono.
  { apply (wp_bodyPass (fun _ => [BodyNode.updateJointAndBodyAcceleration;
                                     BodyNode.updateTransmittedForce])).
    intros b s0. apply wp_callBody2. }
  intros ? s2 (Hm2 & Hd2 & Hc2). cbn beta.
  cbn in Hm2, Hd2, Hc2. split; [|split].
  - eapply sameMembers_trans; [exact Hm1|]. frame.
  - by rewrite Hc2, Hc1, <- (assoc_L (++)).
  - intros f. rewrite Hd2. case_decide as Hf.
    + subst. apply fn_lookup_insert.
    + rewrite fn_lookup_insert_ne by done. by rewrite Hd1.
Qed.

(** X9. The three kinematics passes -- computeForwardKinematics with any
    flags, computeForwardDynamicsRecursionPartA and
    computeInverseDynamicsRecursionA -- end by invalidating: on return the
    nine flags of the cached quantities are set, and so are both Jacobian
    flags of every body of the skeleton. *)
Theorem kinematics_passes_invalidate
    (uT uV uA : bool) (s : Skel) (pass : Op unit) :
  pass ∈ [computeForwardKinematics ct uT uV uA;
          computeForwardDynamicsRecursionPartA ct;
          computeInverseDynamicsRecursionA ct] ->
  exists s',
    pass s = Ok tt s' /\
    (forall f, f ∈ kinematicsFlags -> dirty s' f = true) /\
    (forall b, b ∈ mBodyNodes s -> jacobiansDirty (objects s') b).
Proof.
  intros Hin. apply wp_run.
  repeat (apply elem_of_cons in Hin as [->|Hin]).
  - unfold computeForwardKinematics. wp_step. wp_step.
    wp_step. eapply wp_mono.
    { apply (wp_optionalPass uT (fun _ => [BodyNode.updateTransform])).
      intros b s0. apply wp_callBody1. }
    intros ? s1 _. cbn beta.
    wp_step. eapply wp_mono.
    { apply (wp_optionalPass uV (fun _ => [BodyNode.updateVelocity;
                                             BodyNode.updatePartialAcceleration])).
      intros b s0. apply wp_callBody2. }
    intros ? s2 _. cbn beta.
    wp_step. eapply wp_mono.
    { apply (wp_optionalPass uA (fun _ => [BodyNode.updateAcceleration])).
      intros b s0. apply wp_callBody1. }
    intros ? s3 _. cbn beta.
    eapply wp_mono; [apply wp_invalidate|].
    intros ? s4 (_ & _ & Hd & Hj). split; [|done].
    intros f Hf. by rewrite Hd, bool_decide_true.
  - eapply wp_mono; [apply computeForwardDynamicsRecursionPartA_spec|].
    intros ? s' (_ & _ & Hd & Hj). split; [|done].
    intros f Hf. by rewrite Hd, bool_decide_true.
  - eapply wp_mono; [apply computeInverseDynamicsRecursionA_spec|].
    intros ? s' (_ & _ & Hd & Hj). split; [|done].
    intros f Hf. by rewrite Hd, bool_decide_true.
  - by apply elem_of_nil in Hin.
Qed.

(** X10. computeForwardDynamics makes three passes over the bodies: first
    to last updateTransform, updateVelocity and updatePartialAcceleration;
    last to first updateArtInertia(mTimeStep) and updateBiasForce(mGravity,
    mTimeStep); first to last updateJointAndBodyAcceleration and
    updateTransmittedForce.  It returns with the flag of the articulated
    inertia clear and with the flags of the other cached quantities set. *)
Theorem computeForwardDynamics_passes (s : Skel) :
  exists s',
    computeForwardDynamics ct s = Ok tt s' /\
    calls s' = calls s
               ++ (b ← mBodyNodes s;
                   OnBody b <$> [BodyNode.updateTransform;
                                 BodyNode.updateVelocity;
                                 BodyNode.updatePartialAcceleration])
               ++ (b ← reverse (mBodyNodes s);
                   OnBody b <$> [BodyNode.updateArtInertia (mTimeStep s);
                                 BodyNode.updateBiasForce (mGravity s)
                                                          (mTimeStep s)])
               ++ (b ← mBodyNodes s;
                   OnBody b <$> [BodyNode.updateJointAndBodyAcceleration;
                                 BodyNode.updateTransmittedForce]) /\
    (forall f, dirty s' f
               = if decide (f = mIsArticulatedInertiaDirty) then false
                 else if bool_decide (f ∈ kinematicsFlags) then true
                 else dirty s f) /\
    sameMembers s s'.
Proof.
  apply wp_run. unfold computeForwardDynamics. wp_step.
  eapply wp_mono; [apply computeForwardDynamicsRecursionPartA_spec|].
  intros ? s1 (Hm1 & Hc1 & Hd1 & _). cbn beta.
  eapply wp_mono; [apply computeForwardDynamicsRecursionPartB_spec|].
  intros ? s2 (Hm2 & Hc2 & Hd2). cbn beta.
  pose proof Hm1 as (Hts & Hg & _ & _ & _ & Hb & _).
  rewrite Hts, Hg, Hb in Hc2. split; [|split].
  - by rewrite Hc2, Hc1, <- !(assoc_L (++)).
  - intros f. rewrite Hd2. case_decide; [done|]. apply Hd1.
  - exact (sameMembers_trans _ _ _ Hm1 Hm2).
Qed.

(** X11. computeInverseDynamicsRecursionB returns at once on a skeleton
    without degrees of freedom.  On any other skeleton, mobile or not (the
    function does not look at mIsMobile), it calls
    updateBodyForce(mGravity, _withExternalForces) and
    updateGeneralizedForce(_withDampingForces) on every body, last to
    first, and writes no dirty flag. *)
Theorem computeInverseDynamicsRecursionB_passes
    (ext damp mobile : bool) (s : Skel) :
  (getDof (objects s) = 0 ->
   computeInverseDynamicsRecursionB ct ext damp (with_mIsMobile mobile s)
   = Ok tt (with_mIsMobile mobile s)) /\
  (0 < getDof (objects s) ->
   exists s',
     computeInverseDynamicsRecursionB ct ext damp (with_mIsMobile mobile s)
     = Ok tt s' /\
     calls s' = calls s
                ++ (b ← reverse (mBodyNodes s);
                    OnBody b <$> [BodyNode.updateBodyForce (mGravity s) ext;
                                  BodyNode.updateGeneralizedForce damp]) /\
     dirty s' = dirty s /\ mIsMobile s' = mobile).
Proof.
  split.
  - intros Hdof. unfold computeInverseDynamicsRecursionB, mbind, Op_bind, get.
    cbn. by rewrite Hdof.
  - intros Hdof. apply wp_run.
    unfold computeInverseDynamicsRecursionB. wp_step. wp_step.
    cbn [objects with_mIsMobile mBodyNodes mGravity].
    destruct (getDof (objects s) =? 0) eqn:Hz; [apply Nat.eqb_eq in Hz; lia|].
    eapply wp_mono.
    { apply (wp_bodyPass (fun _ => [BodyNode.updateBodyForce (mGravity s) ext;
                                       BodyNode.updateGeneralizedForce damp])).
      intros b s0. apply wp_callBody2. }
    intros ? s1 (Hm1 & Hd1 & Hc1). cbn beta. cbn in Hd1, Hc1.
    repeat split; [done..|]. by destruct Hm1 as (_ & _ & _ & -> & _).
Qed.

(** X12. On a mobile skeleton with dof > 0, computeImpulseForwardDynamics
    makes three passes over the bodies: last to first updateBiasImpulse,
    preceded on each body by updateArtInertia(mTimeStep) exactly when the
    flag of the articulated inertia is set on entry; first to last
    updateJointVelocityChange and updateBodyImpForceFwdDyn; first to last
    updateConstrainedJointAndBodyAcceleration(mTimeStep) and
    updateConstrainedTransmittedForce(mTimeStep).  The flag of the
    articulated inertia is clear on return and no other flag is written. *)
Theorem computeImpulseForwardDynamics_passes (s : Skel) :
  mIsMobile s = true ->
  0 < getDof (objects s) ->
  exists s',
    computeImpulseForwardDynamics ct s = Ok tt s' /\
    calls s' = calls s
               ++ (b ← reverse (mBodyNodes s);
                   OnBody b <$>
                     ((if dirty s mIsArticulatedInertiaDirty
                       then [BodyNode.updateArtInertia (mTimeStep s)] else [])
                      ++ [BodyNode.updateBiasImpulse]))
               ++ (b ← mBodyNodes s;
                   OnBody b <$> [BodyNode.updateJointVelocityChange;
                                 BodyNode.updateBodyImpForceFwdDyn])
               ++ (b ← mBodyNodes s;
                   OnBody b <$>
                     [BodyNode.updateConstrainedJointAndBodyAcceleration
                        (mTimeStep s);
                      BodyNode.updateConstrainedTransmittedForce (mTimeStep s)]) /\
    (forall f, dirty s' f
               = if decide (f = mIsArticulatedInertiaDirty) then false
                 else dirty s f) /\
    sameMembers s s'.
Proof.
  intros Hmobile Hdof. apply wp_run.
  unfold computeImpulseForwardDynamics. wp_step. wp_step.
  unfold isMobile. rewrite Hmobile.
  destruct (getDof (objects s) =? 0) eqn:Hz; [apply Nat.eqb_eq in Hz; lia|].
  cbn [negb orb]. wp_step. eapply wp_mono.
  { instantiate (1 := fun _ s1 =>
      callsOnly s (with_dirty (dirty s) s1)
        (b ← reverse (mBodyNodes s);
         OnBody b <$>
           ((if dirty s mIsArticulatedInertiaDirty
             then [BodyNode.updateArtInertia (mTimeStep s)] else [])
            ++ [BodyNode.updateBiasImpulse])) /\
      (forall f, dirty s1 f
                 = if decide (f = mIsArticulatedInertiaDirty) then false
                   else dirty s f)).
    destruct (dirty s mIsArticulatedInertiaDirty) eqn:Hflag.
    - wp_step. eapply wp_mono.
      { apply (wp_bodyPass (fun _ => [BodyNode.updateArtInertia (mTimeStep s);
                                         BodyNode.updateBiasImpulse])).
        intros b s0. apply wp_callBody2. }
      intros ? s1 (Hm1 & Hd1 & Hc1). cbn beta. wp_step. split.
      + frame.
      + intros f. cbn. rewrite Hd1. case_decide as Hf.
        * subst. apply fn_lookup_insert.
        * by rewrite fn_lookup_insert_ne.
    - eapply wp_mono.
      { apply (wp_bodyPass (fun _ => [BodyNode.updateBiasImpulse])).
        intros b s0. apply wp_callBody1. }
      intros ? s1 (Hm1 & Hd1 & Hc1). cbn beta. split.
      + frame.
      + intros f. rewrite Hd1. case_decide; by subst. }
  intros ? s1 ((Hm1 & _ & Hc1) & Hd1). cbn beta. cbn in Hm1, Hc1.
  wp_step. eapply wp_mono.
  { apply (wp_bodyPass (fun _ => [BodyNode.updateJointVelocityChange;
                                     BodyNode.updateBodyImpForceFwdDyn])).
    intros b s0. apply wp_callBody2. }
  intros ? s2 (Hm2 & Hd2 & Hc2). cbn beta.
  eapply wp_mono.
  { apply (wp_bodyPass
             (fun _ => [BodyNode.updateConstrainedJointAndBodyAcceleration
                          (mTimeStep s);
                        BodyNode.updateConstrainedTransmittedForce (mTimeStep s)])).
    intros b s0. apply wp_callBody2. }
  intros ? s3 (Hm3 & Hd3 & Hc3). cbn beta. split; [|split].
  - by rewrite Hc3, Hc2, Hc1, <- !(assoc_L (++)).
  - intros f. by rewrite Hd3, Hd2, Hd1.
  - eapply sameMembers_trans; [|exact Hm3].
    eapply sameMembers_trans; [|exact Hm2]. frame.
Qed.

End Dynamics.

(** ** The state vector and the generalized forces *)

Section State.
Context {Scalar : Type} `{ScalarOps Scalar} {Internals : Type}.
Context (st : Structure Scalar) (ct : BodyNodeContract Scalar Internals).

Abbreviation Skel := (Skeleton Scalar Internals).

Lemma storeField_length set (v : VectorXd Scalar) (gs : list (GenCoord Scalar)) :
  length (storeField set v gs) = length gs.
Proof. apply length_imap. Qed.

(** The field that is stored holds the vector afterwards. *)
Lemma storeField_stored (get : GenCoord Scalar -> Scalar) set
    (v : VectorXd Scalar) (gs : list (GenCoord Scalar)) :
  (forall x g, get (set x g) = x) ->
  length v = length gs ->
  get <$> storeField set v gs = v.
Proof.
  intros Hget. unfold storeField. revert v.
  induction gs as [|g gs IH]; intros [|x v] Hlen; try done.
  rewrite imap_cons, fmap_cons. cbn [lookup list_lookup]. rewrite Hget.
  f_equal. apply IH. by injection Hlen.
Qed.

(** The other fields keep their values. *)
Lemma storeField_other (get : GenCoord Scalar -> Scalar) set
    (v : VectorXd Scalar) (gs : list (GenCoord Scalar)) :
  (forall x g, get (set x g) = get g) ->
  get <$> storeField set v gs = get <$> gs.
Proof.
  intros Hget. unfold storeField. revert v.
  induction gs as [|g gs IH]; intros v; [done|].
  rewrite imap_cons, !fmap_cons. f_equal.
  - by destruct (v !! 0).
  - destruct v as [|x v]; [apply (IH []) | apply IH].
Qed.

(** Storing what is there changes nothing. *)
Lemma storeField_same (get : GenCoord Scalar -> Scalar) set
    (gs : list (GenCoord Scalar)) :
  (forall g, set (get g) g = g) ->
  storeField set (get <$> gs) gs = gs.
Proof.
  intros Hsame. unfold storeField.
  induction gs as [|g gs IH]; [done|].
  rewrite imap_cons, fmap_cons. cbn [lookup list_lookup]. rewrite Hsame.
  f_equal. etrans; [|exact IH]. by apply imap_ext.
Qed.

(** Forward kinematics keeps the generalized coordinates, when the
    per-body updates it calls do. *)
Lemma computeForwardKinematics_keeps_coords (uT uV uA : bool) (s : Skel) :
  (forall c, c ∈ kinematicsUpdates -> callKeepsGenCoords ct c) ->
  wp (computeForwardKinematics ct uT uV uA)
     (fun _ s' => mGenCoords (objects s') = mGenCoords (objects s)) s.
Proof.
  intros Hkeep. unfold computeForwardKinematics. wp_step. wp_step.
  set (I := fun s' : Skel => mGenCoords (objects s') = mGenCoords (objects s)).
  assert (forall c l s1, c ∈ kinematicsUpdates (Scalar:=Scalar) -> I s1 ->
            wp (forEach l (fun it => callBody ct it c)) (fun _ => I) s1) as Hpass.
  { intros c l s1 Hc H1. apply wp_forEach; [done|].
    intros b s2 _ H2. wp_step. unfold I in *. cbn. by rewrite (Hkeep c Hc). }
  wp_step. eapply wp_mono.
  { instantiate (1 := fun _ => I). destruct uT; [|done].
    apply Hpass; [|done]. unfold kinematicsUpdates. in_list. }
  intros ? s1 H1. cbn beta.
  wp_step. eapply wp_mono.
  { instantiate (1 := fun _ => I). destruct uV; [|done].
    apply wp_forEach; [done|]. intros b s2 _ H2. wp_steps. unfold I in *. cbn.
    rewrite (Hkeep BodyNode.updatePartialAcceleration),
            (Hkeep BodyNode.updateVelocity); [done|..];
      unfold kinematicsUpdates; in_list. }
  intros ? s2 H2. cbn beta.
  wp_step. eapply wp_mono.
  { instantiate (1 := fun _ => I). destruct uA; [|done].
    apply Hpass; [|done]. unfold kinematicsUpdates. in_list. }
  intros ? s3 H3. cbn beta.
  do 9 (wp_step; wp_step).
  apply (wp_forEach _ _ I); [done|]. intros b s4 _ H4. by wp_steps.
Qed.

(** X13. setState splits the vector it is given into a head and a tail of
    half its length, stores the head in the positions and the tail in the
    velocities; getState concatenates the positions and the velocities.
    Hence, on a vector of twice as many coefficients as the skeleton has
    coordinates, getState after setState returns the vector that was set
    (when the per-body kinematics updates do not write the coordinates);
    on a vector of odd length the assertion of setState fails. *)
Theorem getState_after_setState
    (_state : VectorXd Scalar) (uT uV uA : bool) (s : Skel) :
  (forall c, c ∈ kinematicsUpdates -> callKeepsGenCoords ct c) ->
  (length _state `mod` 2 <> 0 ->
   setState ct _state uT uV uA s = Fail AssertionFailed) /\
  (length _state = 2 * getDof (objects s) ->
   exists s', setState ct _state uT uV uA s = Ok tt s' /\
              getState s' = _state).
Proof.
  intros Hkeep. split.
  - intros Hodd. unfold setState, mbind, Op_bind.
    by rewrite bool_decide_eq_false_2.
  - intros Hlen. apply wp_run. unfold setState.
    assert (length _state / 2 = getDof (objects s)) as Hhalf.
    { rewrite Hlen, Nat.mul_comm. by apply Nat.div_mul. }
    rewrite Hhalf. replace (length _state - getDof (objects s))
      with (getDof (objects s)) by lia.
    wp_step. apply wp_assert.
    { apply bool_decide_eq_true_2. rewrite Hlen, Nat.mul_comm.
      apply Nat.Div0.mod_mul. }
    wp_step. wp_step. wp_step. wp_step.
    eapply wp_mono; [by apply computeForwardKinematics_keeps_coords|].
    intros ? s' Hgc. cbn beta. unfold getState, getConfigs, getGenVels.
    rewrite Hgc.
    cbn [objects with_objects mGenCoords set_mGenCoords
         GenCoordSystem_setPositions GenCoordSystem_setVelocities].
    rewrite (storeField_other q set_dq) by done.
    rewrite (storeField_stored q set_q) by (done || (rewrite length_take; unfold getDof in *; lia)).
    rewrite (storeField_stored dq set_dq).
    + apply take_drop.
    + done.
    + rewrite storeField_length, length_drop. unfold getDof in *. lia.
Qed.

(** X14. Setting the state to what getState returns writes every position
    and velocity back as it is, but it is not a no-op: like every setter
    it ends with computeForwardKinematics, which makes the per-body calls
    that its flags ask for and raises the nine flags of the cached
    quantities. *)
Theorem setState_of_getState (uT uV uA : bool) (s : Skel) :
  (forall c, c ∈ kinematicsUpdates -> callKeepsGenCoords ct c) ->
  exists s',
    setState ct (getState s) uT uV uA s = Ok tt s' /\
    mGenCoords (objects s') = mGenCoords (objects s) /\
    calls s' = calls s ++ kinematicsCalls uT uV uA (mBodyNodes s) /\
    (forall f, f ∈ kinematicsFlags -> dirty s' f = true).
Proof.
  intros Hkeep. apply wp_run. unfold setState.
  assert (length (getState s) = 2 * getDof (objects s)) as Hlen.
  { unfold getState, getConfigs, getGenVels, getDof.
    rewrite length_app, !length_fmap. lia. }
  assert (length (getState s) / 2 = getDof (objects s)) as Hhalf.
  { rewrite Hlen, Nat.mul_comm. by apply Nat.div_mul. }
  rewrite Hhalf. replace (length (getState s) - getDof (objects s))
    with (getDof (objects s)) by lia.
  wp_step. apply wp_assert.
  { apply bool_decide_eq_true_2. rewrite Hlen, Nat.mul_comm.
    apply Nat.Div0.mod_mul. }
  unfold getState.
  rewrite take_app_length' by (unfold getConfigs, getDof; by rewrite length_fmap).
  rewrite drop_app_length' by (unfold getConfigs, getDof; by rewrite length_fmap).
  wp_step. wp_step. wp_step. wp_step.
  eapply wp_mono.
  { apply wp_conj; [by apply computeForwardKinematics_keeps_coords|].
    apply computeForwardKinematics_spec. }
  intros ? s' (Hgc & Hm & Hc & Hd & _). cbn beta.
  cbn [objects with_objects mGenCoords set_mGenCoords calls dirty mBodyNodes
       GenCoordSystem_setPositions GenCoordSystem_setVelocities]
    in Hgc, Hc, Hd.
  split; [|split].
  - rewrite Hgc. unfold getConfigs, getGenVels.
    rewrite (storeField_same q set_q) by by intros [].
    by rewrite (storeField_same dq set_dq) by by intros [].
  - done.
  - intros f Hf. by rewrite Hd, bool_decide_true.
Qed.

Lemma fmap_alter_keep {A B} (f : A -> B) (g : A -> A) (i : nat) (l : list A) :
  (forall x, f (g x) = f x) -> f <$> alter g i l = f <$> l.
Proof.
  intros Hfg. apply list_eq. intros j.
  rewrite !list_lookup_fmap, list_lookup_alter.
  case_decide; [subst|done]. destruct (l !! j); cbn; by rewrite ?Hfg.
Qed.

(** The assignments of setConfigSegs, on the list of coordinates. *)
Lemma setPos_segs (ids : list nat) (vals : VectorXd Scalar)
    (gs : list (GenCoord Scalar)) :
  NoDup ids ->
  Forall (fun i => i < length gs) ids ->
  length vals = length ids ->
  let gs' := foldl (fun gs (ic : nat * Scalar) => alter (set_q ic.2) ic.1 gs)
                   gs (zip ids vals) in
  length gs' = length gs /\
  (forall k i, ids !! k = Some i -> q <$> gs' !! i = vals !! k) /\
  (forall i, i ∉ ids -> gs' !! i = gs !! i) /\
  dq <$> gs' = dq <$> gs /\ ddq <$> gs' = ddq <$> gs /\ tau <$> gs' = tau <$> gs.
Proof.
  revert vals gs. induction ids as [|i ids IH]; intros vals gs Hnd Hin Hlen.
  - cbn. repeat split; try done.
  - destruct vals as [|v vals]; [done|].
    apply NoDup_cons in Hnd as [Hni Hnd]. apply Forall_cons in Hin as [Hi Hin].
    cbn [zip zip_with foldl]. cbn zeta.
    destruct (IH vals (alter (set_q v) i gs)) as (Hl & Hq & Hne & Hdq & Hddq & Htau).
    { done. }
    { eapply Forall_impl; [exact Hin|]. intros j Hj. cbn. by rewrite length_alter. }
    { by injection Hlen. }
    cbn zeta in *. cbn [fst snd] in *.
    split; [by rewrite Hl, length_alter|]. split; [|split; [|split; [|split]]].
    + intros [|k] j Hk.
      * injection Hk as <-. rewrite (Hne i Hni), list_lookup_alter.
        destruct (lookup_lt_is_Some_2 gs i Hi) as [g ->]. by rewrite decide_True.
      * by apply Hq.
    + intros j Hj. apply not_elem_of_cons in Hj as [Hji Hj].
      rewrite (Hne j Hj). by apply list_lookup_alter_ne.
    + rewrite Hdq. by apply fmap_alter_keep.
    + rewrite Hddq. by apply fmap_alter_keep.
    + rewrite Htau. by apply fmap_alter_keep.
Qed.

(** X15. setConfigSegs stores the i-th value in the position of the i-th
    coordinate listed.  When the indices listed are those of coordinates of
    the skeleton and no index is listed twice, getConfigSegs on the same
    list returns the values that were set; the positions of the coordinates
    not listed, and all velocities, accelerations and forces, are what
    they were (the per-body kinematics updates being assumed not to write
    the coordinates). *)
Theorem getConfigSegs_after_setConfigSegs
    (_id : list nat) (_configs : VectorXd Scalar) (uT uV uA : bool) (s : Skel) :
  (forall c, c ∈ kinematicsUpdates -> callKeepsGenCoords ct c) ->
  NoDup _id ->
  Forall (fun i => i < getDof (objects s)) _id ->
  length _configs = length _id ->
  exists s',
    setConfigSegs ct _id _configs uT uV uA s = Ok tt s' /\
    getConfigSegs _id s' = _configs /\
    (forall i, i ∉ _id -> coordAt (objects s') i = coordAt (objects s) i) /\
    getGenVels (objects s') = getGenVels (objects s) /\
    getGenAccs (objects s') = getGenAccs (objects s) /\
    getGenForces (objects s') = getGenForces (objects s).
Proof.
  intros Hkeep Hnd Hin Hlen. apply wp_run. unfold setConfigSegs.
  wp_step. eapply wp_mono.
  { apply (wp_forEach_acc (zip _id _configs) _
             (fun done s' =>
                mGenCoords (objects s')
                = foldl (fun gs (ic : nat * Scalar) => alter (set_q ic.2) ic.1 gs)
                        (mGenCoords (objects s)) done)); [done|].
    intros done x s1 _ H1. wp_step. cbn. by rewrite foldl_app, H1. }
  intros ? s1 H1. cbn beta.
  eapply wp_mono; [by apply computeForwardKinematics_keeps_coords|].
  intros ? s' Hgc. cbn beta. rewrite H1 in Hgc.
  destruct (setPos_segs _id _configs (mGenCoords (objects s)) Hnd Hin Hlen)
    as (Hl & Hq & Hne & Hdq & Hddq & Htau). cbn zeta in *.
  unfold getConfigSegs, coordAt, getGenVels, getGenAccs, getGenForces.
  rewrite Hgc. repeat split; [|by intros i Hi; rewrite Hne|done..].
  apply list_eq. intros k. rewrite list_lookup_fmap.
  destruct (_id !! k) as [i|] eqn:Hk.
  - etrans; [|exact (Hq k i Hk)].
    assert (i < getDof (objects s)) as Hi
      by exact (proj1 (Forall_lookup _ _) Hin k i Hk).
    destruct (lookup_lt_is_Some_2 _ i ltac:(rewrite Hl; exact Hi)) as [g Hg].
    cbn. by rewrite Hg.
  - symmetry. apply lookup_ge_None. rewrite Hlen. by apply lookup_ge_None.
Qed.

(** X16. setInternalForceVector stores a vector of one coefficient per
    coordinate in the generalized forces, where getInternalForceVector
    reads it back; clearInternalForces stores zeros.  Neither touches the
    positions, velocities and accelerations, and neither writes a dirty
    flag or makes a call on a body. *)
Theorem internal_forces_stored (_forces : VectorXd Scalar) (s : Skel) :
  length _forces = getDof (objects s) ->
  (exists s',
     setInternalForceVector _forces s = Ok tt s' /\
     getInternalForceVector s' = _forces /\
     getState s' = getState s /\
     getGenAccs (objects s') = getGenAccs (objects s) /\
     dirty s' = dirty s /\ calls s' = calls s) /\
  (exists s',
     clearInternalForces s = Ok tt s' /\
     getInternalForceVector s' = VectorXd_Zero (getDof (objects s)) /\
     getState s' = getState s /\
     getGenAccs (objects s') = getGenAccs (objects s) /\
     dirty s' = dirty s /\ calls s' = calls s).
Proof.
  intros Hlen. split.
  - eexists. split; [reflexivity|].
    unfold getInternalForceVector, getState, getConfigs, getGenVels, getGenAccs,
      getGenForces. cbn.
    rewrite (storeField_stored tau set_tau) by done.
    by rewrite !(storeField_other _ set_tau) by done.
  - eexists. split; [reflexivity|].
    unfold getInternalForceVector, getState, getConfigs, getGenVels, getGenAccs,
      getGenForces. cbn.
    rewrite (storeField_stored tau set_tau)
      by (done || (unfold VectorXd_Zero; by rewrite length_replicate)).
    by rewrite !(storeField_other _ set_tau) by done.
Qed.

End State.

(** ** Initialization: what [init] leaves behind *)

Section InitState.
Context {Scalar : Type} `{ScalarOps Scalar} {Internals : Type}.
Context (st : Structure Scalar) (ct : BodyNodeContract Scalar Internals).

Abbreviation Skel := (Skeleton Scalar Internals).

Lemma bfsLoop_bfsOrder (fuel : nat) (queue : list BodyId) (s : Skel) :
  bfsLoop st fuel queue s
  = match bfsOrder st fuel queue with
    | Some res => Ok tt (with_mBodyNodes (mBodyNodes s ++ res) s)
    | None => Fail OutOfFuel
    end.
Proof.
  revert queue s. induction fuel as [|fuel IH]; intros [|b queue] s;
    cbn [bfsLoop bfsOrder]; try done.
  - rewrite app_nil_r. by destruct s.
  - rewrite app_nil_r. by destruct s.
  - unfold mbind, Op_bind, modify. rewrite IH.
    destruct (bfsOrder st fuel (queue ++ getChildBodyNodes st b)) as [res|];
      [|done].
    cbn. by rewrite <- (assoc_L (++)).
Qed.

(** A pass of calls on the bodies keeps the members of the skeleton. *)
Lemma wp_calls_keep {X} (I : Skel -> Prop) (l : list X)
    (body : X -> Op unit) (s : Skel) :
  (forall s1 w c, I s1 -> I (with_calls c (with_objects w s1))) ->
  (forall x s1, exists w c, body x s1 = Ok tt (with_calls c (with_objects w s1))) ->
  I s -> wp (forEach l body) (fun _ => I) s.
Proof.
  intros HI Hbody Hs. apply wp_forEach; [done|].
  intros x s1 _ H1. destruct (Hbody x s1) as (w & c & Hrun).
  unfold wp. rewrite Hrun. by apply HI.
Qed.

Lemma init_spec (fuel : nat) (ts : Scalar) (g : Vector3d Scalar)
    (s : Skel) (t : BodyTree) :
  formsTree st s t ->
  Sltb Szero ts = true ->
  length (mBodyNodes s) <= fuel ->
  exists res,
    bfsOrder st fuel [treeRoot t] = Some res /\
    res ≡ₚ mBodyNodes s /\
    wp (init st ct fuel ts g)
       (fun _ s' =>
          initBase ts g res s s' /\
          mTotalMass s' = massOf st res /\
          (forall f, f ∈ kinematicsFlags -> dirty s' f = true) /\
          exists dof,
            (forall k, matrix s' k = MatrixXd_Zero dof dof) /\
            (forall k, vector s' k = VectorXd_Zero dof) /\
            (callKeepsGenCoords ct BodyNode.clearExternalForces ->
             getDof (objects s') = dof /\
             getGenForces (objects s') = VectorXd_Zero dof)) s.
Proof.
  intros (Hlinked & _ & Hnodup & Hperm & Hhead) Hdt Hfuel.
  destruct (mBodyNodes s) as [|root rest] eqn:Hbodies; [done|].
  injection Hhead as ->.
  set (s0 := with_mBodyNodes [] (with_mGravity g (with_mTimeStep ts s))).
  destruct (bfsLoop_spec st fuel [t] s0) as (res & Hrun & Hres & _).
  { by constructor. }
  { cbn. rewrite Nat.add_0_r, <- treeSize_nodes, <- Hperm. done. }
  cbn in Hrun, Hres. rewrite app_nil_r in Hres.
  rewrite bfsLoop_bfsOrder in Hrun.
  destruct (bfsOrder st fuel [treeRoot t]) as [res'|] eqn:Horder; [|done].
  injection Hrun as Hrun. subst res'. exists res. split; [done|]. split; [by rewrite Hres, Hperm|].
  unfold init. wp_step. unfold setTimeStep. wp_step.
  apply wp_assert; [done|]. wp_step. wp_step. unfold setGravity. wp_step.
  wp_step. wp_step. cbn [mBodyNodes with_mGravity with_mTimeStep].
  rewrite Hbodies. wp_step. wp_step. wp_step. fold s0.
  unfold wp at 1. rewrite bfsLoop_bfsOrder, Horder. cbn [mBodyNodes s0 with_mBodyNodes app].
  set (s1 := with_mBodyNodes res s0).
  assert (initBase ts g res s s1) as H1 by done. clearbody s1.
  assert (forall s1 w c, initBase ts g res s s1 ->
            initBase ts g res s (with_calls c (with_objects w s1))) as Hcalls
    by (by intros ? ? ? ?).
  wp_step. wp_step. wp_step. wp_step.
  wp_step. eapply wp_mono.
  { apply (wp_calls_keep (initBase ts g res s)); [done| |done].
    intros x s2. by eexists _, _. }
  intros ? s2 H2. cbn beta in H2. wp_step.
  eapply wp_mono; [apply computeForwardDynamicsRecursionPartA_spec|].
  intros ? s3 (Hm3 & _ & Hd3 & _). cbn beta.
  assert (initBase ts g res s s3) as H3.
  { unfold initBase, sameMembers in *. destruct_and!. repeat split; congruence. }
  wp_step. wp_step. cbn zeta.
  do 10 (wp_step; wp_step).
  set (dof := getDof (objects s3)).
  unfold clearExternalForces. wp_step. wp_step. wp_step. eapply wp_mono.
  { apply (wp_forEach _ _ (fun s' =>
      initBase ts g res s s' /\
      (forall f, f ∈ kinematicsFlags -> dirty s' f = true) /\
      (forall k, matrix s' k = MatrixXd_Zero dof dof) /\
      (forall k, vector s' k = VectorXd_Zero dof) /\
      (callKeepsGenCoords ct BodyNode.clearExternalForces ->
       getDof (objects s') = dof))).
    - split; [done|]. split; [|split; [|split]].
      + intros f Hf. cbn. by rewrite Hd3, bool_decide_true.
      + by intros [].
      + by intros [].
      + done.
    - intros b s4 _ (H4 & Hd4 & Hm4 & Hv4 & Hg4). wp_step.
      split; [by apply Hcalls|]. repeat split; try done.
      intros Hk. unfold getDof. cbn. rewrite Hk. by apply Hg4. }
  intros ? s4 (H4 & Hd4 & Hm4 & Hv4 & Hg4). cbn beta.
  unfold clearInternalForces. wp_step. wp_step. wp_step. wp_step.
  wp_step. wp_step. wp_step. wp_step. eapply wp_mono.
  { apply (wp_forEach_acc _ _ (fun done s' =>
      initBase ts g res s s' /\ mTotalMass s' = massOf st done /\
      dirty s' = dirty s4 /\ matrix s' = matrix s4 /\ vector s' = vector s4 /\
      objects s'
      = setGenForces (VectorXd_Zero (getDof (objects s4))) (objects s4))).
    - done.
    - intros done b s5 _ (H5 & Hmass5 & Hrest5). wp_step.
      split; [done|]. split; [|done].
      cbn. unfold massOf. by rewrite foldl_app, Hmass5. }
  intros ? s5 (H5 & Hmass5 & Hd5 & Hm5 & Hv5 & Ho5). cbn beta.
  cbn [mBodyNodes with_mTotalMass with_objects] in Hmass5.
  destruct H4 as (Hb4 & Hrest4). rewrite Hb4 in Hmass5.
  split; [done|]. split; [done|]. split; [by rewrite Hd5|].
  exists dof. rewrite Hm5, Hv5, Ho5. split; [done|]. split; [done|].
  intros Hk. split.
  - unfold getDof. cbn. rewrite storeField_length. by apply Hg4.
  - unfold getGenForces. cbn.
    rewrite (storeField_stored tau set_tau); [|done|].
    + by rewrite (Hg4 Hk).
    + unfold VectorXd_Zero. by rewrite length_replicate.
Qed.

(** X17. On a skeleton whose bodies form a tree, init leaves every cache
    allocated and invalid: the time step and the gravity are the ones
    given, the four matrices are dof x dof zero matrices and the six
    vectors are zero vectors of length dof, where dof is the number of
    coordinates that the bodies registered (BodyNode::clearExternalForces
    being assumed not to change it), the generalized forces are zero, and
    the nine flags of the cached quantities are set.  In particular the
    dimension assertions of the updaters hold after init. *)
Theorem init_allocates_caches (fuel : nat) (ts : Scalar) (g : Vector3d Scalar)
    (s : Skel) (t : BodyTree) :
  formsTree st s t ->
  Sltb Szero ts = true ->
  length (mBodyNodes s) <= fuel ->
  callKeepsGenCoords ct BodyNode.clearExternalForces ->
  exists s',
    init st ct fuel ts g s = Ok tt s' /\
    mTimeStep s' = ts /\ mGravity s' = g /\
    (forall k, matrix s' k
               = MatrixXd_Zero (getDof (objects s')) (getDof (objects s'))) /\
    (forall k, vector s' k = VectorXd_Zero (getDof (objects s'))) /\
    getInternalForceVector s' = VectorXd_Zero (getDof (objects s')) /\
    (forall f, f ∈ kinematicsFlags -> dirty s' f = true).
Proof.
  intros Htree Hdt Hfuel Hkeep.
  destruct (init_spec fuel ts g s t Htree Hdt Hfuel) as (res & _ & _ & Hwp).
  apply wp_run in Hwp
    as (s' & Hrun & Hbase & _ & Hd & dof & Hmat & Hvec & Hobj).
  destruct (Hobj Hkeep) as [Hdof Hforces].
  destruct Hbase as (_ & _ & Hts & Hg & _).
  exists s'. unfold getInternalForceVector. rewrite Hdof. by repeat split.
Qed.

(** X18. init orders the bodies as the breadth-first traversal from the
    first body does, whatever the order in which they were registered:
    calling init again, with any positive time step and any gravity, on
    the skeleton that init returned leaves mBodyNodes as it is. *)
Theorem init_again_keeps_order
    (fuel : nat) (ts ts' : Scalar) (g g' : Vector3d Scalar)
    (s : Skel) (t : BodyTree) :
  formsTree st s t ->
  Sltb Szero ts = true ->
  Sltb Szero ts' = true ->
  length (mBodyNodes s) <= fuel ->
  exists s' s'',
    init st ct fuel ts g s = Ok tt s' /\
    init st ct fuel ts' g' s' = Ok tt s'' /\
    mBodyNodes s'' = mBodyNodes s' /\
    bfsOrder st fuel (take 1 (mBodyNodes s)) = Some (mBodyNodes s').
Proof.
  intros Htree Hdt Hdt' Hfuel.
  destruct (init_spec fuel ts g s t Htree Hdt Hfuel)
    as (res & Horder & Hperm & Hwp).
  apply wp_run in Hwp as (s' & Hrun & Hbase & _).
  destruct Hbase as (Hb & _). subst res.
  assert (head (mBodyNodes s') = Some (treeRoot t)) as Hhead'.
  { destruct fuel as [|fuel]; [done|]. cbn in Horder.
    destruct (bfsOrder st fuel _); [|done]. by injection Horder as <-. }
  assert (formsTree st s' t) as Htree'.
  { destruct Htree as (Hl & Hp & Hnd & Hperm0 & Hh).
    repeat split; [done..| |done]. by rewrite Hperm. }
  destruct (init_spec fuel ts' g' s' t Htree' Hdt')
    as (res' & Horder' & _ & Hwp').
  { by rewrite Hperm. }
  apply wp_run in Hwp' as (s'' & Hrun' & Hbase' & _).
  destruct Hbase' as (Hb' & _).
  exists s', s''. repeat split; [done..| |].
  - rewrite Hb'. congruence.
  - destruct Htree as (_ & _ & _ & _ & Hh).
    destruct (mBodyNodes s) as [|root rest]; [done|].
    injection Hh as ->. cbn [take]. done.
Qed.

(** An accessor called on clear flags returns the member as it is. *)
Lemma staysCached_members (s s' : Skel) :
  dirty s' = dirty s -> matrix s' = matrix s -> vector s' = vector s ->
  staysCached st ct s s'.
Proof.
  intros Hd Hm Hv. split.
  - intros f k acc Hin Hclean. unfold matrixAccessors in Hin.
    repeat (apply elem_of_cons in Hin as [[= -> -> ->]|Hin]);
      [..|by apply elem_of_nil in Hin];
      unfold getMassMatrix, getAugMassMatrix, getInvMassMatrix,
        getInvAugMassMatrix, mbind, Op_bind, get;
      rewrite Hd, Hclean; cbn; by rewrite Hm.
  - intros f k acc Hin Hclean. unfold vectorAccessors in Hin.
    repeat (apply elem_of_cons in Hin as [[= -> -> ->]|Hin]);
      [..|by apply elem_of_nil in Hin];
      unfold getCoriolisForceVector, getGravityForceVector, getCombinedVector,
        getExternalForceVector, mbind, Op_bind, get;
      rewrite Hd, Hclean; cbn; by rewrite Hv.
Qed.

(** X19. The time step and the gravity are stored without invalidating
    anything.  setTimeStep stores a positive time step (given one that is
    not positive its assertion fails, and so does init, whose first
    statement it is) and setGravity stores any gravity; neither writes a
    dirty flag or a cached member.  So every lazily evaluated accessor
    whose flag was clear returns afterwards, without recomputing, the
    member cached before: getGravityForceVector the vector aggregated with
    the old gravity, getAugMassMatrix and getInvAugMassMatrix the matrices
    assembled with the old time step. *)
Theorem parameters_stored_without_invalidation
    (fuel : nat) (ts : Scalar) (g : Vector3d Scalar) (s : Skel) :
  (Sltb Szero ts = true ->
   exists s', setTimeStep ts s = Ok tt s' /\
              mTimeStep s' = ts /\ staysCached st ct s s') /\
  (Sltb Szero ts = false ->
   setTimeStep ts s = Fail AssertionFailed /\
   init st ct fuel ts g s = Fail AssertionFailed) /\
  (exists s', setGravity g s = Ok tt s' /\
              mGravity s' = g /\ staysCached st ct s s').
Proof.
  split; [|split].
  - intros Hts. exists (with_mTimeStep ts s). split.
    + unfold setTimeStep, mbind, Op_bind. by rewrite Hts.
    + split; [done|]. by apply staysCached_members.
  - intros Hts. unfold init, setTimeStep, mbind, Op_bind. by rewrite Hts.
  - exists (with_mGravity g s). split; [done|]. split; [done|].
    by apply staysCached_members.
Qed.

End InitState.

Section InitMass.
Context {Scalar : Type} `{ScalarOps Scalar} {Internals : Type}.
Context (st : Structure Scalar) (ct : BodyNodeContract Scalar Internals).

(** Scalars are taken to obey the laws of a ring, as the reals do. *)
Context (Rth : ring_theory (R:=Scalar) Szero Sone Sadd Smul Ssub Sopp eq).
Add Ring ScalarRingMass : Rth.

Lemma foldl_Sadd (a : Scalar) (l : list Scalar) :
  foldl Sadd a l = Sadd a (foldr Sadd Szero l).
Proof using Rth.
  revert a. induction l as [|x l IH]; intros a; cbn.
  - ring.
  - rewrite IH. ring.
Qed.

Lemma massOf_sum (l : list BodyId) :
  massOf st l = foldr Sadd Szero (getMass st <$> l).
Proof using Rth.
  unfold massOf. transitivity (foldl Sadd Szero (getMass st <$> l)).
  - generalize (Szero : Scalar). induction l as [|b l IH]; intros a; [done|].
    cbn. apply IH.
  - rewrite foldl_Sadd. ring.
Qed.

Lemma sum_permutation (l l' : list Scalar) :
  l ≡ₚ l' -> foldr Sadd Szero l = foldr Sadd Szero l'.
Proof using Rth.
  induction 1 as [|x l l' _ IH|x y l|l l' l'' _ IH1 _ IH2]; cbn.
  - done.
  - by rewrite IH.
  - ring.
  - congruence.
Qed.

(** X20. After init the total mass of the skeleton is the sum of the
    masses of its bodies: the arithmetic being that of a ring, the sum that
    init accumulates in breadth-first order is the sum over the bodies in
    the order in which they were registered. *)
Theorem init_total_mass (fuel : nat) (ts : Scalar) (g : Vector3d Scalar)
    (s : Skeleton Scalar Internals) (t : BodyTree) :
  formsTree st s t ->
  Sltb Szero ts = true ->
  length (mBodyNodes s) <= fuel ->
  exists s',
    init st ct fuel ts g s = Ok tt s' /\
    mTotalMass s' = foldr Sadd Szero (getMass st <$> mBodyNodes s).
Proof using Rth.
  intros Htree Hdt Hfuel.
  destruct (init_spec st ct fuel ts g s t Htree Hdt Hfuel)
    as (res & _ & Hperm & Hwp).
  apply wp_run in Hwp as (s' & Hrun & _ & Hmass & _).
  exists s'. split; [done|]. rewrite Hmass, massOf_sum.
  apply sum_permutation. by apply fmap_Permutation.
Qed.

End InitMass.

(** ** Lookups and counts *)

Section Lookup.
Context {Scalar : Type} `{ScalarOps Scalar} {Internals : Type}.
Context (st : Structure Scalar) (ct : BodyNodeContract Scalar Internals).
Context (nm : Names).

Abbreviation Skel := (Skeleton Scalar Internals).

Lemma firstResult_firstNamed {X} (name : X -> string) (_name : string)
    (l : list X) :
  firstNamed name _name l
    (firstResult l (fun x => if String.eqb (name x) _name then Some x else None)).
Proof.
  induction l as [|x l IH]; cbn [firstResult].
  - intros y Hy. by apply elem_of_nil in Hy.
  - destruct (String.eqb (name x) _name) eqn:Hx.
    + apply String.eqb_eq in Hx. exists 0. repeat split; [done|]. lia.
    + apply String.eqb_neq in Hx.
      destruct (firstResult l _) as [y|]; cbn in *.
      * destruct IH as (i & Hi & Hy & Hfirst). exists (S i).
        repeat split; [done..|]. intros [|k] z Hk Hz.
        -- by injection Hz as <-.
        -- apply (Hfirst k); [lia | done].
      * intros y Hy. apply elem_of_cons in Hy as [->|Hy]; [done | by apply IH].
Qed.

(** The nested loops of getMarker search the markers of all bodies, body
    after body. *)
Lemma firstResult_bind {X Y R} (l : list X) (f : X -> list Y)
    (body : Y -> option R) :
  firstResult l (fun x => firstResult (f x) body)
  = firstResult (x ← l; f x) body.
Proof.
  induction l as [|x l IH]; [done|]. cbn [firstResult mbind list_bind].
  rewrite IH. clear IH. induction (f x) as [|y ys IH]; [done|].
  cbn [firstResult app]. by destruct (body y).
Qed.

Lemma nonEmpty_true (_name : string) : _name <> "" -> nonEmpty _name = true.
Proof.
  intros Hne. unfold nonEmpty. apply negb_true_iff. by apply String.eqb_neq.
Qed.

(** X21. getBodyNode, getSoftBodyNode and getJoint, given a name, search
    their container from the front: each returns the first element whose
    name (for getJoint: the name of whose parent joint) is the one given,
    and the null pointer exactly when no element has that name; the
    skeleton is left as it is.  Given the empty name, the assertion
    fails. *)
Theorem lookup_by_name_first_match
    (find : string -> Op (option BodyId)) (name : BodyId -> string)
    (members : Skel -> list BodyId) (_name : string) (s : Skel) :
  (find, name, members) ∈ lookupsByName nm ->
  (_name = "" -> find _name s = Fail AssertionFailed) /\
  (_name <> "" ->
   exists r, find _name s = Ok r s /\ firstNamed name _name (members s) r).
Proof.
  intros Hin. unfold lookupsByName in Hin.
  repeat (apply elem_of_cons in Hin as [[= -> -> ->]|Hin]);
    [..|by apply elem_of_nil in Hin].
  all: split; [by intros ->|]; intros Hne.
  all: unfold getBodyNode_byName, getSoftBodyNode_byName, getJoint_byName,
         mbind, Op_bind, get.
  all: rewrite (nonEmpty_true _ Hne); cbn.
  all: eexists; split; [reflexivity|]; apply firstResult_firstNamed.
Qed.

(** X22. getMarker searches the markers of the bodies, body after body in
    the order of mBodyNodes and marker after marker within a body: it
    returns the first marker with the name given, and the null pointer
    exactly when no marker of a body of the skeleton has that name; the
    skeleton is left as it is.  Given the empty name, the assertion
    fails. *)
Theorem getMarker_first_match (_name : string) (s : Skel) :
  (_name = "" -> getMarker nm _name s = Fail AssertionFailed) /\
  (_name <> "" ->
   exists r, getMarker nm _name s = Ok r s /\
             firstNamed (markerName nm) _name
               (b ← mBodyNodes s; getMarkers nm b) r).
Proof.
  split; [by intros ->|]. intros Hne.
  unfold getMarker, mbind at 1 2, Op_bind, get.
  rewrite (nonEmpty_true _ Hne). cbn.
  eexists. split; [reflexivity|].
  rewrite firstResult_bind. apply firstResult_firstNamed.
Qed.

End Lookup.

Section Counts.
Context {Scalar : Type} `{ScalarOps Scalar} {Internals : Type}.
Context (st : Structure Scalar) (ct : BodyNodeContract Scalar Internals).

Abbreviation Skel := (Skeleton Scalar Internals).

Lemma size_small {X} (l : list X) :
  (Z.of_nat (length l) < 2 ^ 31)%Z -> size l = Z.of_nat (length l).
Proof. intros Hl. unfold size, to_size_t. apply Z.mod_small. lia. Qed.

Lemma to_int_small (z : Z) : (0 <= z < 2 ^ 31)%Z -> to_int z = z.
Proof. intros Hz. unfold to_int. rewrite Z.mod_small; lia. Qed.

(** X23. The soft bodies stay among the bodies: when every element of
    mSoftBodyNodes is an element of mBodyNodes (counted with
    multiplicity), the same holds after addBodyNode, which appends a body
    to mBodyNodes and, if it is a soft body, to mSoftBodyNodes too, and
    after init on a tree, which rearranges mBodyNodes only.  As long as it
    holds, and there are fewer than 2^31 bodies, the unsigned difference
    that getNumRigidBodyNodes returns as an int does not wrap: the numbers
    of rigid and of soft bodies are not negative and add up to the number
    of bodies. *)
Theorem soft_bodies_among_bodies (s : Skel) :
  mSoftBodyNodes s ⊆+ mBodyNodes s ->
  (forall _body isSoft,
     exists s', addBodyNode _body isSoft s = Ok tt s' /\
                mSoftBodyNodes s' ⊆+ mBodyNodes s') /\
  (forall fuel ts g t,
     formsTree st s t -> Sltb Szero ts = true ->
     length (mBodyNodes s) <= fuel ->
     exists s', init st ct fuel ts g s = Ok tt s' /\
                mSoftBodyNodes s' ⊆+ mBodyNodes s') /\
  ((Z.of_nat (length (mBodyNodes s)) < 2 ^ 31)%Z ->
   (getNumRigidBodyNodes s + getNumSoftBodyNodes s = getNumBodyNodes s /\
    0 <= getNumRigidBodyNodes s /\ 0 <= getNumSoftBodyNodes s /\
    getNumBodyNodes s = Z.of_nat (length (mBodyNodes s)))%Z).
Proof.
  intros Hsub. split; [|split].
  - intros b [].
    + eexists. split; [reflexivity|]. cbn. by apply submseteq_app.
    + eexists. split; [reflexivity|]. cbn. by apply submseteq_inserts_r.
  - intros fuel ts g t Htree Hdt Hfuel.
    destruct (init_spec st ct fuel ts g s t Htree Hdt Hfuel)
      as (res & _ & Hperm & Hwp).
    apply wp_run in Hwp as (s' & Hrun & (Hb & Hsoft & _) & _).
    exists s'. split; [done|]. by rewrite Hb, Hsoft, Hperm.
  - intros Hsmall. pose proof (submseteq_length _ _ Hsub) as Hlen.
    unfold getNumRigidBodyNodes, getNumSoftBodyNodes, getNumBodyNodes.
    rewrite !size_small by lia. unfold to_size_t.
    rewrite (Z.mod_small (_ - _)) by lia.
    rewrite !to_int_small by lia. lia.
Qed.

End Counts.

(** ** Integration and the walk to the root *)

Section Misc.
Context {Scalar : Type} `{ScalarOps Scalar} {Internals : Type}.
Context (st : Structure Scalar) (ct : BodyNodeContract Scalar Internals).

Abbreviation Skel := (Skeleton Scalar Internals).

(** A pass whose body makes the calls [evs x] on the element [x]. *)
Lemma wp_eventPass {X} (evs : X -> list (Event Scalar))
    (body : X -> Op unit) (l : list X) (s : Skel) :
  (forall x s, wp (body x) (fun _ s' => callsOnly s s' (evs x)) s) ->
  wp (forEach l body) (fun _ s' => callsOnly s s' (x ← l; evs x)) s.
Proof.
  intros Hbody.
  apply (wp_forEach_acc l body (fun done s' => callsOnly s s' (x ← done; evs x))).
  - apply callsOnly_refl.
  - intros done x s1 _ H1. eapply wp_mono; [apply Hbody|].
    intros ? s2 H2. cbn beta in *.
    rewrite bind_app. cbn. rewrite app_nil_r.
    exact (callsOnly_trans _ _ _ _ _ H1 H2).
Qed.

Lemma bind_singleton_events {X} (e : X -> Event Scalar) (l : list X) :
  (x ← l; [e x]) = e <$> l.
Proof. induction l as [|x l IH]; [done|]. cbn. by rewrite <- IH. Qed.

Lemma integration_pass (onJ : Joint.Call Scalar) (onP : PointMass.Call Scalar)
    (s0 s : Skel) :
  wp (forEach (mBodyNodes s0) (fun b => callJoint ct b onJ);;
      forEach (mSoftBodyNodes s0) (fun sb =>
        forEach (getPointMasses st sb) (fun pm => callPointMass ct pm onP)))
     (fun _ s' => callsOnly s s' (integrationCalls st onJ onP s0)) s.
Proof.
  wp_step. eapply wp_mono.
  { apply (wp_eventPass (fun b => [OnJoint b onJ])).
    intros b s1. wp_step. by repeat split. }
  intros ? s1 H1. cbn beta. eapply wp_mono.
  { apply (wp_eventPass
             (fun sb => (fun pm => OnPointMass pm onP) <$> getPointMasses st sb)).
    intros sb s2. eapply wp_mono.
    { apply (wp_eventPass (fun pm => [OnPointMass pm onP])).
      intros pm s3. wp_step. by repeat split. }
    intros ? s3 H3. cbn beta in H3. by rewrite bind_singleton_events in H3. }
  intros ? s2 H2. cbn beta in H2. rewrite bind_singleton_events in H1.
  exact (callsOnly_trans _ _ _ _ _ H1 H2).
Qed.

(** X24. integrateConfigs(dt) calls integratePositions(dt) on the parent
    joint of every body, first to last, and then integrateConfigs(dt) on
    every point mass of every soft body; integrateGenVels(dt) does the same
    with integrateVelocities and integrateGenVels.  Neither calls a member
    function of a body, and neither writes a member of the skeleton: the
    cached matrices and vectors and all dirty flags are what they were. *)
Theorem integration_delegates (dt : Scalar) (s : Skel) :
  (exists s',
     integrateConfigs st ct dt s = Ok tt s' /\
     calls s' = calls s
                ++ integrationCalls st (Joint.integratePositions dt)
                     (PointMass.integrateConfigs dt) s /\
     sameMembers s s' /\ dirty s' = dirty s) /\
  (exists s',
     integrateGenVels st ct dt s = Ok tt s' /\
     calls s' = calls s
                ++ integrationCalls st (Joint.integrateVelocities dt)
                     (PointMass.integrateGenVels dt) s /\
     sameMembers s s' /\ dirty s' = dirty s).
Proof.
  split; apply wp_run.
  - unfold integrateConfigs. wp_step. wp_step.
    eapply wp_mono; [apply integration_pass|]. by intros ? s' (? & ? & ?).
  - unfold integrateGenVels. wp_step. wp_step.
    eapply wp_mono; [apply integration_pass|]. by intros ? s' (? & ? & ?).
Qed.

(** X25. updateBiasImpulse(BodyNode* ) runs exactly when its assertions
    hold: the skeleton has a coordinate, the body is one of its bodies and
    the constraint impulse of every body is zero.  It then calls
    BodyNode::updateBiasImpulse on the body and on each of its ancestors,
    up to the root, and does nothing else; otherwise an assertion
    fails. *)
Theorem updateBiasImpulse_walks_to_root
    (fuel : nat) (chain : list BodyId) (_bodyNode : BodyId) (s : Skel) :
  chainToRoot st (Some _bodyNode) chain ->
  length chain <= fuel ->
  (biasImpulsePreconditions _bodyNode s ->
   exists s',
     updateBiasImpulse st ct fuel _bodyNode s = Ok tt s' /\
     callsOnly s s' ((fun b => OnBody b BodyNode.updateBiasImpulse) <$> chain)) /\
  (~ biasImpulsePreconditions _bodyNode s ->
   updateBiasImpulse st ct fuel _bodyNode s = Fail AssertionFailed).
Proof.
  intros Hchain Hfuel. split.
  - intros (Hdof & Hin & Hzero). apply wp_run.
    unfold updateBiasImpulse. wp_step. wp_step.
    wp_step. apply wp_assert; [by apply Nat.ltb_lt|].
    wp_step. apply wp_assert; [by apply bool_decide_eq_true_2|].
    wp_step. apply wp_assert; [by apply bool_decide_eq_true_2|].
    eapply wp_mono; [by eapply walkToRoot_spec|]. by intros ? s' (? & _).
  - intros Hpre. unfold updateBiasImpulse, mbind, Op_bind, get.
    destruct (0 <? getDof (objects s)) eqn:Hdof; [|done]. cbn.
    destruct (bool_decide (_bodyNode ∈ mBodyNodes s)) eqn:Hin; [|done]. cbn.
    unfold allConstraintImpulsesZero.
    destruct (bool_decide (Forall _ (mBodyNodes s))) eqn:Hzero; [|done].
    destruct Hpre. repeat split.
    + by apply Nat.ltb_lt.
    + by apply bool_decide_eq_true in Hin.
    + by apply bool_decide_eq_true in Hzero.
Qed.

End Misc.

(** ** Invalidation and recomputation *)

Section Compose.
Context {Scalar : Type} `{ScalarOps Scalar} {Internals : Type}.
Context (st : Structure Scalar) (ct : BodyNodeContract Scalar Internals).

Abbreviation Skel := (Skeleton Scalar Internals).

Lemma updateGravityForceVector_spec (s : Skel) :
  0 < getDof (objects s) ->
  length (vector s mG) = getDof (objects s) ->
  wp (updateGravityForceVector ct)
     (fun _ s' =>
        calls s' = calls s
                   ++ ((fun b => OnBodyVec b
                                   (BodyNode.aggregateGravityForceVector (mGravity s)))
                       <$> reverse (mBodyNodes s)) /\
        dirty s' mIsGravityForceVectorDirty = false) s.
Proof.
  intros Hdof Hlen. unfold updateGravityForceVector. wp_step. wp_step.
  wp_step. apply wp_assert; [by apply bool_decide_eq_true_2|].
  wp_step. apply wp_assert; [by apply Nat.ltb_lt|].
  wp_step. wp_step. wp_step. eapply wp_mono.
  { apply (wp_forEach_acc (reverse (mBodyNodes s)) _
             (fun done s' =>
                calls s' = calls s
                           ++ ((fun b => OnBodyVec b
                                  (BodyNode.aggregateGravityForceVector (mGravity s)))
                               <$> done))).
    - cbn. by rewrite app_nil_r.
    - intros done b s1 _ H1. wp_step. cbn.
      by rewrite H1, fmap_app, <- (assoc_L (++)). }
  intros ? s1 H1. cbn beta. wp_step. split; [done|]. apply fn_lookup_insert.
Qed.

(** X26. A setter invalidates and the next accessor recomputes: after
    setPositions, with any flags and whatever the dirty flags were before,
    getGravityForceVector runs the aggregation again -- it calls
    aggregateGravityForceVector(mGravity) on every body, last to first --
    and returns with the flag of the gravity force vector clear (the
    per-body kinematics updates being assumed not to add or remove
    coordinates). *)
Theorem accessor_recomputes_after_setter
    (_configs : VectorXd Scalar) (uT uV uA : bool) (s : Skel) :
  (forall c, c ∈ kinematicsUpdates -> callKeepsGenCoords ct c) ->
  0 < getDof (objects s) ->
  length (vector s mG) = getDof (objects s) ->
  exists s1 v s2,
    setPositions ct _configs uT uV uA s = Ok tt s1 /\
    getGravityForceVector ct s1 = Ok v s2 /\
    calls s2 = calls s1
               ++ ((fun b => OnBodyVec b
                               (BodyNode.aggregateGravityForceVector (mGravity s)))
                   <$> reverse (mBodyNodes s)) /\
    v = vector s2 mG /\
    dirty s2 mIsGravityForceVectorDirty = false.
Proof.
  intros Hkeep Hdof Hlen.
  assert (wp (setPositions ct _configs uT uV uA)
             (fun _ s1 =>
                mGenCoords (objects s1)
                = storeField set_q _configs (mGenCoords (objects s)) /\
                sameMembers s s1 /\
                dirty s1 mIsGravityForceVectorDirty = true) s) as Hset.
  { unfold setPositions. wp_step. wp_step. eapply wp_mono.
    { apply wp_conj; [by apply computeForwardKinematics_keeps_coords|].
      apply computeForwardKinematics_spec. }
    intros ? s1 (Hgc & Hm & _ & Hd & _). cbn beta. split; [done|].
    split; [done|]. by rewrite Hd. }
  apply wp_run in Hset as (s1 & Hrun1 & Hgc1 & Hm1 & Hd1).
  pose proof Hm1 as (_ & Hg1 & _ & _ & _ & Hb1 & _ & _ & Hv1).
  assert (getDof (objects s1) = getDof (objects s)) as Hdof1.
  { unfold getDof. by rewrite Hgc1, storeField_length. }
  assert (wp (getGravityForceVector ct)
             (fun v s2 =>
                calls s2 = calls s1
                           ++ ((fun b => OnBodyVec b
                                  (BodyNode.aggregateGravityForceVector (mGravity s)))
                               <$> reverse (mBodyNodes s)) /\
                v = vector s2 mG /\
                dirty s2 mIsGravityForceVectorDirty = false) s1) as Hget.
  { unfold getGravityForceVector. wp_step. wp_step. rewrite Hd1. wp_step.
    eapply wp_mono.
    { apply updateGravityForceVector_spec; rewrite Hdof1; [done|].
      by rewrite Hv1. }
    intros ? s2 (Hc2 & Hd2). cbn beta. wp_steps.
    by rewrite Hc2, Hg1, Hb1. }
  apply wp_ok in Hget as (v & s2 & Hrun2 & Hc2 & Hv2 & Hd2).
  by exists s1, v, s2.
Qed.

(** X27. clearExternalForces calls BodyNode::clearExternalForces on every
    body, first to last, and writes no dirty flag, the one of the external
    force vector included: when that flag is clear on entry,
    getExternalForceVector called next recomputes nothing and returns the
    vector that was cached before the forces were cleared. *)
Theorem clearExternalForces_keeps_cache (s : Skel) :
  dirty s mIsExternalForceVectorDirty = false ->
  exists s',
    clearExternalForces ct s = Ok tt s' /\
    calls s' = calls s
               ++ ((fun b => OnBody b BodyNode.clearExternalForces)
                   <$> mBodyNodes s) /\
    dirty s' = dirty s /\
    getExternalForceVector st ct s' = Ok (vector s mFext) s'.
Proof.
  intros Hclean.
  assert (wp (clearExternalForces ct)
             (fun _ s' =>
                callsOnly s s' ((fun b => OnBody b BodyNode.clearExternalForces)
                                <$> mBodyNodes s)) s) as Hwp.
  { unfold clearExternalForces. wp_step. wp_step. eapply wp_mono.
    { apply (wp_bodyPass (fun _ => [BodyNode.clearExternalForces])).
      intros b s0. apply wp_callBody1. }
    intros ? s' Hc. cbn beta in Hc. by rewrite bind_singleton_calls in Hc. }
  apply wp_run in Hwp as (s' & Hrun & Hm & Hd & Hc).
  exists s'. repeat split; [done..|].
  unfold getExternalForceVector, mbind, Op_bind, get.
  rewrite Hd, Hclean. cbn. destruct Hm as (_ & _ & _ & _ & _ & _ & _ & _ & Hv).
  by rewrite Hv.
Qed.

End Compose.

(** ** The early exit in the whole assembly *)

Section WholeAssembly.
Context {Scalar : Type} `{ScalarOps Scalar} {Internals : Type}.
Context (st : Structure Scalar) (ct : BodyNodeContract Scalar Internals).

Abbreviation Skel := (Skeleton Scalar Internals).
Abbreviation Wrld := (World Scalar Internals).

Lemma wp_of_run {A} (m : Op A) (Q : A -> Skel -> Prop) (s s' : Skel) (a : A) :
  m s = Ok a s' -> Q a s' -> wp m Q s.
Proof. unfold wp. by intros ->. Qed.

(** *** Passes as functions of the objects and of the matrix *)

Lemma aggregatePass_app (c : BodyNode.MatCall Scalar) (l l' : list BodyId)
    (x : Wrld * MatrixXd Scalar) :
  aggregatePass ct c (l ++ l') x = aggregatePass ct c l' (aggregatePass ct c l x).
Proof. apply foldl_app. Qed.

Lemma aggregatePass_cons (c : BodyNode.MatCall Scalar) (b : BodyId)
    (l : list BodyId) (x : Wrld * MatrixXd Scalar) :
  aggregatePass ct c (b :: l) x
  = aggregatePass ct c l (onBodyMat ct b c x.1 x.2).
Proof. done. Qed.

Lemma wp_aggregatePass (k : MatrixMember) (c : BodyNode.MatCall Scalar)
    (l : list BodyId) (s : Skel) :
  wp (forEach l (fun b => callBodyMat ct k b c))
     (fun _ s' =>
        (objects s', matrix s' k) = aggregatePass ct c l (objects s, matrix s k)) s.
Proof.
  apply (wp_forEach_acc l _
           (fun done s' =>
              (objects s', matrix s' k)
              = aggregatePass ct c done (objects s, matrix s k))); [done|].
  intros done b s1 _ H1. wp_step. cbn. rewrite fn_lookup_insert.
  rewrite aggregatePass_app, <- H1. cbn. by destruct (onBodyMat ct b c _ _).
Qed.

Lemma wp_preparePass (k : MatrixMember) (c : BodyNode.Call Scalar)
    (l : list BodyId) (s : Skel) :
  wp (forEach l (fun b => callBody ct b c))
     (fun _ s' =>
        objects s' = preparePass ct c l (objects s) /\
        matrix s' k = matrix s k) s.
Proof.
  apply (wp_forEach_acc l _
           (fun done s' =>
              objects s' = preparePass ct c done (objects s) /\
              matrix s' k = matrix s k)); [done|].
  intros done b s1 _ [Ho Hm]. wp_step. cbn. split; [|done].
  rewrite Ho. unfold preparePass. by rewrite foldl_app.
Qed.

(** A loop with a [break] is the loop over the bodies it visits. *)
Lemma forEachUntil_visited (k : MatrixMember) (c : BodyNode.MatCall Scalar)
    (test : BodyId -> bool) (l : list BodyId) (s : Skel) :
  forEachUntil l (fun b => callBodyMat ct k b c;; mret (test b)) s
  = forEach (visited test l) (fun b => callBodyMat ct k b c) s.
Proof.
  revert s. induction l as [|b l IH]; intros s; [done|].
  cbn [forEachUntil visited]. unfold mbind at 1 2, Op_bind at 1 2.
  unfold callBodyMat at 1, modify at 1, mret, Op_ret.
  destruct (test b); cbn [forEach]; unfold mbind, Op_bind;
    unfold callBodyMat at 1, modify at 1; [done | apply IH].
Qed.

Lemma visited_prefix (test : BodyId -> bool) (l : list BodyId) :
  exists l2,
    l = visited test l ++ l2 /\
    (l2 <> [] -> exists b, last (visited test l) = Some b /\ test b = true).
Proof.
  induction l as [|b l (l2 & Hl & Hlast)]; [by exists []|].
  cbn [visited]. destruct (test b) eqn:Htest.
  - exists l. split; [done|]. eauto.
  - exists l2. split; [cbn; by rewrite <- Hl|].
    intros Hne. destruct (Hlast Hne) as (b' & Hb' & Ht).
    exists b'. split; [|done]. by destruct (visited test l).
Qed.

(** *** What a pass keeps *)

Lemma aggregatePass_keeps_coeff (rowsOf : BodyId -> nat -> Prop)
    (c : BodyNode.MatCall Scalar) (col : nat) (l : list BodyId) (i k : nat)
    (x : Wrld * MatrixXd Scalar) :
  writesOnlyRowsOf ct rowsOf c col ->
  (forall b, b ∈ l -> k <> col \/ ~ rowsOf b i) ->
  coeff (aggregatePass ct c l x).2 i k = coeff x.2 i k.
Proof.
  intros Hw. revert x. induction l as [|b l IH]; intros x Hl; [done|].
  rewrite aggregatePass_cons. etrans; [apply IH|].
  - intros b' Hb'. apply Hl. by right.
  - apply Hw, Hl. by left.
Qed.

Lemma aggregatePass_shape (c : BodyNode.MatCall Scalar) (l : list BodyId)
    (x : Wrld * MatrixXd Scalar) :
  keepsDimensions ct ->
  rows (aggregatePass ct c l x).2 = rows x.2 /\
  cols (aggregatePass ct c l x).2 = cols x.2.
Proof.
  intros Hk. revert x. induction l as [|b l IH]; intros x; [done|].
  rewrite aggregatePass_cons.
  destruct (IH (onBodyMat ct b c x.1 x.2)) as [-> ->]. apply Hk.
Qed.

Section Scratch.
Context (sim : Wrld -> Wrld -> Prop) (store : VectorXd Scalar -> Wrld -> Wrld).
Context (prep : BodyNode.Call Scalar) (agg : nat -> BodyNode.MatCall Scalar).
Context (order : list BodyId).
Context (Hscratch : scratchLocal ct sim store prep agg order).

Lemma aggregatePass_sim (j : nat) (l : list BodyId)
    (x : Wrld * MatrixXd Scalar) :
  sim (aggregatePass ct (agg j) l x).1 x.1.
Proof using Hscratch.
  destruct Hscratch as (Heq & _ & _ & Hagg & _).
  revert x. induction l as [|b l IH]; intros x; [done|].
  rewrite aggregatePass_cons. etrans; [apply IH|]. apply Hagg.
Qed.

Lemma preparePass_sim (l : list BodyId) (w w' : Wrld) :
  sim w w' -> sim (preparePass ct prep l w) (preparePass ct prep l w').
Proof using Hscratch.
  destruct Hscratch as (_ & _ & Hprep & _).
  revert w w'. induction l as [|b l IH]; intros w w' Hw; [done|].
  cbn [preparePass foldl]. by apply IH, Hprep.
Qed.

(** One column: the assembly that stops after the bodies [vis] and the
    one that goes on over [rest] agree on the triangle, when no body of
    [rest] has a row of the column in the triangle. *)
Lemma assembleColumn_agree (tri : nat -> nat -> Prop)
    (rowsOf : BodyId -> nat -> Prop) (prepOrder vis rest : list BodyId)
    (j : nat) (e : VectorXd Scalar) (x y : Wrld * MatrixXd Scalar) :
  keepsDimensions ct ->
  writesOnlyRowsOf ct rowsOf (agg j) j ->
  order = vis ++ rest ->
  (forall b i, b ∈ rest -> tri i j -> ~ rowsOf b i) ->
  agreeOn sim tri x y ->
  agreeOn sim tri
    (assembleColumn ct store prep prepOrder (agg j) vis e x)
    (assembleColumn ct store prep prepOrder (agg j) order e y).
Proof using Hscratch.
  intros Hk Hw Horder Hrest (Hsim & Hrows & Hcols & Hco).
  pose proof Hscratch as (Heq & Hstore & _ & _ & Hpass).
  unfold assembleColumn. rewrite Horder, aggregatePass_app.
  set (wx := preparePass ct prep prepOrder (store e x.1)).
  set (wy := preparePass ct prep prepOrder (store e y.1)).
  assert (sim wx wy) as Hprep by by apply preparePass_sim, Hstore.
  set (yv := aggregatePass ct (agg j) vis (wy, y.2)).
  split; [|split; [|split]].
  - etrans; [apply aggregatePass_sim|]. cbn.
    etrans; [exact Hprep|]. symmetry.
    etrans; [apply aggregatePass_sim|]. apply aggregatePass_sim.
  - destruct (aggregatePass_shape (agg j) vis (wx, x.2) Hk) as [-> _].
    destruct (aggregatePass_shape (agg j) rest yv Hk) as [-> _].
    destruct (aggregatePass_shape (agg j) vis (wy, y.2) Hk) as [Hr _].
    fold yv in Hr. by rewrite Hr.
  - destruct (aggregatePass_shape (agg j) vis (wx, x.2) Hk) as [_ ->].
    destruct (aggregatePass_shape (agg j) rest yv Hk) as [_ ->].
    destruct (aggregatePass_shape (agg j) vis (wy, y.2) Hk) as [_ Hc].
    fold yv in Hc. by rewrite Hc.
  - intros i k Htri.
    rewrite (aggregatePass_keeps_coeff rowsOf (agg j) j rest i k yv Hw).
    + apply (Hpass j vis rest); [done..|]. by apply Hco.
    + intros b Hb. destruct (decide (k = j)) as [->|]; [right | by left].
      by apply Hrest.
Qed.

End Scratch.

(** *** The bodies that the loops leave out *)

Lemma skipped_backward (rowsOf : BodyId -> nat -> Prop)
    (bodies rest : list BodyId) (j : nat) :
  (forall b i, jointRows st b i -> rowsOf b i) ->
  rowsMonotone rowsOf bodies ->
  reverse bodies
  = visited (fun b => leftOfColumn st b j) (reverse bodies) ++ rest ->
  (rest <> [] ->
   exists b, last (visited (fun b => leftOfColumn st b j) (reverse bodies))
             = Some b /\ leftOfColumn st b j = true) ->
  forall b i, b ∈ rest -> j <= i -> ~ rowsOf b i.
Proof.
  intros Hjoint Hmono Hsplit Hlast b' i Hb' Hji Hrow.
  destruct Hlast as (bk & Hbk & Htest).
  { intros ->. by apply elem_of_nil in Hb'. }
  apply leftOfColumn_true in Htest as [Hdof Hlt].
  set (vis := visited (fun b => leftOfColumn st b j) (reverse bodies)) in *.
  assert (bodies = reverse rest ++ reverse vis) as Hbodies.
  { by rewrite <- reverse_app, <- Hsplit, reverse_involutive. }
  unfold rowsMonotone in Hmono. rewrite Hbodies in Hmono.
  assert (i < jointIndexInSkeleton st bk); [|lia].
  eapply (StronglySorted_app_1_elem_of _ _ _ b' bk Hmono);
    [by apply elem_of_reverse | | exact Hrow |].
  - apply elem_of_reverse. apply last_Some in Hbk as [l' ->].
    apply elem_of_app. right. by left.
  - apply Hjoint. unfold jointRows. lia.
Qed.

Lemma skipped_forward (rowsOf : BodyId -> nat -> Prop)
    (bodies rest : list BodyId) (j : nat) :
  (forall b i, jointRows st b i -> rowsOf b i) ->
  rowsMonotone rowsOf bodies ->
  bodies = visited (fun b => reachesColumn st b j) bodies ++ rest ->
  (rest <> [] ->
   exists b, last (visited (fun b => reachesColumn st b j) bodies) = Some b /\
             reachesColumn st b j = true) ->
  forall b i, b ∈ rest -> i <= j -> ~ rowsOf b i.
Proof.
  intros Hjoint Hmono Hsplit Hlast b' i Hb' Hji Hrow.
  destruct Hlast as (bk & Hbk & Htest).
  { intros ->. by apply elem_of_nil in Hb'. }
  apply reachesColumn_true in Htest as [Hdof Hlt].
  set (vis := visited (fun b => reachesColumn st b j) bodies) in *.
  unfold rowsMonotone in Hmono. rewrite Hsplit in Hmono.
  assert (jointIndexInSkeleton st bk + jointDof st bk - 1 < i); [|lia].
  eapply (StronglySorted_app_1_elem_of _ _ _ bk b' Hmono);
    [ | done | | exact Hrow].
  - apply last_Some in Hbk as [l' ->]. apply elem_of_app. right. by left.
  - apply Hjoint. unfold jointRows. lia.
Qed.

(** *** Column loops side by side *)

Lemma columns_related (k : MatrixMember)
    (bodyE bodyF : VectorXd Scalar -> nat -> Op (VectorXd Scalar))
    (colE colF : nat -> VectorXd Scalar -> Wrld * MatrixXd Scalar
                 -> Wrld * MatrixXd Scalar)
    (R : Wrld * MatrixXd Scalar -> Wrld * MatrixXd Scalar -> Prop) :
  (forall e j s,
     wp (bodyE e j)
        (fun e' s' => e' = <[j := Szero]> (<[j := Sone]> e) /\
                      (objects s', matrix s' k)
                      = colE j (<[j := Sone]> e) (objects s, matrix s k)) s) ->
  (forall e j s,
     wp (bodyF e j)
        (fun e' s' => e' = <[j := Szero]> (<[j := Sone]> e) /\
                      (objects s', matrix s' k)
                      = colF j (<[j := Sone]> e) (objects s, matrix s k)) s) ->
  (forall j e x y, R x y -> R (colE j e x) (colF j e y)) ->
  forall (cols0 : list nat) (e : VectorXd Scalar) (s1 s2 : Skel),
    R (objects s1, matrix s1 k) (objects s2, matrix s2 k) ->
    exists e' s1' s2',
      forEachWith cols0 e bodyE s1 = Ok e' s1' /\
      forEachWith cols0 e bodyF s2 = Ok e' s2' /\
      R (objects s1', matrix s1' k) (objects s2', matrix s2' k).
Proof.
  intros HE HF Hstep cols0.
  induction cols0 as [|j cols0 IH]; intros e s1 s2 HR.
  - by exists e, s1, s2.
  - cbn [forEachWith]. unfold mbind, Op_bind.
    pose proof (HE e j s1) as H1. pose proof (HF e j s2) as H2.
    unfold wp in H1, H2.
    destruct (bodyE e j s1) as [e1 t1|]; [|done].
    destruct (bodyF e j s2) as [e2 t2|]; [|done].
    destruct H1 as [-> Hv1]. destruct H2 as [-> Hv2].
    apply IH. rewrite Hv1, Hv2. by apply Hstep.
Qed.

(** One column of an assembly, whatever its aggregation loop, as long as
    that loop is a pass over the bodies of [visit]. *)
Lemma wp_assembleColumn (k : MatrixMember)
    (store : VectorXd Scalar -> Wrld -> Wrld) (prep : BodyNode.Call Scalar)
    (prepOrder : list BodyId) (c : BodyNode.MatCall Scalar)
    (aggregate : Op unit) (visit : list BodyId) (e1 e2 : VectorXd Scalar)
    (s : Skel) :
  (forall Q s, wp (forEach visit (fun b => callBodyMat ct k b c)) Q s ->
               wp aggregate Q s) ->
  wp (onObjects (store e1);;
      forEach prepOrder (fun it => callBody ct it prep);;
      aggregate;;
      mret e2)
     (fun e' s' =>
        e' = e2 /\
        (objects s', matrix s' k)
        = assembleColumn ct store prep prepOrder c visit e1
            (objects s, matrix s k)) s.
Proof.
  intros Hagg. wp_step. wp_step. wp_step. eapply wp_mono.
  { apply (wp_preparePass k). }
  intros ? s1 [Ho1 Hm1]. cbn beta. cbn in Ho1, Hm1. wp_step.
  apply Hagg. eapply wp_mono; [apply wp_aggregatePass|].
  intros ? s2 H2. cbn beta. wp_step. split; [done|].
  rewrite H2, Ho1, Hm1. done.
Qed.

Lemma wp_forEachUntil_visited (k : MatrixMember) (c : BodyNode.MatCall Scalar)
    (test : BodyId -> bool) (l : list BodyId) (Q : unit -> Skel -> Prop)
    (s : Skel) :
  wp (forEach (visited test l) (fun b => callBodyMat ct k b c)) Q s ->
  wp (forEachUntil l (fun b => callBodyMat ct k b c;; mret (test b))) Q s.
Proof. unfold wp. by rewrite forEachUntil_visited. Qed.

Lemma agreeOn_refl (sim : Wrld -> Wrld -> Prop) (tri : nat -> nat -> Prop)
    (x : Wrld * MatrixXd Scalar) :
  Equivalence sim -> agreeOn sim tri x x.
Proof. intros Heq. by repeat split. Qed.

(** The column loop of updateMassMatrix beside the same loop without the
    [break]. *)
Lemma massColumns_related (sim : Wrld -> Wrld -> Prop)
    (rowsOf : BodyId -> nat -> Prop) (bodies : list BodyId)
    (cols0 : list nat) (e : VectorXd Scalar) (s1 s2 : Skel) :
  keepsDimensions ct ->
  scratchLocal ct sim GenCoordSystem_setAccelerations BodyNode.updateMassMatrix
    BodyNode.aggregateMassMatrix (reverse bodies) ->
  (forall j, writesOnlyRowsOf ct rowsOf (BodyNode.aggregateMassMatrix j) j) ->
  (forall b i, jointRows st b i -> rowsOf b i) ->
  rowsMonotone rowsOf bodies ->
  agreeOn sim (fun i k => k <= i)
    (objects s1, matrix s1 mM) (objects s2, matrix s2 mM) ->
  exists e' s1' s2',
    forEachWith cols0 e (fun e j =>
      let e := <[j := Sone]> e in
      onObjects (GenCoordSystem_setAccelerations e);;
      forEach bodies (fun it => callBody ct it BodyNode.updateMassMatrix);;
      aggregateBackward st ct mM (BodyNode.aggregateMassMatrix j) bodies j;;
      mret (<[j := Szero]> e)) s1 = Ok e' s1' /\
    forEachWith cols0 e (fun e j =>
      let e := <[j := Sone]> e in
      onObjects (GenCoordSystem_setAccelerations e);;
      forEach bodies (fun it => callBody ct it BodyNode.updateMassMatrix);;
      aggregateBackward_allBodies ct mM (BodyNode.aggregateMassMatrix j) bodies;;
      mret (<[j := Szero]> e)) s2 = Ok e' s2' /\
    agreeOn sim (fun i k => k <= i)
      (objects s1', matrix s1' mM) (objects s2', matrix s2' mM).
Proof.
  intros Hk Hscr Hw Hjoint Hmono.
  apply (columns_related mM _ _
           (fun j => assembleColumn ct GenCoordSystem_setAccelerations
                       BodyNode.updateMassMatrix bodies
                       (BodyNode.aggregateMassMatrix j)
                       (visited (fun b => leftOfColumn st b j) (reverse bodies)))
           (fun j => assembleColumn ct GenCoordSystem_setAccelerations
                       BodyNode.updateMassMatrix bodies
                       (BodyNode.aggregateMassMatrix j) (reverse bodies))).
  - intros e0 j s. cbn zeta. apply wp_assembleColumn.
    intros Q s0. apply wp_forEachUntil_visited.
  - intros e0 j s. cbn zeta. by apply wp_assembleColumn.
  - intros j e0 x y HR.
    destruct (visited_prefix (fun b => leftOfColumn st b j) (reverse bodies))
      as (rest & Hsplit & Hlast).
    eapply (assembleColumn_agree _ _ _ _ _ Hscr _ rowsOf); [done..| |done].
    intros b i Hb Hji. by eapply skipped_backward.
Qed.

(** The column loop of updateInvMassMatrix beside the same loop without
    the [break]. *)
Lemma invMassColumns_related (sim : Wrld -> Wrld -> Prop)
    (rowsOf : BodyId -> nat -> Prop) (bodies : list BodyId)
    (cols0 : list nat) (e : VectorXd Scalar) (s1 s2 : Skel) :
  keepsDimensions ct ->
  scratchLocal ct sim setGenForces BodyNode.updateInvMassMatrix
    BodyNode.aggregateInvMassMatrix bodies ->
  (forall j, writesOnlyRowsOf ct rowsOf (BodyNode.aggregateInvMassMatrix j) j) ->
  (forall b i, jointRows st b i -> rowsOf b i) ->
  rowsMonotone rowsOf bodies ->
  agreeOn sim (fun i k => i <= k)
    (objects s1, matrix s1 mInvM) (objects s2, matrix s2 mInvM) ->
  exists e' s1' s2',
    forEachWith cols0 e (fun e j =>
      let e := <[j := Sone]> e in
      onObjects (setGenForces e);;
      forEach (reverse bodies) (fun it =>
        callBody ct it BodyNode.updateInvMassMatrix);;
      aggregateForward st ct mInvM (BodyNode.aggregateInvMassMatrix j) bodies j;;
      mret (<[j := Szero]> e)) s1 = Ok e' s1' /\
    forEachWith cols0 e (fun e j =>
      let e := <[j := Sone]> e in
      onObjects (setGenForces e);;
      forEach (reverse bodies) (fun it =>
        callBody ct it BodyNode.updateInvMassMatrix);;
      aggregateForward_allBodies ct mInvM (BodyNode.aggregateInvMassMatrix j)
        bodies;;
      mret (<[j := Szero]> e)) s2 = Ok e' s2' /\
    agreeOn sim (fun i k => i <= k)
      (objects s1', matrix s1' mInvM) (objects s2', matrix s2' mInvM).
Proof.
  intros Hk Hscr Hw Hjoint Hmono.
  apply (columns_related mInvM _ _
           (fun j => assembleColumn ct setGenForces
                       BodyNode.updateInvMassMatrix (reverse bodies)
                       (BodyNode.aggregateInvMassMatrix j)
                       (visited (fun b => reachesColumn st b j) bodies))
           (fun j => assembleColumn ct setGenForces
                       BodyNode.updateInvMassMatrix (reverse bodies)
                       (BodyNode.aggregateInvMassMatrix j) bodies)).
  - intros e0 j s. cbn zeta. apply wp_assembleColumn.
    intros Q s0. apply wp_forEachUntil_visited.
  - intros e0 j s. cbn zeta. by apply wp_assembleColumn.
  - intros j e0 x y HR.
    destruct (visited_prefix (fun b => reachesColumn st b j) bodies)
      as (rest & Hsplit & Hlast).
    eapply (assembleColumn_agree _ _ _ _ _ Hscr _ rowsOf); [done..| |done].
    intros b i Hb Hji. by eapply skipped_forward.
Qed.

(** X28. The [break] of updateMassMatrix does not show in the mass matrix:
    on a skeleton with dof > 0 whose mass matrix has been allocated,
    updateMassMatrix and the same function with its backward loop run over
    all bodies both return, with the same mass matrix.  This holds when
    aggregateMassMatrix writes, in the column it is given, only rows of
    the body, the joint coordinates of a body are among its rows, the rows
    increase along mBodyNodes, and what aggregateMassMatrix leaves in the
    bodies is scratch that a pass from the last body on does not read
    before it has written it. *)
Theorem updateMassMatrix_early_exit_invisible
    (sim : Wrld -> Wrld -> Prop) (rowsOf : BodyId -> nat -> Prop) (s : Skel) :
  keepsDimensions ct ->
  scratchLocal ct sim GenCoordSystem_setAccelerations BodyNode.updateMassMatrix
    BodyNode.aggregateMassMatrix (reverse (mBodyNodes s)) ->
  (forall j, writesOnlyRowsOf ct rowsOf (BodyNode.aggregateMassMatrix j) j) ->
  (forall b i, jointRows st b i -> rowsOf b i) ->
  rowsMonotone rowsOf (mBodyNodes s) ->
  0 < getDof (objects s) ->
  cols (matrix s mM) = getDof (objects s) ->
  rows (matrix s mM) = getDof (objects s) ->
  exists s1 s2,
    updateMassMatrix st ct s = Ok tt s1 /\
    updateMassMatrix_allBodies ct s = Ok tt s2 /\
    matEq (matrix s1 mM) (matrix s2 mM).
Proof.
  intros Hk Hscr Hw Hjoint Hmono Hdof Hcols Hrows.
  set (s0 := with_matrix (<[mM := setZero (matrix s mM)]> (matrix s)) s).
  destruct (massColumns_related sim rowsOf (mBodyNodes s)
              (seq 0 (getDof (objects s)))
              (VectorXd_Zero (getDof (objects s))) s0 s0 Hk Hscr Hw Hjoint Hmono)
    as (e' & t1 & t2 & Hrun1 & Hrun2 & _ & Hr & Hc & Hco).
  { apply agreeOn_refl, Hscr. }
  cbn [fst snd] in Hr, Hc, Hco.
  assert (wp (updateMassMatrix st ct)
             (fun _ s' => matrix s' mM
                          = assignStrictlyUpperFromTranspose (matrix t1 mM)) s)
    as H1.
  { unfold updateMassMatrix. wp_step. wp_step.
    wp_step. apply wp_assert; [by apply bool_decide_eq_true_2|].
    wp_step. apply wp_assert; [by apply Nat.ltb_lt|].
    wp_step. wp_step. cbn zeta.
    wp_step. eapply wp_of_run; [exact Hrun1|].
    wp_step. wp_step. wp_step. wp_step.
    unfold setAccelerations. wp_step. wp_step. wp_step.
    eapply wp_mono; [apply computeForwardKinematics_spec|].
    intros ? s2 (Hm2 & _). cbn beta. wp_step.
    destruct Hm2 as (_ & _ & _ & _ & _ & _ & _ & Hmat2 & _).
    cbn in Hmat2 |- *. by rewrite Hmat2, fn_lookup_insert. }
  assert (wp (updateMassMatrix_allBodies ct)
             (fun _ s' => matrix s' mM
                          = assignStrictlyUpperFromTranspose (matrix t2 mM)) s)
    as H2.
  { unfold updateMassMatrix_allBodies. wp_step. wp_step.
    wp_step. apply wp_assert; [by apply bool_decide_eq_true_2|].
    wp_step. apply wp_assert; [by apply Nat.ltb_lt|].
    wp_step. wp_step. cbn zeta.
    wp_step. eapply wp_of_run; [exact Hrun2|].
    wp_step. wp_step. wp_step. wp_step.
    unfold setAccelerations. wp_step. wp_step. wp_step.
    eapply wp_mono; [apply computeForwardKinematics_spec|].
    intros ? s2 (Hm2 & _). cbn beta. wp_step.
    destruct Hm2 as (_ & _ & _ & _ & _ & _ & _ & Hmat2 & _).
    cbn in Hmat2 |- *. by rewrite Hmat2, fn_lookup_insert. }
  apply wp_run in H1 as (r1 & Hr1 & Hm1). apply wp_run in H2 as (r2 & Hr2 & Hm2).
  exists r1, r2. split; [done|]. split; [done|]. rewrite Hm1, Hm2.
  destruct (assignStrictlyUpperFromTranspose_spec (matrix t1 mM))
    as (Hr' & Hc' & Hco').
  destruct (assignStrictlyUpperFromTranspose_spec (matrix t2 mM))
    as (Hr'' & Hc'' & Hco'').
  unfold matEq. rewrite Hr', Hc', Hr'', Hc''. split; [done|]. split; [done|].
  intros i j Hi Hj. rewrite Hco', Hco'', <- Hr, <- Hc.
  case_decide; apply Hco; lia.
Qed.

(** X29. The [break] of updateInvMassMatrix does not show in the inverse
    mass matrix: on a skeleton with dof > 0 whose inverse mass matrix has
    been allocated, updateInvMassMatrix and the same function with its
    forward loop run over all bodies both return, with the same inverse
    mass matrix.  This holds when aggregateInvMassMatrix writes, in the
    column it is given, only rows of the body, the joint coordinates of a
    body are among its rows, the rows increase along mBodyNodes, and what
    aggregateInvMassMatrix leaves in the bodies is scratch that a pass
    from the first body on does not read before it has written it. *)
Theorem updateInvMassMatrix_early_exit_invisible
    (sim : Wrld -> Wrld -> Prop) (rowsOf : BodyId -> nat -> Prop) (s : Skel) :
  keepsDimensions ct ->
  scratchLocal ct sim setGenForces BodyNode.updateInvMassMatrix
    BodyNode.aggregateInvMassMatrix (mBodyNodes s) ->
  (forall j, writesOnlyRowsOf ct rowsOf (BodyNode.aggregateInvMassMatrix j) j) ->
  (forall b i, jointRows st b i -> rowsOf b i) ->
  rowsMonotone rowsOf (mBodyNodes s) ->
  0 < getDof (objects s) ->
  cols (matrix s mInvM) = getDof (objects s) ->
  rows (matrix s mInvM) = getDof (objects s) ->
  exists s1 s2,
    updateInvMassMatrix st ct s = Ok tt s1 /\
    updateInvMassMatrix_allBodies ct s = Ok tt s2 /\
    matEq (matrix s1 mInvM) (matrix s2 mInvM).
Proof.
  intros Hk Hscr Hw Hjoint Hmono Hdof Hcols Hrows.
  destruct (wp_run
              (if dirty s mIsArticulatedInertiaDirty
               then forEach (reverse (mBodyNodes s)) (fun it =>
                      callBody ct it (BodyNode.updateArtInertia (mTimeStep s)));;
                    setDirty mIsArticulatedInertiaDirty false
               else mret tt)
              (fun _ => True) s) as (s0 & Hpre & _).
  { wp_step; [|by wp_step]. wp_step. eapply wp_mono.
    - apply (wp_forEach _ _ (fun _ => True)); [done|].
      intros b s1 _ _. by wp_step.
    - intros ? s1 _. by wp_step. }
  destruct (invMassColumns_related sim rowsOf (mBodyNodes s)
              (seq 0 (getDof (objects s)))
              (VectorXd_Zero (getDof (objects s))) s0 s0 Hk Hscr Hw Hjoint Hmono)
    as (e' & t1 & t2 & Hrun1 & Hrun2 & _ & Hr & Hc & Hco).
  { apply agreeOn_refl, Hscr. }
  cbn [fst snd] in Hr, Hc, Hco.
  assert (wp (updateInvMassMatrix st ct)
             (fun _ s' => matrix s' mInvM
                          = assignStrictlyLowerFromTranspose (matrix t1 mInvM)) s)
    as H1.
  { unfold updateInvMassMatrix. wp_step. wp_step.
    wp_step. apply wp_assert; [by apply bool_decide_eq_true_2|].
    wp_step. apply wp_assert; [by apply Nat.ltb_lt|]. cbn zeta.
    wp_step. eapply wp_of_run; [exact Hpre|].
    wp_step. eapply wp_of_run; [exact Hrun1|].
    wp_steps. cbn. by rewrite fn_lookup_insert. }
  assert (wp (updateInvMassMatrix_allBodies ct)
             (fun _ s' => matrix s' mInvM
                          = assignStrictlyLowerFromTranspose (matrix t2 mInvM)) s)
    as H2.
  { unfold updateInvMassMatrix_allBodies. wp_step. wp_step.
    wp_step. apply wp_assert; [by apply bool_decide_eq_true_2|].
    wp_step. apply wp_assert; [by apply Nat.ltb_lt|]. cbn zeta.
    wp_step. eapply wp_of_run; [exact Hpre|].
    wp_step. eapply wp_of_run; [exact Hrun2|].
    wp_steps. cbn. by rewrite fn_lookup_insert. }
  apply wp_run in H1 as (r1 & Hr1 & Hm1). apply wp_run in H2 as (r2 & Hr2 & Hm2).
  exists r1, r2. split; [done|]. split; [done|]. rewrite Hm1, Hm2.
  destruct (assignStrictlyLowerFromTranspose_spec (matrix t1 mInvM))
    as (Hr' & Hc' & Hco').
  destruct (assignStrictlyLowerFromTranspose_spec (matrix t2 mInvM))
    as (Hr'' & Hc'' & Hco'').
  unfold matEq. rewrite Hr', Hc', Hr'', Hc''. split; [done|]. split; [done|].
  intros i j Hi Hj. rewrite Hco', Hco'', <- Hr, <- Hc.
  case_decide; apply Hco; lia.
Qed.

End WholeAssembly.

(** ** The further statements on the concrete skeletons *)

Lemma toy_callKeepsGenCoords (c : BodyNode.Call Qc) :
  (forall i, c <> BodyNode.init i) -> callKeepsGenCoords toyContract c.
Proof. intros Hc b w. destruct c; try done. by destruct (Hc skelIndex). Qed.

Lemma toy_matCallKeepsGenCoords (c : BodyNode.MatCall Qc) :
  matCallKeepsGenCoords toyContract c.
Proof. by intros b w m. Qed.

Lemma toy_kinematicsKeep (c : BodyNode.Call Qc) :
  c ∈ kinematicsUpdates -> callKeepsGenCoords toyContract c.
Proof.
  intros Hc. apply toy_callKeepsGenCoords. intros i ->.
  unfold kinematicsUpdates in Hc.
  repeat (apply elem_of_cons in Hc as [Hc|Hc]; [discriminate Hc|]).
  by apply elem_of_nil in Hc.
Qed.

Lemma toy_getMassMatrix_runs :
  exists m s',
    getMassMatrix toyStructure toyContract (toySkeleton true) = Ok m s'.
Proof.
  set (r := getMassMatrix toyStructure toyContract (toySkeleton true)).
  vm_compute in r.
  match goal with r := Ok ?m ?s' |- _ => by exists m, s' end.
Qed.

Lemma toy_updateGravityForceVector_runs :
  exists s', updateGravityForceVector toyContract (toySkeleton true) = Ok tt s'.
Proof.
  set (r := updateGravityForceVector toyContract (toySkeleton true)).
  vm_compute in r.
  match goal with r := Ok _ ?s' |- _ => by exists s' end.
Qed.

Lemma updaters_write_their_own_flag_only_witness :
  exists s',
    updateGravityForceVector toyContract (toySkeleton true) = Ok tt s' /\
    (forall f', dirty s' f'
                = if decide (f' = mIsGravityForceVectorDirty) then false
                  else dirty (toySkeleton true) f') /\
    (forall d, updateGravityForceVector toyContract
                 (with_dirty d (toySkeleton true))
               = Ok tt (with_dirty (<[mIsGravityForceVectorDirty := false]> d) s')).
Proof.
  destruct toy_updateGravityForceVector_runs as (s' & Hrun).
  exists s'. split; [exact Hrun|].
  apply (updaters_write_their_own_flag_only toyStructure toyContract
           mIsGravityForceVectorDirty (updateGravityForceVector toyContract)
           (toySkeleton true)).
  - unfold flagBlindUpdaters. in_list.
  - exact Hrun.
Defined.

Lemma accessors_reuse_cache_witness :
  exists m s',
    getMassMatrix toyStructure toyContract (toySkeleton true) = Ok m s' /\
    m = matrix s' mM /\ dirty s' mIsMassMatrixDirty = false /\
    getMassMatrix toyStructure toyContract s' = Ok m s'.
Proof.
  destruct toy_getMassMatrix_runs as (m & s' & Hrun).
  exists m, s'. split; [exact Hrun|].
  apply (proj1 (accessors_reuse_cache toyStructure toyContract)
           mIsMassMatrixDirty mM (getMassMatrix toyStructure toyContract)
           (toySkeleton true)).
  - unfold matrixAccessors. in_list.
  - exact Hrun.
Defined.

Lemma getAugMassMatrix_symmetric_witness :
  exists m s',
    getAugMassMatrix toyStructure toyContract
      (with_dirty (fun _ => true) (toySkeleton true)) = Ok m s' /\
    m = matrix s' mAugM /\ matEq m (transpose m).
Proof.
  apply (getAugMassMatrix_symmetric toyStructure toyContract
           (with_dirty (fun _ => true) (toySkeleton true))).
  - exact toy_keepsDimensions.
  - cbn. lia.
  - reflexivity.
  - reflexivity.
  - intros Hclean. discriminate Hclean.
Defined.

Lemma getInvMassMatrix_symmetric_witness :
  exists m s',
    getInvMassMatrix toyStructure toyContract
      (with_dirty (fun _ => true) (toySkeleton true)) = Ok m s' /\
    m = matrix s' mInvM /\ matEq m (transpose m).
Proof.
  apply (getInvMassMatrix_symmetric toyStructure toyContract
           (with_dirty (fun _ => true) (toySkeleton true))).
  - exact toy_keepsDimensions.
  - cbn. lia.
  - reflexivity.
  - reflexivity.
  - intros Hclean. discriminate Hclean.
Defined.

Lemma getInvAugMassMatrix_symmetric_witness :
  exists m s',
    getInvAugMassMatrix toyStructure toyContract
      (with_dirty (fun _ => true) (toySkeleton true)) = Ok m s' /\
    m = matrix s' mInvAugM /\ matEq m (transpose m).
Proof.
  apply (getInvAugMassMatrix_symmetric toyStructure toyContract
           (with_dirty (fun _ => true) (toySkeleton true))).
  - exact toy_keepsDimensions.
  - cbn. lia.
  - reflexivity.
  - reflexivity.
  - intros Hclean. discriminate Hclean.
Defined.

Lemma updateAugMassMatrix_restores_accelerations_witness :
  exists s',
    updateAugMassMatrix toyStructure toyContract (toySkeleton true) = Ok tt s' /\
    mGenCoords (objects s') = mGenCoords (objects (toySkeleton true)) /\
    (forall f, dirty s' f
               = if decide (f = mIsAugMassMatrixDirty) then false
                 else dirty (toySkeleton true) f) /\
    (forall k, k <> mAugM -> matrix s' k = matrix (toySkeleton true) k) /\
    vector s' = vector (toySkeleton true).
Proof.
  apply (updateAugMassMatrix_restores_accelerations toyStructure toyContract
           (toySkeleton true)).
  - apply toy_callKeepsGenCoords. intros i Hi. discriminate Hi.
  - intros j. apply toy_matCallKeepsGenCoords.
  - cbn. lia.
  - reflexivity.
  - reflexivity.
Defined.

Lemma updateInvMassMatrix_restores_forces_witness :
  exists s',
    updateInvMassMatrix toyStructure toyContract
      (with_dirty (fun _ => true) (toySkeleton true)) = Ok tt s' /\
    mGenCoords (objects s') = mGenCoords (objects (toySkeleton true)) /\
    (forall f, dirty s' f
               = if decide (f = mIsInvMassMatrixDirty) then false
                 else if decide (f = mIsArticulatedInertiaDirty) then false
                 else true) /\
    (forall k, k <> mInvM -> matrix s' k = matrix (toySkeleton true) k) /\
    vector s' = vector (toySkeleton true).
Proof.
  apply (updateInvMassMatrix_restores_forces toyStructure toyContract
           (with_dirty (fun _ => true) (toySkeleton true))).
  - apply toy_callKeepsGenCoords. intros i Hi. discriminate Hi.
  - apply toy_callKeepsGenCoords. intros i Hi. discriminate Hi.
  - intros j. apply toy_matCallKeepsGenCoords.
  - cbn. lia.
  - reflexivity.
  - reflexivity.
Defined.

Lemma updateInvAugMassMatrix_restores_forces_witness :
  exists s',
    updateInvAugMassMatrix toyStructure toyContract (toySkeleton true)
    = Ok tt s' /\
    mGenCoords (objects s') = mGenCoords (objects (toySkeleton true)) /\
    (forall f, dirty s' f
               = if decide (f = mIsInvAugMassMatrixDirty) then false
                 else dirty (toySkeleton true) f) /\
    (forall k, k <> mInvAugM -> matrix s' k = matrix (toySkeleton true) k) /\
    vector s' = vector (toySkeleton true).
Proof.
  apply (updateInvAugMassMatrix_restores_forces toyStructure toyContract
           (toySkeleton true)).
  - apply toy_callKeepsGenCoords. intros i Hi. discriminate Hi.
  - intros j. apply toy_matCallKeepsGenCoords.
  - cbn. lia.
  - reflexivity.
  - reflexivity.
Defined.

Lemma kinematics_passes_invalidate_witness :
  exists s',
    computeForwardDynamicsRecursionPartA toyContract (toySkeleton false)
    = Ok tt s' /\
    (forall f, f ∈ kinematicsFlags -> dirty s' f = true) /\
    (forall b, b ∈ mBodyNodes (toySkeleton false) ->
               jacobiansDirty (objects s') b).
Proof.
  apply (kinematics_passes_invalidate toyContract false false false
           (toySkeleton false)
           (computeForwardDynamicsRecursionPartA toyContract)).
  in_list.
Defined.

Lemma computeInverseDynamicsRecursionB_passes_witness :
  exists s',
    computeInverseDynamicsRecursionB toyContract true false
      (with_mIsMobile false (toySkeleton true)) = Ok tt s' /\
    calls s' = calls (toySkeleton true)
               ++ (b ← reverse (mBodyNodes (toySkeleton true));
                   OnBody b <$>
                     [BodyNode.updateBodyForce (mGravity (toySkeleton true)) true;
                      BodyNode.updateGeneralizedForce false]) /\
    dirty s' = dirty (toySkeleton true) /\ mIsMobile s' = false.
Proof.
  apply (proj2 (computeInverseDynamicsRecursionB_passes toyContract
                  true false false (toySkeleton true))).
  cbn. lia.
Defined.

Lemma computeImpulseForwardDynamics_passes_witness :
  exists s',
    computeImpulseForwardDynamics toyContract
      (with_dirty (fun _ => true) (toySkeleton true)) = Ok tt s' /\
    artInertiaCalls (calls s')
    = [(3, Q2Qc (1 # 1000)); (2, Q2Qc (1 # 1000));
       (1, Q2Qc (1 # 1000)); (0, Q2Qc (1 # 1000))] /\
    dirty s' mIsArticulatedInertiaDirty = false.
Proof.
  destruct (computeImpulseForwardDynamics_passes toyContract
              (with_dirty (fun _ => true) (toySkeleton true))
              eq_refl ltac:(cbn; lia))
    as (s' & Hrun & Hcalls & Hdirty & _).
  exists s'. split; [exact Hrun|]. split.
  - rewrite Hcalls. reflexivity.
  - rewrite Hdirty. reflexivity.
Defined.

Lemma getState_after_setState_witness :
  exists s',
    setState toyContract
      [Q2Qc 1; Q2Qc 2; Q2Qc 3; Q2Qc 4; Q2Qc 5; Q2Qc 6; Q2Qc 7; Q2Qc 8]
      true true true (toySkeleton false) = Ok tt s' /\
    getState s'
    = [Q2Qc 1; Q2Qc 2; Q2Qc 3; Q2Qc 4; Q2Qc 5; Q2Qc 6; Q2Qc 7; Q2Qc 8].
Proof.
  apply (proj2 (getState_after_setState toyContract
                  [Q2Qc 1; Q2Qc 2; Q2Qc 3; Q2Qc 4;
                   Q2Qc 5; Q2Qc 6; Q2Qc 7; Q2Qc 8]
                  true true true (toySkeleton false) toy_kinematicsKeep)).
  reflexivity.
Defined.

Lemma setState_of_getState_witness :
  dirty (toySkeleton false) mIsMassMatrixDirty = false /\
  exists s',
    setState toyContract (getState (toySkeleton false)) false false false
      (toySkeleton false) = Ok tt s' /\
    mGenCoords (objects s') = mGenCoords (objects (toySkeleton false)) /\
    calls s' = calls (toySkeleton false)
               ++ kinematicsCalls false false false
                    (mBodyNodes (toySkeleton false)) /\
    (forall f, f ∈ kinematicsFlags -> dirty s' f = true).
Proof.
  split; [reflexivity|].
  apply (setState_of_getState toyContract false false false (toySkeleton false)).
  exact toy_kinematicsKeep.
Defined.

Lemma getConfigSegs_after_setConfigSegs_witness :
  exists s',
    setConfigSegs toyContract [2; 0] [Q2Qc 20; Q2Qc 30] true true true
      (toySkeleton false) = Ok tt s' /\
    getConfigSegs [2; 0] s' = [Q2Qc 20; Q2Qc 30] /\
    (forall i, i ∉ [2; 0] ->
               coordAt (objects s') i = coordAt (objects (toySkeleton false)) i) /\
    getGenVels (objects s') = getGenVels (objects (toySkeleton false)) /\
    getGenAccs (objects s') = getGenAccs (objects (toySkeleton false)) /\
    getGenForces (objects s') = getGenForces (objects (toySkeleton false)).
Proof.
  apply (getConfigSegs_after_setConfigSegs toyContract [2; 0]
           [Q2Qc 20; Q2Qc 30] true true true (toySkeleton false)).
  - exact toy_kinematicsKeep.
  - apply NoDup_cons. split.
    + intros Hin. apply list_elem_of_singleton in Hin. discriminate Hin.
    + apply NoDup_singleton.
  - repeat constructor; cbn; lia.
  - reflexivity.
Defined.

Lemma internal_forces_stored_witness :
  (exists s',
     setInternalForceVector [Q2Qc 1; Q2Qc 2; Q2Qc 3; Q2Qc 4] (toySkeleton false)
     = Ok tt s' /\
     getInternalForceVector s' = [Q2Qc 1; Q2Qc 2; Q2Qc 3; Q2Qc 4] /\
     getState s' = getState (toySkeleton false) /\
     getGenAccs (objects s') = getGenAccs (objects (toySkeleton false)) /\
     dirty s' = dirty (toySkeleton false) /\
     calls s' = calls (toySkeleton false)) /\
  (exists s',
     clearInternalForces (toySkeleton false) = Ok tt s' /\
     getInternalForceVector s' = VectorXd_Zero 4 /\
     getState s' = getState (toySkeleton false) /\
     getGenAccs (objects s') = getGenAccs (objects (toySkeleton false)) /\
     dirty s' = dirty (toySkeleton false) /\
     calls s' = calls (toySkeleton false)).
Proof.
  apply (internal_forces_stored [Q2Qc 1; Q2Qc 2; Q2Qc 3; Q2Qc 4]
           (toySkeleton false)).
  reflexivity.
Defined.

Lemma init_allocates_caches_witness :
  exists s',
    init toyStructure toyContract 4 (Q2Qc (1 # 1000)) v3zero toyUninitialized
    = Ok tt s' /\
    mTimeStep s' = Q2Qc (1 # 1000) /\ mGravity s' = v3zero /\
    (forall k, matrix s' k
               = MatrixXd_Zero (getDof (objects s')) (getDof (objects s'))) /\
    (forall k, vector s' k = VectorXd_Zero (getDof (objects s'))) /\
    getInternalForceVector s' = VectorXd_Zero (getDof (objects s')) /\
    (forall f, f ∈ kinematicsFlags -> dirty s' f = true).
Proof.
  apply (init_allocates_caches toyStructure toyContract 4 (Q2Qc (1 # 1000))
           v3zero toyUninitialized toyTree).
  - exact toy_formsTree.
  - reflexivity.
  - cbn. lia.
  - apply toy_callKeepsGenCoords. intros i Hi. discriminate Hi.
Defined.

Lemma init_again_keeps_order_witness :
  exists s' s'',
    init toyStructure toyContract 4 (Q2Qc (1 # 1000)) v3zero toyUninitialized
    = Ok tt s' /\
    init toyStructure toyContract 4 (Q2Qc (1 # 100)) v3zero s' = Ok tt s'' /\
    mBodyNodes s'' = mBodyNodes s' /\
    bfsOrder toyStructure 4 (take 1 (mBodyNodes toyUninitialized))
    = Some (mBodyNodes s').
Proof.
  apply (init_again_keeps_order toyStructure toyContract 4
           (Q2Qc (1 # 1000)) (Q2Qc (1 # 100)) v3zero v3zero
           toyUninitialized toyTree).
  - exact toy_formsTree.
  - reflexivity.
  - reflexivity.
  - cbn. lia.
Defined.

Lemma parameters_stored_without_invalidation_witness :
  exists s',
    setTimeStep (Q2Qc (1 # 2)) (toySkeleton false) = Ok tt s' /\
    mTimeStep s' = Q2Qc (1 # 2) /\
    staysCached toyStructure toyContract (toySkeleton false) s'.
Proof.
  apply (proj1 (parameters_stored_without_invalidation toyStructure toyContract
                  4 (Q2Qc (1 # 2)) v3zero (toySkeleton false))).
  reflexivity.
Defined.

Lemma init_total_mass_witness :
  exists s',
    init toyStructure toyContract 4 (Q2Qc (1 # 1000)) v3zero toyUninitialized
    = Ok tt s' /\
    mTotalMass s'
    = foldr Sadd Szero (getMass toyStructure <$> mBodyNodes toyUninitialized).
Proof.
  apply (@init_total_mass Qc Qc_ScalarOps unit toyStructure toyContract Qcrt 4
           (Q2Qc (1 # 1000))
           v3zero toyUninitialized toyTree).
  - exact toy_formsTree.
  - reflexivity.
  - cbn. lia.
Defined.

Lemma lookup_by_name_first_match_witness :
  exists r,
    getBodyNode_byName toyNames "arm" (toySkeleton false)
    = Ok r (toySkeleton false) /\
    firstNamed (bodyName toyNames) "arm" (mBodyNodes (toySkeleton false)) r.
Proof.
  apply (proj2 (lookup_by_name_first_match toyNames
                  (getBodyNode_byName toyNames) (bodyName toyNames) mBodyNodes
                  "arm" (toySkeleton false)
                  ltac:(unfold lookupsByName; in_list))).
  intros Hempty. discriminate Hempty.
Defined.

Lemma getMarker_first_match_witness :
  exists r,
    getMarker toyNames "tip" (toySkeleton false) = Ok r (toySkeleton false) /\
    firstNamed (markerName toyNames) "tip"
      (b ← mBodyNodes (toySkeleton false); getMarkers toyNames b) r.
Proof.
  apply (proj2 (getMarker_first_match toyNames "tip" (toySkeleton false))).
  intros Hempty. discriminate Hempty.
Defined.

Lemma soft_bodies_among_bodies_witness :
  (getNumRigidBodyNodes softSkeleton + getNumSoftBodyNodes softSkeleton
   = getNumBodyNodes softSkeleton /\
   0 <= getNumRigidBodyNodes softSkeleton /\
   0 <= getNumSoftBodyNodes softSkeleton /\
   getNumBodyNodes softSkeleton = Z.of_nat (length (mBodyNodes softSkeleton)))%Z.
Proof.
  apply (proj2 (proj2 (soft_bodies_among_bodies softStructure toyContract
                         softSkeleton ltac:(reflexivity)))).
  cbn. lia.
Defined.

Lemma updateBiasImpulse_walks_to_root_witness :
  exists s',
    updateBiasImpulse toyStructure toyContract 3 3 (toySkeleton true) = Ok tt s' /\
    callsOnly (toySkeleton true) s'
      ((fun b => OnBody b BodyNode.updateBiasImpulse) <$> [3; 1; 0]).
Proof.
  apply (proj1 (updateBiasImpulse_walks_to_root toyStructure toyContract
                  3 [3; 1; 0] 3 (toySkeleton true)
                  ltac:(repeat constructor) ltac:(cbn; lia))).
  split; [cbn; lia|]. split.
  - cbn. in_list.
  - cbn. repeat constructor.
Defined.

Lemma accessor_recomputes_after_setter_witness :
  exists s1 v s2,
    setPositions toyContract [Q2Qc 1; Q2Qc 2; Q2Qc 3; Q2Qc 4] true true true
      (toySkeleton false) = Ok tt s1 /\
    getGravityForceVector toyContract s1 = Ok v s2 /\
    calls s2 = calls s1
               ++ ((fun b => OnBodyVec b
                               (BodyNode.aggregateGravityForceVector
                                  (mGravity (toySkeleton false))))
                   <$> reverse (mBodyNodes (toySkeleton false))) /\
    v = vector s2 mG /\
    dirty s2 mIsGravityForceVectorDirty = false.
Proof.
  apply (accessor_recomputes_after_setter toyContract
           [Q2Qc 1; Q2Qc 2; Q2Qc 3; Q2Qc 4] true true true (toySkeleton false)).
  - exact toy_kinematicsKeep.
  - cbn. lia.
  - reflexivity.
Defined.

Lemma clearExternalForces_keeps_cache_witness :
  exists s',
    clearExternalForces toyContract (toySkeleton false) = Ok tt s' /\
    calls s' = calls (toySkeleton false)
               ++ ((fun b => OnBody b BodyNode.clearExternalForces)
                   <$> mBodyNodes (toySkeleton false)) /\
    dirty s' = dirty (toySkeleton false) /\
    getExternalForceVector toyStructure toyContract s'
    = Ok (vector (toySkeleton false) mFext) s'.
Proof.
  apply (clearExternalForces_keeps_cache toyStructure toyContract
           (toySkeleton false)).
  reflexivity.
Defined.

Lemma toy_scratchLocal (store : VectorXd Qc -> World Qc unit -> World Qc unit)
    (prep : BodyNode.Call Qc) (agg : nat -> BodyNode.MatCall Qc)
    (order : list BodyId) :
  scratchLocal toyContract eq store prep agg order.
Proof.
  split; [apply _|]. split; [by intros e w w' ->|].
  split; [by intros b w w' ->|]. split; [done|].
  intros j l l' w w' m m' i k _ <-. clear l'. revert m m'.
  induction l as [|b l IH]; intros m m' Hco; [done|].
  rewrite !aggregatePass_cons. apply IH. cbn.
  case_decide; [done | exact Hco].
Qed.

Lemma updateMassMatrix_early_exit_invisible_witness :
  exists s1 s2,
    updateMassMatrix toyStructure toyContract (toySkeleton true) = Ok tt s1 /\
    updateMassMatrix_allBodies toyContract (toySkeleton true) = Ok tt s2 /\
    matEq (matrix s1 mM) (matrix s2 mM).
Proof.
  apply (updateMassMatrix_early_exit_invisible toyStructure toyContract eq
           (jointRows toyStructure) (toySkeleton true)).
  - exact toy_keepsDimensions.
  - apply toy_scratchLocal.
  - intros j. exact (toy_writesOnlyRowsOf (BodyNode.aggregateMassMatrix j)).
  - intros b i Hrow. exact Hrow.
  - exact toy_rowsMonotone.
  - cbn. lia.
  - reflexivity.
  - reflexivity.
Defined.

Lemma updateInvMassMatrix_early_exit_invisible_witness :
  exists s1 s2,
    updateInvMassMatrix toyStructure toyContract (toySkeleton true) = Ok tt s1 /\
    updateInvMassMatrix_allBodies toyContract (toySkeleton true) = Ok tt s2 /\
    matEq (matrix s1 mInvM) (matrix s2 mInvM).
Proof.
  apply (updateInvMassMatrix_early_exit_invisible toyStructure toyContract eq
           (jointRows toyStructure) (toySkeleton true)).
  - exact toy_keepsDimensions.
  - apply toy_scratchLocal.
  - intros j. exact (toy_writesOnlyRowsOf (BodyNode.aggregateInvMassMatrix j)).
  - intros b i Hrow. exact Hrow.
  - exact toy_rowsMonotone.
  - cbn. lia.
  - reflexivity.
  - reflexivity.
Defined.

(** ** Further runs of the concrete skeletons *)

(** Two bodies are called "arm": the lookup returns the one that comes
    first in mBodyNodes.  No body is called "leg".  Of the two markers
    called "tip" the one found is the marker of the body that comes
    first. *)
Example lookup_by_name_run :
  getBodyNode_byName toyNames "arm" (toySkeleton false)
  = Ok (Some 1) (toySkeleton false) /\
  getBodyNode_byName toyNames "leg" (toySkeleton false)
  = Ok None (toySkeleton false) /\
  getJoint_byName toyNames "wrist" (toySkeleton false)
  = Ok (Some 3) (toySkeleton false) /\
  getMarker toyNames "tip" (toySkeleton false)
  = Ok (Some 11) (toySkeleton false) /\
  getBodyNode_byName toyNames "" (toySkeleton false) = Fail AssertionFailed.
Proof. by repeat split. Qed.
